(** * Liftwin: scoring engine, share codec and event reconciliation

    A shallow embedding of the pure core of the Liftwin "Monthly Meet"
    scorer (EventView.tsx, EventManager.tsx, App.tsx, storage.ts,
    eventKey.ts and the older single-file App) together with the
    properties its specification states and further properties of the
    rankings, the roster edits, the event store and the share links.

    Conventions.
    - A JavaScript string is the list of its UTF-16 code units ([jsstring]).
    - A JavaScript number is an IEEE binary64 value ([float], the kernel's
      primitive floats); [null] is [None].
    - A JavaScript object used as a map is a [gmap] of the properties it
      holds itself (an assignment to the key [__proto__] creates none);
      where the order of its keys matters it is the list of its entries.
    - A built-in of the platform (String.prototype.trim, Number, btoa,
      TextEncoder, ...) is modelled from its standard, next to the code
      that calls it. *)

From Stdlib Require Import ZArith Lia List Bool Ascii String Floats.
From stdpp Require Import base option list gmap.

Set Warnings "-inexact-float,-clear-no-such-hyp,-unused-intro-pattern,-register-all".
Set Default Proof Using "Type".

(** Linear arithmetic with division and remainder by constants. *)
Ltac divlia := Z.div_mod_to_equations; lia.

(** ** JavaScript strings *)

Definition jsstring := list Z.

(** An ASCII literal, read as a JavaScript string. *)
Definition js (s : string) : jsstring :=
  map (fun a => Z.of_N (N_of_ascii a)) (list_ascii_of_string s).

(** The code unit of an ASCII character. *)
Definition ch (a : ascii) : Z := Z.of_N (N_of_ascii a).

(** WhiteSpace and LineTerminator code points of ECMAScript: what
    String.prototype.trim strips and what StringToNumber skips. *)
Definition is_js_space (c : Z) : bool :=
  ((9 <=? c) && (c <=? 13) || (c =? 32) || (c =? 160) || (c =? 5760)
   || (8192 <=? c) && (c <=? 8202) || (c =? 8232) || (c =? 8233)
   || (c =? 8239) || (c =? 8287) || (c =? 12288) || (c =? 65279))%Z.

Fixpoint trimStart (s : jsstring) : jsstring :=
  match s with
  | c :: r => if is_js_space c then trimStart r else s
  | [] => []
  end.

Definition trimEnd (s : jsstring) : jsstring := rev (trimStart (rev s)).

(** String.prototype.trim *)
Definition trim (s : jsstring) : jsstring := trimEnd (trimStart s).

(** String.prototype.split with a one-character separator: the pieces
    between the separators, in order; the empty string splits into one
    empty piece. *)
Fixpoint split (sep : Z) (s : jsstring) : list jsstring :=
  match s with
  | [] => [[]]
  | c :: r =>
      if (c =? sep)%Z then [] :: split sep r
      else match split sep r with
           | p :: ps => (c :: p) :: ps
           | [] => [[c]]
           end
  end.

Definition is_empty (s : jsstring) : bool :=
  match s with [] => true | _ => false end.

(** ** JavaScript numbers *)

Abbreviation number := float.

(** The global isNaN on a number. *)
Definition isNaN (x : number) : bool := PrimFloat.is_nan x.

(** The global isFinite on a number. *)
Definition isFinite (x : number) : bool :=
  negb (PrimFloat.is_nan x) && negb (PrimFloat.is_infinity x).

(** ToBoolean of a number: false for +0, -0 and NaN. *)
Definition truthy (x : number) : bool :=
  negb (PrimFloat.eqb x 0%float) && negb (PrimFloat.is_nan x).

(** ToBoolean of a nullable number, the [!x] tests of the source. *)
Definition falsy (x : option number) : bool :=
  match x with
  | None => true
  | Some v => negb (truthy v)
  end.

(** An integer below 2^53 as a number (exact). *)
Definition of_int (n : Z) : number := PrimFloat.of_uint63 (Uint63.of_Z n).

Definition of_nat (n : nat) : number := of_int (Z.of_nat n).

(** *** StringToNumber

    [Number(s)] on a string: the StringNumericLiteral grammar of ECMAScript
    (surrounding white space, an optional sign, [Infinity], decimal
    literals with fraction and exponent, and unsigned binary, octal and
    hexadecimal integers); anything else is NaN, the empty literal is +0.
    The value of a literal is its mathematical value rounded to the
    nearest binary64 number, ties to even. *)

Section StringToNumber.
Local Open Scope Z_scope.

Definition is_digit (c : Z) : bool := (48 <=? c) && (c <=? 57).

(** The value of a digit in a base up to 16, if it is one. *)
Definition digit_in_base (base c : Z) : option Z :=
  let v := if (48 <=? c) && (c <=? 57) then c - 48
           else if (97 <=? c) && (c <=? 102) then c - 87
           else if (65 <=? c) && (c <=? 70) then c - 55
           else 16 in
  if v <? base then Some v else None.

Fixpoint span_digits (s : jsstring) : jsstring * jsstring :=
  match s with
  | c :: r =>
      if is_digit c then let '(ds, rest) := span_digits r in (c :: ds, rest)
      else ([], s)
  | [] => ([], [])
  end.

Definition digits_value (ds : jsstring) : Z :=
  fold_left (fun acc c => acc * 10 + (c - 48)) ds 0.

(** All characters are digits of [base]: their value, most significant
    first. *)
Fixpoint based_value (base : Z) (acc : Z) (s : jsstring) : option Z :=
  match s with
  | [] => Some acc
  | c :: r =>
      match digit_in_base base c with
      | Some v => based_value base (acc * base + v) r
      | None => None
      end
  end.

(** The number nearest to [m * 2^e]. *)
Definition round_binary (m e : Z) : number :=
  SF2Prim (binary_normalize prec emax m e false).

(** The number nearest to the non-negative integer [v]. *)
Definition integer_value (v : Z) : number := round_binary v 0.

(** The number nearest to [m * 10^e], [0 <= m]. A quotient is taken
    with 64 significant bits and a sticky last bit, which rounds to the
    same number as the exact quotient does. Values beyond the range of
    binary64 are decided without computing the power of ten. *)
Definition decimal_value (m e : Z) : number :=
  if m =? 0 then 0%float
  else if 400 <? e then infinity
  else if Z.log2 m + 1 + 3 * e <? -1080 then 0%float
  else if 0 <=? e then round_binary (m * 10 ^ e) 0
  else
    let d := 10 ^ (- e) in
    let s := Z.max 0 (65 + Z.log2 d - Z.log2 m) in
    let q := (m * 2 ^ s) / d in
    let sticky := if (m * 2 ^ s) mod d =? 0 then 0 else 1 in
    round_binary (Z.lor q sticky) (- s).

(** ExponentPart: [e] or [E], an optional sign and at least one digit,
    up to the end of the literal. *)
Definition exponent_part (s : jsstring) : option Z :=
  match s with
  | [] => Some 0
  | c :: r =>
      if (c =? 101) || (c =? 69) then
        let '(neg, r') :=
          match r with
          | 43 :: t => (false, t)
          | 45 :: t => (true, t)
          | _ => (false, r)
          end in
        let '(ds, rest) := span_digits r' in
        if is_empty ds || negb (is_empty rest) then None
        else Some (if neg then - digits_value ds else digits_value ds)
      else None
  end.

(** StrUnsignedDecimalLiteral *)
Definition unsigned_decimal (s : jsstring) : option number :=
  if decide (s = js "Infinity") then Some infinity
  else
    let '(ip, r1) := span_digits s in
    let '(fp, r2) :=
      match r1 with
      | 46 :: t => span_digits t
      | _ => ([], r1)
      end in
    if is_empty ip && is_empty fp then None
    else
      match exponent_part r2 with
      | Some ex =>
          Some (decimal_value (digits_value (ip ++ fp))
                              (ex - Z.of_nat (length fp)))
      | None => None
      end.

(** NonDecimalIntegerLiteral *)
Definition non_decimal (s : jsstring) : option number :=
  match s with
  | 48 :: p :: d :: r =>
      let base := if (p =? 120) || (p =? 88) then 16
                  else if (p =? 111) || (p =? 79) then 8
                  else if (p =? 98) || (p =? 66) then 2
                  else 0 in
      if base =? 0 then None
      else option_map integer_value (based_value base 0 (d :: r))
  | _ => None
  end.

Definition StringToNumber (s : jsstring) : number :=
  let t := trim s in
  match t with
  | [] => 0%float
  | c :: r =>
      match non_decimal t with
      | Some v => v
      | None =>
          let signed :=
            if c =? 45 then option_map PrimFloat.opp (unsigned_decimal r)
            else if c =? 43 then unsigned_decimal r
            else unsigned_decimal t in
          match signed with
          | Some v => v
          | None => nan
          end
      end
  end.

(** [Number(value)] applied to a string. *)
Definition Number (s : jsstring) : number := StringToNumber s.

End StringToNumber.

(** ** EventView.tsx: time parsing *)

(** The pieces [time.split(":").map((p) => p.trim())]. *)
Definition time_parts (time : jsstring) : list jsstring :=
  map trim (split (ch ":") time).

(** The test of [parts.some(...)]: an empty or non-numeric piece. *)
Definition bad_part (p : jsstring) : bool :=
  is_empty p || isNaN (Number p).

Definition parseTimeToSeconds (time : jsstring) : option number :=
  if is_empty time then None
  else
    let parts := time_parts time in
    if existsb bad_part parts then None
    else
      let nums := map Number parts in
      match nums with
      | [s] => Some s
      | [m; s] => Some (m * 60 + s)%float
      | [h; m; s] => Some (h * 3600 + m * 60 + s)%float
      | _ => None
      end.

(** ** EventView.tsx: score functions *)

Inductive Sex := M | F | X.

(** 5k: neutral performance index (higher = better). *)
Definition runPerformanceIndex (seconds : option number) : option number :=
  match seconds with
  | Some s => if falsy seconds || (s <=? 0)%float then None else Some (780 / s)%float
  | None => None
  end.

Inductive SexDOTS := DOTS_M | DOTS_F.

Record Coefficients := { cA : number; cB : number; cC : number;
                         cD : number; cE : number; cF : number }.

Definition DOTS_COEFF (s : SexDOTS) : Coefficients :=
  match s with
  | DOTS_M => {| cA := 47.46178854; cB := 8.472061379; cC := 0.07369410346;
                 cD := -0.001395833811; cE := 0.00000707665973070743;
                 cF := -0.0000000120804336482315 |}
  | DOTS_F => {| cA := -125.4255398; cB := 13.71219419; cC := -0.03307250631;
                 cD := -0.001050400051; cE := 0.00000938773881462799;
                 cF := -0.000000023334613884954 |}
  end%float.

(** [x ** n] for the exponents 2 to 5 of the source. ECMAScript leaves
    the rounding of exponentiation to the implementation; it is taken
    here as the product of [n] factors, rounded at each multiplication,
    from which an engine that rounds the power once can differ in the
    last places (not where the powers are exact, as those of 80). *)
Fixpoint pow (x : number) (n : nat) : number :=
  match n with
  | O => 1%float
  | S k => (pow x k * x)%float
  end.

(** The denominator [A + B*x + C*x**2 + D*x**3 + E*x**4 + F*x**5]. *)
Definition dots_denominator (k : Coefficients) (x : number) : number :=
  (cA k + cB k * x + cC k * pow x 2 + cD k * pow x 3 + cE k * pow x 4
   + cF k * pow x 5)%float.

Definition dotsPoints (totalKg bodyweightKg : option number) (sex : Sex)
  : option number :=
  match totalKg, bodyweightKg with
  | Some total, Some x =>
      if falsy totalKg || falsy bodyweightKg || (x <=? 0)%float then None
      else
        let s := match sex with F => Some DOTS_F | M => Some DOTS_M | X => None end in
        match s with
        | None => None
        | Some s =>
            let denom := dots_denominator (DOTS_COEFF s) x in
            if negb (isFinite denom) || (denom =? 0)%float then None
            else Some (600 / denom * total)%float
        end
  | _, _ => None
  end.

(** ** EventView.tsx: rank-to-points allocation *)

Record ScoreRow := { row_id : jsstring; row_score : option number }.

(** [score === c] for a nullable score and a number [c]. *)
Definition score_is (s : option number) (c : number) : bool :=
  match s with
  | Some x => (x =? c)%float
  | None => false
  end.

(** The key [__proto__]. On an object created by [{}] it names the
    accessor that Object.prototype defines: the assignment
    [o["__proto__"] = v] runs its setter, which creates no property of
    [o]; it makes [v] the prototype of [o] when [v] is an object and does
    nothing when [v] is a number. *)
Definition PROTO : jsstring := js "__proto__".

(** [result[k] = v] for a number [v], on a [result] created by [{}]: the
    map holds the properties of [result] itself, which are what
    Object.entries lists. *)
Definition set_number (k : jsstring) (v : number)
  (result : gmap jsstring number) : gmap jsstring number :=
  if decide (k = PROTO) then result else <[k := v]> result.

Section Allocation.
Variable sortedScores : list ScoreRow.
Variable pointsTable : list number.

(** [while (j < sortedScores.length && sortedScores[j].score === c) j++] *)
Fixpoint scan_ties (fuel : nat) (c : number) (j : nat) : nat :=
  match fuel with
  | O => j
  | S fuel' =>
      match sortedScores !! j with
      | Some r => if score_is (row_score r) c then scan_ties fuel' c (S j) else j
      | None => j
      end
  end.

(** [for (let k = i; k < j; k++) sum += pointsTable[k] ?? 0] *)
Definition sum_points (i j : nat) : number :=
  fold_left (fun sum k => (sum + default 0 (pointsTable !! k))%float)
            (seq i (j - i)) 0%float.

(** [for (let k = i; k < j; k++) result[sortedScores[k].id] = v] *)
Definition assign (i j : nat) (v : number) (result : gmap jsstring number)
  : gmap jsstring number :=
  fold_left (fun res k =>
               match sortedScores !! k with
               | Some r => set_number (row_id r) v res
               | None => res
               end)
            (seq i (j - i)) result.

(** The outer [while (i < sortedScores.length)] loop; every round
    advances [i], so [length sortedScores] rounds are enough. *)
Fixpoint alloc_loop (fuel : nat) (i : nat) (result : gmap jsstring number)
  : gmap jsstring number :=
  match fuel with
  | O => result
  | S fuel' =>
      match sortedScores !! i with
      | None => result
      | Some current =>
          match row_score current with
          | None => assign i (length sortedScores) 0%float result
          | Some c =>
              let j := scan_ties (length sortedScores) c (i + 1) in
              let sum := sum_points i j in
              let perHead := (sum / of_nat (j - i))%float in
              alloc_loop fuel' j (assign i j perHead result)
          end
      end
  end.

Definition allocatePointsByRank : gmap jsstring number :=
  alloc_loop (length sortedScores) 0 ∅.

(** The same loops, listing the assignments [result[id] = v] they make,
    in the order they make them. *)
Definition writes (i j : nat) (v : number) : list (jsstring * number) :=
  omap (fun k => (fun r => (row_id r, v)) <$> sortedScores !! k) (seq i (j - i)).

Fixpoint alloc_writes (fuel : nat) (i : nat) : list (jsstring * number) :=
  match fuel with
  | O => []
  | S fuel' =>
      match sortedScores !! i with
      | None => []
      | Some current =>
          match row_score current with
          | None => writes i (length sortedScores) 0%float
          | Some c =>
              let j := scan_ties (length sortedScores) c (i + 1) in
              let sum := sum_points i j in
              let perHead := (sum / of_nat (j - i))%float in
              writes i j perHead ++ alloc_writes fuel' j
          end
      end
  end.

Definition awards : list (jsstring * number) :=
  alloc_writes (length sortedScores) 0.

End Allocation.

(** A list of assignments carried out on a result object. *)
Definition apply_writes (ws : list (jsstring * number))
  (result : gmap jsstring number) : gmap jsstring number :=
  fold_left (fun res w => set_number w.1 w.2 res) ws result.

Definition F1_POINTS : list number := [25; 18; 15; 12; 10; 8; 6; 4; 2; 1]%float.
Definition SIMPLE_POINTS : list number := [10; 7; 5; 3; 2; 1]%float.

(** types.ts *)
Inductive PointsPreset := F1 | Simple | Custom.

Record Athlete := {
  id : jsstring;
  name : jsstring;
  sex : Sex;
  age : option number;
  bodyweight : option number;
  squat : option number;
  bench : option number;
  deadlift : option number;
  runTime : jsstring
}.

Record State := {
  title : jsstring;
  pointsPreset : PointsPreset;
  pointsCustom : list number;
  athletes : list Athlete
}.

(** The [pointsTable] memo of EventView (and of the single-file App). *)
Definition pointsTable (state : State) : list number :=
  match pointsPreset state with
  | F1 => F1_POINTS
  | Simple => SIMPLE_POINTS
  | Custom =>
      if (length (pointsCustom state) =? 0)%nat then SIMPLE_POINTS
      else pointsCustom state
  end.

(** ** Text encodings of the platform *)

Section Encodings.
Local Open Scope Z_scope.

Definition is_high_surrogate (c : Z) : bool := (55296 <=? c) && (c <=? 56319).
Definition is_low_surrogate (c : Z) : bool := (56320 <=? c) && (c <=? 57343).

(** A Unicode scalar value: a code point that is not a surrogate. *)
Definition is_scalar (c : Z) : Prop :=
  0 <= c < 55296 \/ 57344 <= c < 1114112.

Definition REPLACEMENT : Z := 65533.

(** The scalar values of a string (the conversion to a USVString that
    TextEncoder applies): a surrogate pair is one code point, a lone
    surrogate is replaced by U+FFFD. *)
Fixpoint scalar_values (s : jsstring) : list Z :=
  match s with
  | [] => []
  | c :: r =>
      if is_high_surrogate c then
        match r with
        | d :: r' =>
            if is_low_surrogate d
            then (65536 + (c - 55296) * 1024 + (d - 56320)) :: scalar_values r'
            else REPLACEMENT :: scalar_values r
        | [] => [REPLACEMENT]
        end
      else if is_low_surrogate c then REPLACEMENT :: scalar_values r
      else c :: scalar_values r
  end.

(** The UTF-16 code units of a code point. *)
Definition utf16_units (c : Z) : jsstring :=
  if c <? 65536 then [c]
  else [55296 + (c - 65536) / 1024; 56320 + (c - 65536) mod 1024].

(** The UTF-8 bytes of a scalar value. *)
Definition utf8_bytes (c : Z) : list Z :=
  if c <? 128 then [c]
  else if c <? 2048 then [192 + c / 64; 128 + c mod 64]
  else if c <? 65536 then
    [224 + c / 4096; 128 + (c / 64) mod 64; 128 + c mod 64]
  else
    [240 + c / 262144; 128 + (c / 4096) mod 64; 128 + (c / 64) mod 64;
     128 + c mod 64].

(** [new TextEncoder().encode(s)] *)
Definition TextEncoder_encode (s : jsstring) : list Z :=
  flat_map utf8_bytes (scalar_values s).

(** The state of the UTF-8 decoder of the Encoding standard. *)
Record utf8_decoder := {
  code_point : Z;
  bytes_seen : Z;
  bytes_needed : Z;
  lower_boundary : Z;
  upper_boundary : Z
}.

Definition utf8_decoder_init : utf8_decoder :=
  {| code_point := 0; bytes_seen := 0; bytes_needed := 0;
     lower_boundary := 128; upper_boundary := 191 |}.

(** A byte read with no sequence under way. What the decoder emits is a
    code point or an error ([None]). *)
Definition utf8_lead (b : Z) : utf8_decoder * list (option Z) :=
  if b <=? 127 then (utf8_decoder_init, [Some b])
  else if (194 <=? b) && (b <=? 223) then
    ({| code_point := b mod 32; bytes_seen := 0; bytes_needed := 1;
        lower_boundary := 128; upper_boundary := 191 |}, [])
  else if (224 <=? b) && (b <=? 239) then
    ({| code_point := b mod 16; bytes_seen := 0; bytes_needed := 2;
        lower_boundary := if b =? 224 then 160 else 128;
        upper_boundary := if b =? 237 then 159 else 191 |}, [])
  else if (240 <=? b) && (b <=? 244) then
    ({| code_point := b mod 8; bytes_seen := 0; bytes_needed := 3;
        lower_boundary := if b =? 240 then 144 else 128;
        upper_boundary := if b =? 244 then 143 else 191 |}, [])
  else (utf8_decoder_init, [None]).

(** One byte through the decoder: the next state and what is emitted. A
    byte that cannot continue the sequence under way ends it with an
    error and is then read afresh. *)
Definition utf8_step (st : utf8_decoder) (b : Z)
  : utf8_decoder * list (option Z) :=
  if bytes_needed st =? 0 then utf8_lead b
  else if (b <? lower_boundary st) || (upper_boundary st <? b) then
    let '(st', out) := utf8_lead b in (st', None :: out)
  else
    let cp := code_point st * 64 + b mod 64 in
    if bytes_seen st + 1 =? bytes_needed st then (utf8_decoder_init, [Some cp])
    else ({| code_point := cp; bytes_seen := bytes_seen st + 1;
             bytes_needed := bytes_needed st;
             lower_boundary := 128; upper_boundary := 191 |}, []).

Fixpoint utf8_run (st : utf8_decoder) (bytes : list Z) : list (option Z) :=
  match bytes with
  | [] => if bytes_needed st =? 0 then [] else [None]
  | b :: r => let '(st', out) := utf8_step st b in out ++ utf8_run st' r
  end.

(** [new TextDecoder().decode(bytes)]: UTF-8, replacement on error, a
    leading byte order mark dropped. *)
Definition TextDecoder_decode (bytes : list Z) : jsstring :=
  let cps := map (default REPLACEMENT) (utf8_run utf8_decoder_init bytes) in
  let cps := match cps with
             | c :: r => if c =? 65279 then r else cps
             | [] => []
             end in
  flat_map utf16_units cps.

(** *** Base64 (btoa and atob) *)

Definition b64_char (i : Z) : Z :=
  if i <? 26 then 65 + i
  else if i <? 52 then 97 + (i - 26)
  else if i <? 62 then 48 + (i - 52)
  else if i =? 62 then 43
  else 47.

Definition b64_index (c : Z) : option Z :=
  if (65 <=? c) && (c <=? 90) then Some (c - 65)
  else if (97 <=? c) && (c <=? 122) then Some (c - 97 + 26)
  else if (48 <=? c) && (c <=? 57) then Some (c - 48 + 52)
  else if c =? 43 then Some 62
  else if c =? 47 then Some 63
  else None.

(** The 6-bit groups of a byte sequence; the last group is filled with
    zero bits. *)
Fixpoint sextets (bytes : list Z) : list Z :=
  match bytes with
  | a :: b :: c :: r =>
      a / 4 :: (a mod 4) * 16 + b / 16 :: (b mod 16) * 4 + c / 64 :: c mod 64
      :: sextets r
  | [a; b] => [a / 4; (a mod 4) * 16 + b / 16; (b mod 16) * 4]
  | [a] => [a / 4; (a mod 4) * 16]
  | [] => []
  end.

Definition b64_padding (n : nat) : jsstring :=
  match (n mod 3)%nat with
  | 1%nat => [61; 61]
  | 2%nat => [61]
  | _ => []
  end.

(** [btoa(s)]: InvalidCharacterError ([None]) when a code unit is above
    0xFF, else the Base64 text of the bytes. *)
Definition btoa (s : jsstring) : option jsstring :=
  if forallb (fun c => (0 <=? c) && (c <=? 255)) s
  then Some (map b64_char (sextets s) ++ b64_padding (length s))
  else None.

Definition is_ascii_whitespace (c : Z) : bool :=
  (c =? 9) || (c =? 10) || (c =? 12) || (c =? 13) || (c =? 32).

(** One or two [=] at the end are removed. *)
Definition strip_padding (s : jsstring) : jsstring :=
  match rev s with
  | 61 :: 61 :: r => rev r
  | 61 :: r => rev r
  | _ => s
  end.

(** The bytes of a sequence of 6-bit groups; the bits left over at the
    end are dropped. *)
Fixpoint unsextets (l : list Z) : list Z :=
  match l with
  | a :: b :: c :: d :: r =>
      let n := ((a * 64 + b) * 64 + c) * 64 + d in
      n / 65536 :: (n / 256) mod 256 :: n mod 256 :: unsextets r
  | [a; b; c] => let n := (a * 64 + b) * 64 + c in [n / 1024; (n / 4) mod 256]
  | [a; b] => [(a * 64 + b) / 16]
  | _ => []
  end.

(** [atob(s)], the forgiving Base64 decoding of HTML: ASCII white space is
    ignored, padding is optional, and anything else outside the alphabet,
    or a length of 1 modulo 4, is an InvalidCharacterError ([None]). *)
Definition atob (s : jsstring) : option jsstring :=
  let data := filter (fun c => is_ascii_whitespace c = false) s in
  let data := if (length data mod 4 =? 0)%nat then strip_padding data else data in
  if (length data mod 4 =? 1)%nat then None
  else unsextets <$> mapM b64_index data.

(** *** decodeURIComponent *)

(** [%XY] at the head of a string: the byte and the rest. *)
Definition percent_byte (s : jsstring) : option (Z * jsstring) :=
  match s with
  | p :: h :: l :: rest =>
      if p =? 37 then
        match digit_in_base 16 h, digit_in_base 16 l with
        | Some x, Some y => Some (16 * x + y, rest)
        | _, _ => None
        end
      else None
  | _ => None
  end.

(** [n] continuation escapes [%XY], each a byte 10xxxxxx. *)
Fixpoint continuation_bytes (n : nat) (s : jsstring) : option (list Z * jsstring) :=
  match n with
  | O => Some ([], s)
  | S n' =>
      match percent_byte s with
      | Some (b, rest) =>
          if (128 <=? b) && (b <=? 191) then
            match continuation_bytes n' rest with
            | Some (bs, rest') => Some (b :: bs, rest')
            | None => None
            end
          else None
      | None => None
      end
  end.

(** The code point of a complete UTF-8 sequence, if it is a valid one. *)
Definition utf8_code_point (bytes : list Z) : option Z :=
  match utf8_run utf8_decoder_init bytes with
  | [Some c] => Some c
  | _ => None
  end.

(** [decodeURIComponent(s)]; a URIError is [None]. *)
Fixpoint decodeURIComponent_from (fuel : nat) (s : jsstring) : option jsstring :=
  match fuel with
  | O => match s with [] => Some [] | _ => None end
  | S fuel' =>
      match s with
      | [] => Some []
      | c :: r =>
          if c =? 37 then
            match percent_byte s with
            | None => None
            | Some (b, rest) =>
                if b <? 128 then cons b <$> decodeURIComponent_from fuel' rest
                else
                  let n := if (192 <=? b) && (b <=? 223) then 1%nat
                           else if (224 <=? b) && (b <=? 239) then 2%nat
                           else if (240 <=? b) && (b <=? 247) then 3%nat
                           else 0%nat in
                  if (n =? 0)%nat then None
                  else
                    match continuation_bytes n rest with
                    | None => None
                    | Some (bs, rest') =>
                        match utf8_code_point (b :: bs) with
                        | None => None
                        | Some v =>
                            app (utf16_units v)
                              <$> decodeURIComponent_from fuel' rest'
                        end
                    end
            end
          else cons c <$> decodeURIComponent_from fuel' r
      end
  end.

Definition decodeURIComponent (s : jsstring) : option jsstring :=
  decodeURIComponent_from (length s) s.

End Encodings.

(** *** encodeURIComponent *)

Section EncodeURI.
Local Open Scope Z_scope.

(** The characters encodeURIComponent leaves as they are: letters,
    digits and [-_.!~*'()]. *)
Definition is_uri_unreserved (c : Z) : bool :=
  (65 <=? c) && (c <=? 90) || (97 <=? c) && (c <=? 122)
  || (48 <=? c) && (c <=? 57)
  || (c =? 45) || (c =? 95) || (c =? 46) || (c =? 33) || (c =? 126)
  || (c =? 42) || (c =? 39) || (c =? 40) || (c =? 41).

Definition hex_digit (n : Z) : Z := if n <? 10 then 48 + n else 55 + n.

(** [%XY] for a byte, in upper case. *)
Definition percent_encode (b : Z) : jsstring :=
  [37; hex_digit (b / 16); hex_digit (b mod 16)].

(** [encodeURIComponent(s)]; a URIError ([None]) at a lone surrogate. *)
Fixpoint encodeURIComponent (s : jsstring) : option jsstring :=
  match s with
  | [] => Some []
  | c :: r =>
      if is_uri_unreserved c then cons c <$> encodeURIComponent r
      else if is_high_surrogate c then
        match r with
        | d :: r' =>
            if is_low_surrogate d then
              app (flat_map percent_encode
                     (utf8_bytes (65536 + (c - 55296) * 1024 + (d - 56320))))
                <$> encodeURIComponent r'
            else None
        | [] => None
        end
      else if is_low_surrogate c then None
      else app (flat_map percent_encode (utf8_bytes c)) <$> encodeURIComponent r
  end.

End EncodeURI.

(** ** eventKey.ts *)

(** JSON.stringify and JSON.parse at a type of values. [JSON_parse] is
    [None] when the text is not the JSON of a value of the type; that
    covers the SyntaxError the callers catch and the [null] their tests
    reject. *)
Class JSON (A : Type) := {
  JSON_stringify : A -> jsstring;
  JSON_parse : jsstring -> option A
}.

Definition EID := jsstring.

(** Base64 of the UTF-8 bytes of the JSON text of the payload. *)
Definition makeEventKey {P} `{JSON P} (payload : P) : option jsstring :=
  let enc := TextEncoder_encode (JSON_stringify payload) in
  let bin := fold_left (fun bin b => bin ++ [b]) enc [] in
  btoa bin.

(** The reverse: [atob] of the trimmed key, its characters as bytes, the
    bytes decoded as UTF-8 and parsed as JSON; null when any step throws. *)
Definition readEventKey {T} `{JSON T} (key : jsstring) : option T :=
  match atob (trim key) with
  | Some bin =>
      let bytes := map (fun c => c mod 256)%Z bin in
      let json := TextDecoder_decode bytes in
      JSON_parse json
  | None => None
  end.

(** The longest prefix without [&]. *)
Fixpoint until_amp (s : jsstring) : jsstring :=
  match s with
  | c :: r => if (c =? 38)%Z then [] else c :: until_amp r
  | [] => []
  end.

(** The capture of the leftmost match of [/[#&]k=([^&]+)/]. *)
Fixpoint match_k_param (text : jsstring) : option jsstring :=
  match text with
  | [] => None
  | c :: r =>
      if ((c =? 35) || (c =? 38))%Z then
        match r with
        | k :: e :: v :: rest =>
            if ((k =? 107) && (e =? 61) && negb (v =? 38))%Z
            then Some (v :: until_amp rest)
            else match_k_param r
        | _ => match_k_param r
        end
      else match_k_param r
  end.

(** [None]: no match; [Some None]: the match is not a valid escape
    sequence (a URIError). *)
Definition k_param_key (text : jsstring) : option (option jsstring) :=
  decodeURIComponent <$> match_k_param text.

Definition extractKeyFromUrl (text : jsstring) : option jsstring :=
  match k_param_key text with
  | Some (Some key) => Some key
  | _ => None
  end.

(** The older single-file App: the event id of [#event=<id>]. *)

Definition is_id_char (c : Z) : bool :=
  ((65 <=? c) && (c <=? 90) || (97 <=? c) && (c <=? 122)
   || (48 <=? c) && (c <=? 57) || (c =? 45))%Z.

(** The longest prefix of [A-Za-z0-9-]. *)
Fixpoint id_chars (s : jsstring) : jsstring :=
  match s with
  | c :: r => if is_id_char c then c :: id_chars r else []
  | [] => []
  end.

(** [s] starts with [p]: what follows. *)
Fixpoint after_prefix (p s : jsstring) : option jsstring :=
  match p, s with
  | [], _ => Some s
  | a :: p', b :: s' => if (a =? b)%Z then after_prefix p' s' else None
  | _ :: _, [] => None
  end.

(** The capture of the leftmost match of [/event=([A-Za-z0-9-]+)/]. *)
Fixpoint match_event_param (h : jsstring) : option jsstring :=
  match h with
  | [] => None
  | c :: r =>
      match after_prefix (js "event=") h with
      | Some (v :: rest) =>
          if is_id_char v then Some (v :: id_chars rest) else match_event_param r
      | _ => match_event_param r
      end
  end.

(** [initialEventId]: the id in the fragment, else a new UUID. *)
Definition initialEventId (hash : jsstring) (randomUUID : EID) : EID :=
  let h := match hash with
           | 35%Z :: r => r
           | _ => hash
           end in
  match match_event_param h with
  | Some id => id
  | None => randomUUID
  end.

(** ** storage.ts *)

Record EventMeta := {
  meta_eid : EID;
  meta_title : jsstring;
  createdAt : number;
  updatedAt : number
}.

Definition KEY_INDEX : jsstring := js "liftwin:index".
Definition KEY_EVENT_PREFIX : jsstring := js "liftwin:event:".

Definition eventKey (eid : EID) : jsstring := KEY_EVENT_PREFIX ++ eid.

(** localStorage: a map from keys to texts. The [try]/[catch] around
    each access guards against a storage that refuses the call; the
    storage modelled here accepts every call. *)
Abbreviation Storage := (gmap jsstring jsstring).

Section Store.
Context `{JSON State} `{JSON (list EventMeta)}.

Definition loadIndex (ls : Storage) : list EventMeta :=
  match ls !! KEY_INDEX with
  | Some s => if is_empty s then [] else default [] (JSON_parse s)
  | None => []
  end.

Definition saveIndex (list : list EventMeta) (ls : Storage) : Storage :=
  <[KEY_INDEX := JSON_stringify list]> ls.

Definition loadEvent (eid : EID) (ls : Storage) : option State :=
  match ls !! eventKey eid with
  | Some s => if is_empty s then None else JSON_parse s
  | None => None
  end.

Definition saveEvent (eid : EID) (state : State) (ls : Storage) : Storage :=
  <[eventKey eid := JSON_stringify state]> ls.

Definition deleteEvent (eid : EID) (ls : Storage) : Storage :=
  delete (eventKey eid) ls.

(** ** App.tsx *)

(** What [addOrForkEvent] reads and writes: localStorage, the [index] of
    the component (the value the function sees, then the value it sets),
    and how many identifiers crypto.randomUUID has handed out. *)
Record World := {
  storage : Storage;
  index : list EventMeta;
  drawn : nat
}.

(** The identifiers crypto.randomUUID returns, in order, and the time
    Date.now returns. *)
Variable randomUUID : nat -> EID.
Variable now : number.

Definition newEid (w : World) : EID * World :=
  (randomUUID (drawn w),
   {| storage := storage w; index := index w; drawn := S (drawn w) |}).

(** [saveEvent(eid, state)] followed by the new index entry at the head:
    [setIndex(next); saveIndex(next)]. *)
Definition store_new_event (eid : EID) (state : State) (w : World) : World :=
  let ls := saveEvent eid state (storage w) in
  let meta := {| meta_eid := eid; meta_title := title state;
                 createdAt := now; updatedAt := now |} in
  let next := meta :: index w in
  {| storage := saveIndex next ls; index := next; drawn := drawn w |}.

Definition addOrForkEvent (payload_eid : option EID) (incomingState : State)
  (w : World) : (EID * State) * World :=
  let '(incomingEid, w) :=
    match payload_eid with
    | Some eid => (eid, w)
    | None => newEid w
    end in
  match loadEvent incomingEid (storage w) with
  | None =>
      ((incomingEid, incomingState), store_new_event incomingEid incomingState w)
  | Some existing =>
      if decide (JSON_stringify existing = JSON_stringify incomingState)
      then ((incomingEid, existing), w)
      else
        let '(eid, w) := newEid w in
        ((eid, incomingState), store_new_event eid incomingState w)
  end.

End Store.

(** *** The same functions on what JSON.parse returns

    The types of TypeScript are erased when the program runs:
    [loadEvent], [saveEvent] and [addOrForkEvent] handle whatever object
    JSON.parse returned for a snapshot, and read nothing of it but its
    [title]. Here they are for snapshots of any type [T] of objects
    (values for which the tests [!existing] and [s ? ... : null] fail)
    that has a JSON codec; at [T := State] they are the functions
    above. *)
Module Untyped.
Section Store.
Context {T : Type} `{JSON T} `{JSON (list EventMeta)}.

(** [state.title] *)
Variable title_of : T -> jsstring.
Variable randomUUID : nat -> EID.
Variable now : number.

Definition loadEvent (eid : EID) (ls : Storage) : option T :=
  match ls !! eventKey eid with
  | Some s => if is_empty s then None else JSON_parse s
  | None => None
  end.

Definition saveEvent (eid : EID) (state : T) (ls : Storage) : Storage :=
  <[eventKey eid := JSON_stringify state]> ls.

Definition store_new_event (eid : EID) (state : T) (w : World) : World :=
  let ls := saveEvent eid state (storage w) in
  let meta := {| meta_eid := eid; meta_title := title_of state;
                 createdAt := now; updatedAt := now |} in
  let next := meta :: index w in
  {| storage := saveIndex next ls; index := next; drawn := drawn w |}.

Definition addOrForkEvent (payload_eid : option EID) (incomingState : T)
  (w : World) : (EID * T) * World :=
  let '(incomingEid, w) :=
    match payload_eid with
    | Some eid => (eid, w)
    | None => newEid randomUUID w
    end in
  match loadEvent incomingEid (storage w) with
  | None =>
      ((incomingEid, incomingState), store_new_event incomingEid incomingState w)
  | Some existing =>
      if decide (JSON_stringify existing = JSON_stringify incomingState)
      then ((incomingEid, existing), w)
      else
        let '(eid, w) := newEid randomUUID w in
        ((eid, incomingState), store_new_event eid incomingState w)
  end.

End Store.
End Untyped.

(** The payload of a share link. *)
Record Payload := { payload_eid : option EID; payload_state : option State }.

Inductive Mode := manager | event.

(** The component: what its functions read and write besides the
    [World]. *)
Record App := {
  world : World;
  currentEid : option EID;
  currentState : option State;
  mode : Mode;
  location_hash : jsstring
}.

Definition set_world (w : World) (a : App) : App :=
  {| world := w; currentEid := currentEid a; currentState := currentState a;
     mode := mode a; location_hash := location_hash a |}.

Definition set_location_hash (h : jsstring) (a : App) : App :=
  {| world := world a; currentEid := currentEid a;
     currentState := currentState a; mode := mode a; location_hash := h |}.

Definition KEY_LAST_OPEN : jsstring := js "liftwin:lastOpen".

Definition setLastOpen (eid : option EID) (ls : Storage) : Storage :=
  match eid with
  | Some e => if is_empty e then delete KEY_LAST_OPEN ls
              else <[KEY_LAST_OPEN := e]> ls
  | None => delete KEY_LAST_OPEN ls
  end.

(** [{ ...defaultState, athletes: [] }] *)
Definition defaultState_no_athletes : State :=
  {| title := js "Monthly Meet"; pointsPreset := F1;
     pointsCustom := [10; 7; 5; 3; 2; 1]%float; athletes := [] |}.

Section AppBoot.
Context `{JSON State} `{JSON (list EventMeta)} `{JSON Payload}.
Variable randomUUID : nat -> EID.
Variable now : number.

Definition openEvent (eid : EID) (a : App) : App :=
  let st := default defaultState_no_athletes (loadEvent eid (storage (world a))) in
  {| world := {| storage := setLastOpen (Some eid) (storage (world a));
                 index := index (world a); drawn := drawn (world a) |};
     currentEid := Some eid;
     currentState := Some st;
     mode := event;
     location_hash := location_hash a |}.

(** The fragment of the link [copyShareLink] builds,
    [#k=] and the escaped key; [None] when the event cannot be loaded
    (or the key cannot be made). *)
Definition copyShareLink (eid : EID) (ls : Storage) : option jsstring :=
  match loadEvent eid ls with
  | None => None
  | Some st =>
      match makeEventKey {| payload_eid := Some eid; payload_state := Some st |} with
      | Some key =>
          match encodeURIComponent key with
          | Some escaped => Some (js "#k=" ++ escaped)
          | None => None
          end
      | None => None
      end
  end.

(** [importFromHash]: whether an event was imported, and the component
    afterwards (the fragment is removed from the address and the event
    is opened); [None] when decodeURIComponent throws (nothing catches
    it here). *)
Definition importFromHash (a : App) : option (bool * App) :=
  match match_k_param (location_hash a) with
  | None => Some (false, a)
  | Some m1 =>
      match decodeURIComponent m1 with
      | None => None
      | Some key =>
          match readEventKey key with
          | Some payload =>
              match payload_state payload with
              | Some st =>
                  let '((eid, _), w) :=
                    addOrForkEvent randomUUID now (payload_eid payload) st (world a) in
                  Some (true, openEvent eid (set_location_hash [] (set_world w a)))
              | None => Some (false, a)
              end
          | None => Some (false, a)
          end
      end
  end.

End AppBoot.

(** ** EventView.tsx: the rows of the component *)

(** [total] of the [totals] memo: missing lifts count as 0. *)
Definition athlete_total (a : Athlete) : number :=
  (default 0 (squat a) + default 0 (bench a) + default 0 (deadlift a))%float.

(** The scores of the [plScores] and [runScores] rows, before sorting. *)
Definition plScore (a : Athlete) : option number :=
  dotsPoints (Some (athlete_total a)) (bodyweight a) (sex a).

Definition runScore (a : Athlete) : option number :=
  runPerformanceIndex (parseTimeToSeconds (runTime a)).

(** The points table shown for a roster of [n]. *)

Definition activePointsTable (table : list number) (n : nat) : list number :=
  if (n <=? length table)%nat then take n table
  else table ++ replicate (Nat.max 0 (n - length table)) 0%float.

(** ** EventView.tsx: the inputs *)

(** [toNumber(n)] on the text of an input; [None] is null (or
    undefined). *)
Definition toNumber (n : option jsstring) : option number :=
  match n with
  | None => None
  | Some s =>
      if is_empty s then None
      else let v := Number s in if isNaN v then None else Some v
  end.

(** The single-file App, the field of the custom points:
    [e.target.value.split(",").map((s) => toNumber(s.trim()) ?? 0)]. *)
Definition customPoints (value : jsstring) : list number :=
  map (fun s => default 0%float (toNumber (Some (trim s)))) (split (ch ",") value).

(** ** Array.prototype.sort

    [sort(comparefn)] is a stable sort: for a consistent comparator (one
    that orders the elements and never returns NaN, as the differences
    the source takes do on finite numbers) the standard fixes the
    result, which is computed here by insertion from the right. For
    another comparator the standard leaves the order to the
    implementation: of the result computed here only what holds of
    every permutation of the elements is then to be relied on. *)
Section ArraySort.
Context {A : Type}.
Variable comparefn : A -> A -> number.

(** [comparefn(x, y) > 0]: [x] is to come after [y]. *)
Definition sorts_after (x y : A) : bool := (0 <? comparefn x y)%float.

Fixpoint sort_insert (x : A) (l : list A) : list A :=
  match l with
  | [] => [x]
  | y :: r => if sorts_after x y then y :: sort_insert x r else x :: l
  end.

Definition sort (l : list A) : list A := foldr sort_insert [] l.

End ArraySort.

(** ** EventView.tsx: the two rankings *)

(** A row of a ranking: [{ id, name, score }]. *)
Record RankRow := {
  rank_id : jsstring;
  rank_name : jsstring;
  rank_score : option number
}.

(** A row as [allocatePointsByRank] reads it. *)
Definition score_row (r : RankRow) : ScoreRow :=
  {| row_id := rank_id r; row_score := rank_score r |}.

(** The comparator of [rows.sort]: unscored rows last, the higher score
    first. *)
Definition compare_rows (a b : RankRow) : number :=
  match rank_score a, rank_score b with
  | None, None => 0
  | None, Some _ => 1
  | Some _, None => -1
  | Some x, Some y => y - x
  end%float.

(** [{ id: t.id, name: t.name, score }] *)
Definition rank_row (score : Athlete -> option number) (t : Athlete)
  : RankRow :=
  {| rank_id := id t; rank_name := name t; rank_score := score t |}.

(** [totals.map(...)], then [rows.sort(...)]. *)
Definition rank_rows (score : Athlete -> option number)
  (roster : list Athlete) : list RankRow :=
  sort compare_rows (map (rank_row score) roster).

(** [{ rows, points }]; [points] with the properties it holds itself. *)
Record Ranking := {
  ranking_rows : list RankRow;
  ranking_points : gmap jsstring number
}.

Definition ranking (score : Athlete -> option number) (state : State)
  : Ranking :=
  let rows := rank_rows score (athletes state) in
  {| ranking_rows := rows;
     ranking_points :=
       allocatePointsByRank (map score_row rows) (pointsTable state) |}.

(** The [plScores] and [runScores] memos. *)
Definition plScores (state : State) : Ranking := ranking plScore state.
Definition runScores (state : State) : Ranking := ranking runScore state.

(** ** Objects and the order of their keys

    The properties an object holds itself, as the list of its entries in
    the order the keys were created. Object.entries lists the keys that
    are array indices first, in ascending order, then the others in the
    order of their creation. *)
Abbreviation object V := (list (jsstring * V)).

(** [o[k] = v] for a key other than [__proto__] *)
Fixpoint obj_set {V} (k : jsstring) (v : V) (o : object V) : object V :=
  match o with
  | [] => [(k, v)]
  | e :: r => if decide (e.1 = k) then (k, v) :: r else e :: obj_set k v r
  end.

(** The entry [o] holds itself for [k] *)
Fixpoint obj_get {V} (k : jsstring) (o : object V) : option V :=
  match o with
  | [] => None
  | e :: r => if decide (e.1 = k) then Some e.2 else obj_get k r
  end.

(** An update in place of the value [o[k]]; a TypeError ([None]) if
    [o] has no entry for [k]. *)
Definition obj_modify {V} (k : jsstring) (f : V -> V) (o : object V)
  : option (object V) :=
  match obj_get k o with
  | Some v => Some (obj_set k (f v) o)
  | None => None
  end.

(** An array index: the canonical decimal text of an integer from 0 to
    2^32 - 2. *)
Definition array_index (k : jsstring) : option Z :=
  match k with
  | [] => None
  | c :: r =>
      if forallb is_digit k && (negb (c =? 48)%Z || is_empty r)
      then let v := digits_value k in
           if (v <? 4294967295)%Z then Some v else None
      else None
  end.

(** The entries whose keys are array indices, in ascending order. *)
Fixpoint insert_indexed {V} (n : Z) (e : jsstring * V)
  (l : list (Z * (jsstring * V))) : list (Z * (jsstring * V)) :=
  match l with
  | [] => [(n, e)]
  | y :: r => if (n <=? y.1)%Z then (n, e) :: l else y :: insert_indexed n e r
  end.

Fixpoint indexed_entries {V} (o : object V) : list (Z * (jsstring * V)) :=
  match o with
  | [] => []
  | e :: r =>
      match array_index e.1 with
      | Some n => insert_indexed n e (indexed_entries r)
      | None => indexed_entries r
      end
  end.

Definition Object_entries {V} (o : object V) : list (jsstring * V) :=
  (indexed_entries o).*2 ++ filter (fun e => array_index e.1 = None) o.

(** ** EventView.tsx: the leaderboard *)

(** An entry of [map]: [{ name, totalPoints, breakdown: { pl, run } }]. *)
Record Standing := {
  standing_name : jsstring;
  totalPoints : number;
  breakdown_pl : number;
  breakdown_run : number
}.

(** The [map] of the leaderboard, created by [{}]: the entries it holds
    itself, and the entry that an assignment [map["__proto__"] = ...]
    has made its prototype, if there was one. *)
Record StandingMap := {
  map_entries : object Standing;
  map_proto : option Standing
}.

(** [map[k] = v] *)
Definition map_set (k : jsstring) (v : Standing) (m : StandingMap)
  : StandingMap :=
  if decide (k = PROTO)
  then {| map_entries := map_entries m; map_proto := Some v |}
  else {| map_entries := obj_set k v (map_entries m);
          map_proto := map_proto m |}.

(** An update in place of what [map[k]] reads: the entry the map holds
    for [k]; for the key [__proto__], the prototype set before. Anything
    else the lookup finds up the prototype chain has no [breakdown], and
    the update is a TypeError ([None]). *)
Definition map_modify (k : jsstring) (f : Standing -> Standing)
  (m : StandingMap) : option StandingMap :=
  match obj_get k (map_entries m) with
  | Some v =>
      Some {| map_entries := obj_set k (f v) (map_entries m);
              map_proto := map_proto m |}
  | None =>
      if decide (k = PROTO) then
        match map_proto m with
        | Some p => Some {| map_entries := map_entries m;
                            map_proto := Some (f p) |}
        | None => None
        end
      else None
  end.

(** [map[id].breakdown.pl += pts; map[id].totalPoints += pts] for an
    entry [[id, pts]], and the like for [run]. *)
Definition add_pl (m : option StandingMap) (e : jsstring * number)
  : option StandingMap :=
  m ≫= map_modify e.1
        (fun v => {| standing_name := standing_name v;
                     totalPoints := (totalPoints v + e.2)%float;
                     breakdown_pl := (breakdown_pl v + e.2)%float;
                     breakdown_run := breakdown_run v |}).

Definition add_run (m : option StandingMap) (e : jsstring * number)
  : option StandingMap :=
  m ≫= map_modify e.1
        (fun v => {| standing_name := standing_name v;
                     totalPoints := (totalPoints v + e.2)%float;
                     breakdown_pl := breakdown_pl v;
                     breakdown_run := (breakdown_run v + e.2)%float |}).

(** [{ name: a.name, totalPoints: 0, breakdown: { pl: 0, run: 0 } }] *)
Definition new_standing (a : Athlete) : Standing :=
  {| standing_name := name a; totalPoints := 0; breakdown_pl := 0;
     breakdown_run := 0 |}.

(** The [map] of the [leaderboard] memo once the points of both
    rankings are added. Each entry of a points object touches the entry
    of its own id only, so the order in which the entries of the points
    objects are visited does not show in the result. *)
Definition leaderboard_map (state : State) : option StandingMap :=
  let map0 :=
    foldl (fun m a => map_set (id a) (new_standing a) m)
          {| map_entries := []; map_proto := None |} (athletes state) in
  let map1 := foldl add_pl (Some map0)
                    (map_to_list (ranking_points (plScores state))) in
  foldl add_run map1 (map_to_list (ranking_points (runScores state))).

(** The rows of the leaderboard, [{ id, ...v }] as a pair for each entry
    of [Object.entries(map)], the higher total first. *)
Definition leaderboard (state : State) : option (list (jsstring * Standing)) :=
  sort (fun a b => (totalPoints b.2 - totalPoints a.2)%float)
  <$> (Object_entries <$> (map_entries <$> leaderboard_map state)).

(** ** EventView.tsx: editing the roster *)

(** A [Partial<Athlete>]: the fields that are given. *)
Record AthletePatch := {
  patch_id : option jsstring;
  patch_name : option jsstring;
  patch_sex : option Sex;
  patch_age : option (option number);
  patch_bodyweight : option (option number);
  patch_squat : option (option number);
  patch_bench : option (option number);
  patch_deadlift : option (option number);
  patch_runTime : option jsstring
}.

(** [{ ...a, ...patch }] *)
Definition patched (a : Athlete) (patch : AthletePatch) : Athlete :=
  {| id := default (id a) (patch_id patch);
     name := default (name a) (patch_name patch);
     sex := default (sex a) (patch_sex patch);
     age := default (age a) (patch_age patch);
     bodyweight := default (bodyweight a) (patch_bodyweight patch);
     squat := default (squat a) (patch_squat patch);
     bench := default (bench a) (patch_bench patch);
     deadlift := default (deadlift a) (patch_deadlift patch);
     runTime := default (runTime a) (patch_runTime patch) |}.

Definition set_athletes (l : list Athlete) (s : State) : State :=
  {| title := title s; pointsPreset := pointsPreset s;
     pointsCustom := pointsCustom s; athletes := l |}.

Definition updateAthlete (i : jsstring) (patch : AthletePatch) (s : State)
  : State :=
  set_athletes
    (map (fun a => if decide (id a = i) then patched a patch else a)
         (athletes s)) s.

(** [uid] is the identifier [uid()] returns. *)
Definition addAthlete (uid : jsstring) (s : State) : State :=
  set_athletes
    (athletes s ++
     [ {| id := uid; name := js "New Athlete"; sex := M; age := None;
          bodyweight := None; squat := None; bench := None;
          deadlift := None; runTime := [] |} ]) s.

Definition removeAthlete (i : jsstring) (s : State) : State :=
  set_athletes (filter (fun a => id a <> i) (athletes s)) s.

(** [confirmed] is the answer to the [confirm] dialog. *)
Definition clearNumbers (confirmed : bool) (s : State) : State :=
  if confirmed then
    set_athletes
      (map (fun a => {| id := id a; name := name a; sex := sex a;
                        age := age a; bodyweight := bodyweight a;
                        squat := None; bench := None; deadlift := None;
                        runTime := [] |}) (athletes s)) s
  else s.

(** ** storage.ts: the last open event and the theme *)

Definition KEY_THEME : jsstring := js "liftwin:theme".

Definition getLastOpen (ls : Storage) : option EID := ls !! KEY_LAST_OPEN.

(** [prefers_dark] is what
    [window.matchMedia?.("(prefers-color-scheme: dark)").matches] gives. *)
Definition getTheme (prefers_dark : bool) (ls : Storage) : jsstring :=
  let os := if prefers_dark then js "dark" else js "light" in
  match ls !! KEY_THEME with
  | Some saved => if is_empty saved then os else saved
  | None => os
  end.

Definition setTheme (theme : jsstring) (ls : Storage) : Storage :=
  <[KEY_THEME := theme]> ls.

(** ** App.tsx: the actions of the manager, autosave and boot *)

Definition set_mode (m : Mode) (a : App) : App :=
  {| world := world a; currentEid := currentEid a;
     currentState := currentState a; mode := m;
     location_hash := location_hash a |}.

(** The component when it is mounted ([useState] initial values), on a
    given storage and address; [used] identifiers have been drawn. *)
Definition initial_app (ls : Storage) (used : nat) (hash : jsstring) : App :=
  {| world := {| storage := ls; index := []; drawn := used |};
     currentEid := None; currentState := None; mode := manager;
     location_hash := hash |}.

Section AppActions.
Context `{JSON State} `{JSON (list EventMeta)} `{JSON Payload}.
Variable randomUUID : nat -> EID.
Variable now : number.

(** [{ ...defaultState, title: title?.trim() || "Monthly Meet",
    athletes: [] }] *)
Definition new_event_state (title : option jsstring) : State :=
  {| title := match title with
              | Some t => if is_empty (trim t) then js "Monthly Meet" else trim t
              | None => js "Monthly Meet"
              end;
     pointsPreset := F1;
     pointsCustom := [10; 7; 5; 3; 2; 1]%float;
     athletes := [] |}.

Definition createEvent (title : option jsstring) (a : App) : App :=
  let '(eid, w) := newEid randomUUID (world a) in
  let state := new_event_state title in
  openEvent eid (set_world (store_new_event now eid state w) a).

(** [deleteEvent] of the component ([rmEvent] is the [deleteEvent] of
    storage.ts); [confirmed] is the answer to the [confirm] dialog. *)
Definition App_deleteEvent (confirmed : bool) (eid : EID) (a : App) : App :=
  let w := world a in
  match list_find (fun m => meta_eid m = eid) (index w) with
  | None => a
  | Some _ =>
      if confirmed then
        let next := filter (fun m => meta_eid m <> eid) (index w) in
        let ls := saveIndex next (deleteEvent eid (storage w)) in
        if decide (currentEid a = Some eid) then
          {| world := {| storage := setLastOpen None ls; index := next;
                         drawn := drawn w |};
             currentEid := None; currentState := None; mode := manager;
             location_hash := location_hash a |}
        else
          set_world {| storage := ls; index := next; drawn := drawn w |} a
      else a
  end.

(** The entry of the index after an autosave: title and [updatedAt]
    renewed. *)
Definition touched (m : EventMeta) (st : State) : EventMeta :=
  {| meta_eid := meta_eid m; meta_title := title st;
     createdAt := createdAt m; updatedAt := now |}.

(** The autosave effect, when its timer fires. *)
Definition autosave (a : App) : App :=
  match currentEid a, currentState a with
  | Some eid, Some st =>
      if is_empty eid then a
      else
        let w := world a in
        let ls := saveEvent eid st (storage w) in
        let next :=
          match list_find (fun m => meta_eid m = eid) (index w) with
          | Some (i, m) => <[i := touched m st]> (index w)
          | None =>
              index w ++ [ {| meta_eid := eid; meta_title := title st;
                              createdAt := now; updatedAt := now |} ]
          end in
        set_world {| storage := saveIndex next ls; index := next;
                     drawn := drawn w |} a
  | _, _ => a
  end.

(** The boot effect. It runs once, with the functions of the first
    render: the [index] that [addOrForkEvent] reads there is the initial
    one, the empty list. [setIndex(list)] comes first; if
    [addOrForkEvent] stores an event it calls [setIndex(next)] after it,
    with a [next] that is never empty, and that one stays. [None] when
    [importFromHash] throws. *)
Definition boot (ls : Storage) (used : nat) (hash : jsstring) : option App :=
  let list := loadIndex ls in
  let first := initial_app ls used hash in
  match importFromHash randomUUID now first with
  | None => None
  | Some (true, a) =>
      let w := world a in
      Some (set_world {| storage := storage w;
                         index := match index w with
                                  | [] => list
                                  | next => next
                                  end;
                         drawn := drawn w |} a)
  | Some (false, _) =>
      let loaded :=
        set_world {| storage := ls; index := list; drawn := used |} first in
      match getLastOpen ls with
      | Some last =>
          if negb (is_empty last) && bool_decide (is_Some (loadEvent last ls))
          then Some (openEvent last loaded)
          else Some (set_mode manager loaded)
      | None => Some (set_mode manager loaded)
      end
  end.

End AppActions.

(** ** EventManager.tsx: the list of events *)

(** [s.includes(q)] *)
Fixpoint starts_with (q s : jsstring) : bool :=
  match q, s with
  | [], _ => true
  | c :: q', d :: s' => (c =? d)%Z && starts_with q' s'
  | _ :: _, [] => false
  end.

Fixpoint includes (s q : jsstring) : bool :=
  starts_with q s || match s with
                     | [] => false
                     | _ :: r => includes r q
                     end.

Section Manager.
(** String.prototype.toLowerCase, the case mapping of Unicode. *)
Variable toLowerCase : jsstring -> jsstring.

(** The [filtered] memo: the events, the most recently updated first,
    that have the query in their title. *)
Definition filtered (events : list EventMeta) (query : jsstring)
  : list EventMeta :=
  let q := toLowerCase (trim query) in
  filter (fun e => is_empty q || includes (toLowerCase (meta_title e)) q = true)
         (sort (fun a b => (updatedAt b - updatedAt a)%float) events).

End Manager.

(** * The vocabulary of the properties *)

(** A piece that [parseTimeToSeconds] accepts: not empty once trimmed, and
    read by [Number] as a number. *)
Definition numeric_part (p : jsstring) : Prop :=
  p <> [] /\ isNaN (Number p) = false.

Definition sf_same (a b : spec_float) : Prop :=
  match a, b with
  | S754_zero _, S754_zero _ => True
  | S754_infinity s, S754_infinity s' => s = s'
  | S754_finite s m e, S754_finite s' m' e' => s = s' /\ m = m' /\ e = e'
  | _, _ => False
  end.

(** The score at a rank: [None] for an unscored entry and past the end. *)
Definition score_at (ss : list ScoreRow) (k : nat) : option number :=
  ss !! k ≫= row_score.

(** Two ranks hold scored entries with identical ([===]) scores. *)
Definition tied (ss : list ScoreRow) (a b : nat) : bool :=
  match score_at ss a, score_at ss b with
  | Some x, Some y => (x =? y)%float
  | _, _ => false
  end.

(** Ranks [i] to [j - 1] form a maximal run of consecutive scored entries
    sharing an identical score. *)
Definition maximal_run (ss : list ScoreRow) (i j : nat) : Prop :=
  i < j <= length ss
  /\ is_Some (score_at ss i)
  /\ (forall k, i <= k -> S k < j -> tied ss k (S k) = true)
  /\ (i = 0 \/ tied ss (i - 1) i = false)
  /\ (j = length ss \/ tied ss (j - 1) j = false).

(** All scored entries come before all unscored ones. *)
Definition scored_first (ss : list ScoreRow) : Prop :=
  forall a b ra rb,
    a < b -> ss !! a = Some ra -> ss !! b = Some rb ->
    row_score ra = None -> row_score rb = None.

(** The entry at rank [k] is the last one with its id. *)
Definition last_with_id (ss : list ScoreRow) (k : nat) : Prop :=
  forall r, ss !! k = Some r ->
  forall k' r', k < k' -> ss !! k' = Some r' -> row_id r' <> row_id r.

(** The average of the points-table values at ranks [i] to [j - 1],
    0 standing for a rank beyond the table. *)
Definition run_average (table : list number) (i j : nat) : number :=
  (sum_points table i j / of_nat (j - i))%float.

(** Writes over a list of ranks. *)
Definition assign_ranks (ss : list ScoreRow) (v : number) (ks : list nat)
  (res : gmap jsstring number) : gmap jsstring number :=
  fold_left (fun res k =>
               match ss !! k with
               | Some r => set_number (row_id r) v res
               | None => res
               end) ks res.

(** The text saved for a snapshot loads again as a snapshot with the same
    JSON text (JSON.parse after JSON.stringify on a plain snapshot). *)
Definition reloads `{JSON State} (s : State) : Prop :=
  JSON_stringify s <> []
  /\ exists s0 : State, JSON_parse (JSON_stringify s) = Some s0
                         /\ JSON_stringify s0 = JSON_stringify s.

(** The index entry written for a new event. *)
Definition new_meta (now : number) (eid : EID) (s : State) : EventMeta :=
  {| meta_eid := eid; meta_title := title s; createdAt := now; updatedAt := now |}.

(** The same for snapshots of any type. *)
Definition new_meta_of {T} (title_of : T -> jsstring) (now : number)
  (eid : EID) (s : T) : EventMeta :=
  {| meta_eid := eid; meta_title := title_of s;
     createdAt := now; updatedAt := now |}.

(** The text saved for the snapshot parses to a snapshot with the same
    JSON text. *)
Definition text_stable {T} `{JSON T} (s : T) : Prop :=
  JSON_stringify s <> []
  /\ exists s0 : T, JSON_parse (JSON_stringify s) = Some s0
                     /\ JSON_stringify s0 = JSON_stringify s.

(** A JSON value as JSON.parse returns it: a string, an array, or an
    object with its properties in the order of the text (numbers,
    booleans and null are left out). *)
Inductive Value :=
| VString (s : jsstring)
| VArray (items : list Value)
| VObject (props : list (jsstring * Value)).

(** Structural identity: the same strings, arrays with structurally
    identical items in the same order, objects with the same keys and
    structurally identical values under each key, in whatever order the
    keys come (for objects without a repeated key). *)
Fixpoint same_structure (a b : Value) {struct a} : bool :=
  match a, b with
  | VString s, VString t => bool_decide (s = t)
  | VArray l, VArray m =>
      (fix items (l m : list Value) {struct l} : bool :=
         match l, m with
         | [], [] => true
         | x :: l', y :: m' => same_structure x y && items l' m'
         | _, _ => false
         end) l m
  | VObject o, VObject p =>
      (length o =? length p)%nat
      && (fix props (o : list (jsstring * Value)) {struct o} : bool :=
            match o with
            | [] => true
            | e :: o' =>
                match obj_get e.1 p with
                | Some w => same_structure e.2 w
                | None => false
                end && props o'
            end) o
  | _, _ => false
  end.

Section TextVocabulary.
Local Open Scope Z_scope.

Definition is_byte (b : Z) : Prop := 0 <= b <= 255.
Definition is_sextet (i : Z) : Prop := 0 <= i < 64.

(** The Base64 text of a byte sequence. *)
Definition base64 (bs : list Z) : jsstring :=
  map b64_char (sextets bs) ++ b64_padding (length bs).

(** String.prototype.isWellFormed: code units in range and no lone
    surrogate. *)
Fixpoint well_formed (s : jsstring) : bool :=
  match s with
  | [] => true
  | c :: r =>
      if is_high_surrogate c then
        match r with
        | d :: r' => is_low_surrogate d && well_formed r'
        | [] => false
        end
      else negb (is_low_surrogate c) && (0 <=? c) && (c <? 65536)
           && well_formed r
  end.

(** The JSON text of a value as JSON.stringify produces it: well-formed
    UTF-16 that does not start with U+FEFF. *)
Definition json_text (t : jsstring) : Prop :=
  well_formed t = true
  /\ match t with c :: _ => c <> 65279%Z | [] => True end.

Definition is_ascii (c : Z) : Prop := 0 <= c < 128.

(** What encodeURIComponent writes for an ASCII character. *)
Definition escape_ascii (c : Z) : jsstring :=
  if is_uri_unreserved c then [c] else percent_encode c.

End TextVocabulary.

(** A fragment parameter that holds neither [#] nor [&]. *)
Definition plain_param (p : jsstring) : Prop :=
  Forall (fun c => c <> 35 /\ c <> 38)%Z p.

(** A parameter that reads [k=] and at least one more character. *)
Definition is_k_param (p : jsstring) : bool :=
  match p with
  | k :: e :: _ :: _ => ((k =? 107) && (e =? 61))%Z
  | _ => false
  end.

(** The fragment [#p1&p2&...&pn&] that precedes a last parameter ([#]
    alone when there is none before it). *)
Definition fragment_start (params : list jsstring) : jsstring :=
  [35%Z] ++ flat_map (fun p => p ++ [38%Z]) params.

(** ** Rankings *)

Section SortVocabulary.
Context {A : Type}.
Variable comparefn : A -> A -> number.

(** The comparator never asks for both orders of two elements. *)
Definition asymmetric : Prop :=
  forall x y, sorts_after comparefn x y = true -> sorts_after comparefn y x = false.

(** No element is followed by one that is to come before it. *)
Definition in_order (l : list A) : Prop :=
  forall i a b, l !! i = Some a -> l !! S i = Some b ->
                sorts_after comparefn a b = false.

End SortVocabulary.

(** A row without a score. *)
Definition unscored (r : RankRow) : bool :=
  match rank_score r with None => true | Some _ => false end.

(** ** The event store *)

(** The index lists no event twice, every event it lists has a snapshot
    that loads, and the text saved for the index is that of the index. *)
Definition store_ok `{JSON State} `{JSON (list EventMeta)} (w : World) : Prop :=
  NoDup (map meta_eid (index w))
  /\ (forall m, m ∈ index w -> is_Some (loadEvent (meta_eid m) (storage w)))
  /\ storage w !! KEY_INDEX = Some (JSON_stringify (index w)).

(** ** Texts *)

(** A string: its code units are 16-bit. *)
Definition code_units (s : jsstring) : Prop :=
  Forall (fun c => (0 <= c < 65536)%Z) s.

(** A character of a share link's fragment after [#k=]: a letter, a
    digit or a percent sign. *)
Definition link_char (c : Z) : Prop :=
  (48 <= c <= 57 \/ 65 <= c <= 90 \/ 97 <= c <= 122 \/ c = 37)%Z.

(** * Sample data

    A small JSON codec, enough to run the share codec and the store on
    concrete events: a snapshot is written as the object that holds its
    title, [{"title":"..."}] (titles without quotes or escapes), a payload
    as [{"eid":"...","state":...}], an index as the list of its ids. *)

Definition sample_athlete : Athlete :=
  {| id := js "k3x9q2ab"; name := js "Alex"; sex := M; age := Some 30%float;
     bodyweight := Some 80%float; squat := Some (-100)%float; bench := None;
     deadlift := None; runTime := js "" |}.

Definition sample_rows : list ScoreRow :=
  [ {| row_id := js "ana"; row_score := Some 10%float |};
    {| row_id := js "ben"; row_score := Some 10%float |};
    {| row_id := js "cy"; row_score := Some 5%float |} ].

Definition titled (t : jsstring) : State :=
  {| title := t; pointsPreset := F1; pointsCustom := []; athletes := [] |}.

Definition title_open : jsstring := [123; 34]%Z ++ js "title" ++ [34; 58; 34]%Z.

Definition sample_stringify_state (s : State) : jsstring :=
  title_open ++ title s ++ [34; 125]%Z.

Definition sample_parse_state (t : jsstring) : option State :=
  match after_prefix title_open t with
  | Some r =>
      match rev r with
      | 125%Z :: 34%Z :: rt =>
          if forallb (fun c => negb (c =? 34)%Z) rt then Some (titled (rev rt))
          else None
      | _ => None
      end
  | None => None
  end.

Definition sample_JSON_State : JSON State :=
  {| JSON_stringify := sample_stringify_state;
     JSON_parse := sample_parse_state |}.

Definition sample_JSON_index : JSON (list EventMeta) :=
  {| JSON_stringify := fun l =>
       [91]%Z ++ flat_map (fun m => [34]%Z ++ meta_eid m ++ [34; 44]%Z) l ++ [93]%Z;
     JSON_parse := fun _ => None |}.

Definition eid_open : jsstring := [123; 34]%Z ++ js "eid" ++ [34; 58; 34]%Z.
Definition state_open : jsstring := [34; 44; 34]%Z ++ js "state" ++ [34; 58]%Z.

Fixpoint until_quote (s : jsstring) : jsstring :=
  match s with
  | c :: r => if (c =? 34)%Z then [] else c :: until_quote r
  | [] => []
  end.

Definition sample_stringify_payload (p : Payload) : jsstring :=
  match payload_eid p, payload_state p with
  | Some e, Some s => eid_open ++ e ++ state_open ++ sample_stringify_state s ++ [125]%Z
  | _, _ => [123; 125]%Z
  end.

Definition sample_parse_payload (t : jsstring) : option Payload :=
  match after_prefix eid_open t with
  | Some r =>
      let e := until_quote r in
      match after_prefix state_open (drop (length e) r) with
      | Some r2 =>
          match rev r2 with
          | 125%Z :: body =>
              match sample_parse_state (rev body) with
              | Some s => Some {| payload_eid := Some e; payload_state := Some s |}
              | None => None
              end
          | _ => None
          end
      | None => None
      end
  | None =>
      if decide (t = [123; 125]%Z)
      then Some {| payload_eid := None; payload_state := None |}
      else None
  end.

Definition sample_JSON_Payload : JSON Payload :=
  {| JSON_stringify := sample_stringify_payload;
     JSON_parse := sample_parse_payload |}.

(** "Ünï 🏋": two letters outside ASCII and a surrogate pair. *)
Definition sample_title : jsstring := [220; 110; 239; 32; 55356; 57291]%Z.

Definition sample_payload : Payload :=
  {| payload_eid := Some (js "3f2a-77");
     payload_state := Some (titled sample_title) |}.

Definition sample_uuid (n : nat) : EID := js "fresh-" ++ [48 + Z.of_nat n]%Z.
Definition sample_now : number := 1762128000000%float.

Definition sample_world : World :=
  {| storage := {[ eventKey (js "3f2a-77")
                   := sample_stringify_state (titled (js "Spring Meet")) ]};
     index := [ {| meta_eid := js "3f2a-77"; meta_title := js "Spring Meet";
                   createdAt := 1762000000000%float;
                   updatedAt := 1762000000000%float |} ];
     drawn := 0 |}.

Definition sample_app : App :=
  {| world := {| storage := ∅; index := []; drawn := 0 |};
     currentEid := None; currentState := None; mode := manager;
     location_hash := [] |}.

(** A roster of three: the first two with a strength score, the first
    and the last with a 5k time; the id of the second is an array
    index. *)
Definition sample_state : State :=
  {| title := js "Spring Meet"; pointsPreset := F1; pointsCustom := [];
     athletes :=
       [ {| id := js "a1"; name := js "Al"; sex := M; age := None;
            bodyweight := Some 80%float; squat := Some 100%float;
            bench := None; deadlift := None; runTime := js "20:00" |};
         {| id := js "7"; name := js "Bo"; sex := F; age := Some 28%float;
            bodyweight := Some 60%float; squat := Some 100%float;
            bench := None; deadlift := None; runTime := [] |};
         {| id := js "c3"; name := js "Cy"; sex := X; age := None;
            bodyweight := Some 60%float; squat := Some 100%float;
            bench := None; deadlift := None; runTime := js "19:00" |} ] |}.

(** A roster as a share link can carry it: the id of the first athlete
    is [__proto__]. *)
Definition sample_imported : State :=
  {| title := js "Imported"; pointsPreset := F1; pointsCustom := [];
     athletes :=
       [ {| id := PROTO; name := js "Eve"; sex := M; age := None;
            bodyweight := Some 80%float; squat := Some 100%float;
            bench := None; deadlift := None; runTime := [] |};
         {| id := js "b"; name := js "Bo"; sex := F; age := None;
            bodyweight := Some 60%float; squat := Some 100%float;
            bench := None; deadlift := None; runTime := [] |} ] |}.

(** A patch that gives a run time only. *)
Definition sample_patch : AthletePatch :=
  {| patch_id := None; patch_name := None; patch_sex := None;
     patch_age := None; patch_bodyweight := None; patch_squat := None;
     patch_bench := None; patch_deadlift := None;
     patch_runTime := Some (js "21:30") |}.

(** The sample world with its index saved, and a component that has
    its event open, edited. *)
Definition sample_store : World :=
  {| storage := @saveIndex sample_JSON_index (index sample_world)
                  (storage sample_world);
     index := index sample_world;
     drawn := 0 |}.

Definition sample_editing : App :=
  {| world := sample_store;
     currentEid := Some (js "3f2a-77");
     currentState := Some (titled (js "Spring Meet 2"));
     mode := event;
     location_hash := [] |}.

(** The share link of the sample event, its [k] parameter and its key. *)
Definition sample_link : jsstring :=
  Eval vm_compute in
    default [] (@copyShareLink sample_JSON_State sample_JSON_Payload
                  (js "3f2a-77") (storage sample_world)).

Definition sample_k_param : jsstring := drop 3 sample_link.

Definition sample_key : jsstring :=
  Eval vm_compute in default [] (decodeURIComponent sample_k_param).

(** A store with an event of the same identifier and another title. *)
Definition sample_other_storage : Storage :=
  {[ eventKey (js "3f2a-77") := sample_stringify_state (titled (js "Autumn Meet")) ]}.

(** ** Snapshots with their keys in order

    A second small codec, for objects as JSON.parse returns them: the
    values are strings (without quotes or escapes), arrays and objects,
    and no key is an array index, so that JSON.stringify writes the
    properties in the order the text they were parsed from had them. *)

Definition quoted (s : jsstring) : jsstring := [34%Z] ++ s ++ [34%Z].

Fixpoint stringify_value (v : Value) : jsstring :=
  match v with
  | VString s => quoted s
  | VArray l =>
      [91%Z]
      ++ (fix items (l : list Value) : jsstring :=
            match l with
            | [] => []
            | [x] => stringify_value x
            | x :: l' => stringify_value x ++ [44%Z] ++ items l'
            end) l
      ++ [93%Z]
  | VObject o =>
      [123%Z]
      ++ (fix props (o : list (jsstring * Value)) : jsstring :=
            match o with
            | [] => []
            | [e] => quoted e.1 ++ [58%Z] ++ stringify_value e.2
            | e :: o' =>
                quoted e.1 ++ [58%Z] ++ stringify_value e.2 ++ [44%Z] ++ props o'
            end) o
      ++ [125%Z]
  end.

(** The value at the head of a text, and the rest of the text. *)
Fixpoint parse_value (fuel : nat) (t : jsstring) : option (Value * jsstring) :=
  match fuel with
  | O => None
  | S fuel' =>
      match t with
      | 34%Z :: r =>
          let s := until_quote r in
          match drop (length s) r with
          | 34%Z :: rest => Some (VString s, rest)
          | _ => None
          end
      | 91%Z :: 93%Z :: rest => Some (VArray [], rest)
      | 91%Z :: r =>
          (fix items (n : nat) (t : jsstring) (acc : list Value)
             : option (Value * jsstring) :=
             match n with
             | O => None
             | S n' =>
                 match parse_value fuel' t with
                 | Some (v, 44%Z :: rest) => items n' rest (acc ++ [v])
                 | Some (v, 93%Z :: rest) => Some (VArray (acc ++ [v]), rest)
                 | _ => None
                 end
             end) fuel' r []
      | 123%Z :: 125%Z :: rest => Some (VObject [], rest)
      | 123%Z :: r =>
          (fix props (n : nat) (t : jsstring) (acc : object Value)
             : option (Value * jsstring) :=
             match n with
             | O => None
             | S n' =>
                 match t with
                 | 34%Z :: r =>
                     let k := until_quote r in
                     match drop (length k) r with
                     | 34%Z :: 58%Z :: r' =>
                         match parse_value fuel' r' with
                         | Some (v, 44%Z :: rest) => props n' rest (obj_set k v acc)
                         | Some (v, 125%Z :: rest) =>
                             Some (VObject (obj_set k v acc), rest)
                         | _ => None
                         end
                     | _ => None
                     end
                 | _ => None
                 end
             end) fuel' r []
      | _ => None
      end
  end.

(** JSON.stringify and JSON.parse for snapshots that are objects. *)
Definition sample_JSON_object : JSON (object Value) :=
  {| JSON_stringify := fun o => stringify_value (VObject o);
     JSON_parse := fun t =>
       match parse_value (length t) t with
       | Some (VObject o, []) => Some o
       | _ => None
       end |}.

(** [state.title] of such a snapshot. *)
Definition object_title (o : object Value) : jsstring :=
  match obj_get (js "title") o with
  | Some (VString t) => t
  | _ => []
  end.

(** A snapshot without athletes, and the same snapshot with its keys in
    another order. *)
Definition sample_snapshot : object Value :=
  [ (js "title", VString (js "Spring Meet"));
    (js "pointsPreset", VString (js "F1"));
    (js "pointsCustom", VArray []);
    (js "athletes", VArray []) ].

Definition sample_snapshot_reordered : object Value :=
  [ (js "athletes", VArray []);
    (js "pointsCustom", VArray []);
    (js "pointsPreset", VString (js "F1"));
    (js "title", VString (js "Spring Meet")) ].


(** An identifier as crypto.randomUUID returns them, and a store that
    holds the snapshot under it. *)
Definition sample_eid : EID := js "9b2f6c1e-4d3a-4f5b-8c7d-1e2f3a4b5c6d".

Definition sample_object_world : World :=
  {| storage := {[ eventKey sample_eid
                   := stringify_value (VObject sample_snapshot) ]};
     index := [ {| meta_eid := sample_eid; meta_title := js "Spring Meet";
                   createdAt := 1762000000000%float;
                   updatedAt := 1762000000000%float |} ];
     drawn := 0 |}.

(** * Properties *)

(** ** Time parsing *)

Lemma bad_part_false p : bad_part p = false <-> numeric_part p.
Proof.
  unfold bad_part, numeric_part. destruct p; simpl.
  - split; [discriminate | intros [H _]; congruence].
  - split; [intros H; split; [discriminate | exact H] | intros [_ H]; exact H].
Qed.

Lemma existsb_bad_part parts :
  existsb bad_part parts = false <-> Forall numeric_part parts.
Proof.
  induction parts as [|p ps IH]; simpl.
  - split; [constructor | reflexivity].
  - rewrite orb_false_iff, IH, bad_part_false. split.
    + intros [H1 H2]. by constructor.
    + intros H. by inversion H.
Qed.

Lemma time_parts_nil_input : time_parts [] = [[]].
Proof. reflexivity. Qed.

Lemma numeric_parts_nonempty time :
  Forall numeric_part (time_parts time) -> is_empty time = false.
Proof.
  destruct time; [|reflexivity].
  rewrite time_parts_nil_input. intros H. inversion H as [|? ? [Hne _] _]; subst.
  congruence.
Qed.

(** C7. [parseTimeToSeconds] splits on [:]; an empty or non-numeric piece,
    or more than three pieces, gives null; one numeric piece gives its
    value, two give minutes*60+seconds, three give
    hours*3600+minutes*60+seconds; "1:02:03" is 3723, "2:03" is 123 and
    "45" is 45. *)
Theorem parseTimeToSeconds_spec :
  (forall time,
     Exists (fun p => p = [] \/ isNaN (Number p) = true) (time_parts time) ->
     parseTimeToSeconds time = None)
  /\ (forall time, 3 < length (time_parts time) -> parseTimeToSeconds time = None)
  /\ (forall time s,
        time_parts time = [s] -> numeric_part s ->
        parseTimeToSeconds time = Some (Number s))
  /\ (forall time m s,
        time_parts time = [m; s] -> numeric_part m -> numeric_part s ->
        parseTimeToSeconds time = Some (Number m * 60 + Number s)%float)
  /\ (forall time h m s,
        time_parts time = [h; m; s] ->
        numeric_part h -> numeric_part m -> numeric_part s ->
        parseTimeToSeconds time
        = Some (Number h * 3600 + Number m * 60 + Number s)%float)
  /\ parseTimeToSeconds (js "1:02:03") = Some 3723%float
  /\ parseTimeToSeconds (js "2:03") = Some 123%float
  /\ parseTimeToSeconds (js "45") = Some 45%float.
Proof.
  repeat split.
  - intros time Hbad. unfold parseTimeToSeconds.
    destruct (is_empty time); [reflexivity|].
    destruct (existsb bad_part (time_parts time)) eqn:Hex; [reflexivity|].
    apply existsb_bad_part in Hex. exfalso.
    apply Exists_exists in Hbad as (p & Hin & Hp).
    rewrite Forall_forall in Hex. destruct (Hex p Hin) as [Hne Hnum].
    destruct Hp; congruence.
  - intros time Hlen. unfold parseTimeToSeconds.
    destruct (is_empty time); [reflexivity|].
    destruct (existsb bad_part (time_parts time)); [reflexivity|].
    destruct (time_parts time) as [|a [|b [|c [|d l]]]]; simpl in *; try lia.
    reflexivity.
  - intros time s Hparts Hs. unfold parseTimeToSeconds.
    assert (Hall : Forall numeric_part (time_parts time))
      by (rewrite Hparts; repeat (constructor; try assumption)).
    rewrite (numeric_parts_nonempty _ Hall).
    apply existsb_bad_part in Hall. rewrite Hall, Hparts. reflexivity.
  - intros time m s Hparts Hm Hs. unfold parseTimeToSeconds.
    assert (Hall : Forall numeric_part (time_parts time))
      by (rewrite Hparts; repeat (constructor; try assumption)).
    rewrite (numeric_parts_nonempty _ Hall).
    apply existsb_bad_part in Hall. rewrite Hall, Hparts. reflexivity.
  - intros time h m s Hparts Hh Hm Hs. unfold parseTimeToSeconds.
    assert (Hall : Forall numeric_part (time_parts time))
      by (rewrite Hparts; repeat (constructor; try assumption)).
    rewrite (numeric_parts_nonempty _ Hall).
    apply existsb_bad_part in Hall. rewrite Hall, Hparts. reflexivity.
Qed.

Lemma parseTimeToSeconds_spec_witness :
  parseTimeToSeconds (js "12:34.5") = Some (12 * 60 + 34.5)%float.
Proof.
  apply (proj1 (proj2 (proj2 (proj2 parseTimeToSeconds_spec)))
           (js "12:34.5") (js "12") (js "34.5")).
  - vm_compute. reflexivity.
  - split; [discriminate | vm_compute; reflexivity].
  - split; [discriminate | vm_compute; reflexivity].
Defined.

(** C8 as the specification states it fails: the empty string and a
    malformed string both give null, the one value the function has for
    "no number". *)
Lemma parseTimeToSeconds_empty_same_as_invalid :
  ~ (parseTimeToSeconds (js "") <> parseTimeToSeconds (js "1:xx")).
Proof. intros H. apply H. vm_compute. reflexivity. Qed.

(** C8, amended. The empty string gives null, exactly what a malformed
    string such as "1:xx" gives; a result other than null is always a
    number read from one to three numeric pieces of a non-empty string. *)
Theorem parseTimeToSeconds_empty_is_null :
  parseTimeToSeconds (js "") = None
  /\ parseTimeToSeconds (js "1:xx") = None
  /\ (forall time v,
        parseTimeToSeconds time = Some v ->
        time <> [] /\ Forall numeric_part (time_parts time)
        /\ 1 <= length (time_parts time) <= 3).
Proof.
  split; [vm_compute; reflexivity|]. split; [vm_compute; reflexivity|].
  intros time v. unfold parseTimeToSeconds.
  destruct time as [|c t]; [discriminate|]. simpl is_empty. cbv iota.
  destruct (existsb bad_part (time_parts (c :: t))) eqn:Hex; [discriminate|].
  apply existsb_bad_part in Hex. intros Hv.
  split; [discriminate|]. split; [assumption|].
  destruct (time_parts (c :: t)) as [|a [|b [|d [|e l]]]]; simpl in *;
    try discriminate; lia.
Qed.

Lemma parseTimeToSeconds_empty_is_null_witness :
  js "7:30" <> [] /\ Forall numeric_part (time_parts (js "7:30"))
  /\ 1 <= length (time_parts (js "7:30")) <= 3.
Proof.
  apply (proj2 (proj2 parseTimeToSeconds_empty_is_null) (js "7:30") 450%float).
  vm_compute. reflexivity.
Defined.

(** ** DOTS *)

(** What the guards of [dotsPoints] let through, and what it then returns:
    a total that is a number other than 0 and NaN (its sign is not
    looked at), a bodyweight above 0, sex M or F, and a denominator that
    is finite and not 0. *)
Lemma dotsPoints_scored total x sex s :
  truthy total = true -> truthy x = true -> (x <=? 0)%float = false ->
  match sex with F => Some DOTS_F | M => Some DOTS_M | X => None end = Some s ->
  isFinite (dots_denominator (DOTS_COEFF s) x) = true ->
  (dots_denominator (DOTS_COEFF s) x =? 0)%float = false ->
  dotsPoints (Some total) (Some x) sex
  = Some (600 / dots_denominator (DOTS_COEFF s) x * total)%float.
Proof.
  intros Ht Hx Hpos Hs Hfin Hnz. unfold dotsPoints, falsy.
  rewrite Ht, Hx, Hpos. simpl. rewrite Hs, Hfin, Hnz. reflexivity.
Qed.

Lemma dotsPoints_unscored total x sex :
  falsy total = true \/ falsy x = true
  \/ (exists v, x = Some v /\ (v <=? 0)%float = true) \/ sex = X ->
  dotsPoints total x sex = None.
Proof.
  unfold dotsPoints.
  intros [H | [H | [(v & -> & H) | ->]]].
  - destruct total, x; try reflexivity. rewrite H. reflexivity.
  - destruct total, x; try reflexivity. rewrite H, orb_true_r. reflexivity.
  - destruct total; try reflexivity. rewrite H, !orb_true_r. reflexivity.
  - destruct total, x; try reflexivity.
    destruct (_ || _ || _); reflexivity.
Qed.

(** C6, where the code departs from it: a negative total passes the
    guards ([!totalKg] only rejects null, 0 and NaN) and is scored, with a
    negative score, as for an athlete whose squat was entered as -100;
    the run index rejects the like input. *)
Theorem dotsPoints_negative_total :
  dotsPoints (Some (-100)%float) (Some 80%float) M
  = Some (600 / dots_denominator (DOTS_COEFF DOTS_M) 80 * -100)%float
  /\ (exists v, dotsPoints (Some (-100)%float) (Some 80%float) M = Some v
                /\ (v <? 0)%float = true)
  /\ (exists v, plScore sample_athlete = Some v /\ (v <? 0)%float = true)
  /\ runPerformanceIndex (Some (-100)%float) = None.
Proof.
  split; [vm_compute; reflexivity|].
  split; [|split; [|vm_compute; reflexivity]].
  - eexists. split; [vm_compute; reflexivity|]. vm_compute. reflexivity.
  - eexists. split; [vm_compute; reflexivity|]. vm_compute. reflexivity.
Qed.

(** ** Points table *)



(** ** Equality of numbers

    [===] on numbers is IEEE equality; it is symmetric and transitive
    (and fails to be reflexive at NaN only). *)

Lemma SFeqb_same a b : SFeqb a b = true <-> sf_same a b.
Proof.
  unfold SFeqb.
  destruct a as [sa|sa| |sa ma ea], b as [sb|sb| |sb mb eb]; simpl;
    try (split; [discriminate | tauto]);
    try (split; [reflexivity | tauto]);
    try (destruct sa; split; (discriminate || tauto));
    try (destruct sb; split; (discriminate || tauto)).
  - destruct sa, sb; split; (reflexivity || discriminate || tauto).
  - change (PosDef.Pos.compare_cont Eq ma mb) with (Pos.compare ma mb).
    destruct sa, sb; try (split; [discriminate | intros (? & _); discriminate]);
      destruct (Z.compare_spec ea eb) as [He|He|He];
      destruct (Pos.compare_spec ma mb) as [Hm|Hm|Hm]; simpl;
      split; try discriminate; try (intros (_ & ? & ?); lia);
      intros _; subst; auto.
Qed.

Lemma number_eqb_sym (x y : number) :
  (x =? y)%float = true -> (y =? x)%float = true.
Proof.
  rewrite !FloatAxioms.eqb_spec, !SFeqb_same.
  destruct (Prim2SF x), (Prim2SF y); simpl; try tauto; try congruence.
  intros (-> & -> & ->). auto.
Qed.

Lemma number_eqb_trans (x y z : number) :
  (x =? y)%float = true -> (y =? z)%float = true -> (x =? z)%float = true.
Proof.
  rewrite !FloatAxioms.eqb_spec, !SFeqb_same.
  destruct (Prim2SF x), (Prim2SF y), (Prim2SF z); simpl; try tauto; try congruence.
  intros (-> & -> & ->) (-> & -> & ->). auto.
Qed.

(** ** Rank-to-points allocation *)

Lemma lookup_set_number_eq (k : jsstring) (v : number) (m : gmap jsstring number) :
  k <> PROTO -> set_number k v m !! k = Some v.
Proof.
  intros Hk. unfold set_number. rewrite decide_False by done.
  apply lookup_insert_eq.
Qed.

Lemma lookup_set_number_ne (k x : jsstring) (v : number) (m : gmap jsstring number) :
  k <> x -> set_number k v m !! x = m !! x.
Proof.
  intros Hk. unfold set_number. destruct (decide (k = PROTO)); [done|].
  by apply lookup_insert_ne.
Qed.

Lemma lookup_set_number_proto (k : jsstring) (v : number) (m : gmap jsstring number) :
  set_number k v m !! PROTO = m !! PROTO.
Proof.
  unfold set_number. destruct (decide (k = PROTO)) as [Hk|Hk]; [done|].
  by apply lookup_insert_ne.
Qed.

Section AllocationFacts.
Variable ss : list ScoreRow.
Variable table : list number.

Lemma scan_ties_ge fuel c j : j <= scan_ties ss fuel c j.
Proof.
  revert j. induction fuel as [|fuel IH]; intros j; simpl; [lia|].
  destruct (ss !! j) as [r|]; [|lia].
  destruct (score_is (row_score r) c); [|lia].
  specialize (IH (S j)). lia.
Qed.

Lemma scan_ties_members fuel c j k :
  j <= k < scan_ties ss fuel c j ->
  exists r, ss !! k = Some r /\ score_is (row_score r) c = true.
Proof.
  revert j. induction fuel as [|fuel IH]; intros j; simpl; [lia|].
  destruct (ss !! j) as [r|] eqn:Hj; [|lia].
  destruct (score_is (row_score r) c) eqn:Hs; [|lia].
  intros Hk. destruct (decide (k = j)) as [->|Hne]; [eauto|].
  apply (IH (S j)). lia.
Qed.

Lemma scan_ties_stop fuel c j :
  length ss - j <= fuel ->
  match ss !! scan_ties ss fuel c j with
  | Some r => score_is (row_score r) c = false
  | None => True
  end.
Proof.
  revert j. induction fuel as [|fuel IH]; intros j Hf; simpl.
  - rewrite (proj2 (lookup_ge_None ss j)); [exact I | lia].
  - destruct (ss !! j) as [r|] eqn:Hj; [|rewrite Hj; exact I].
    destruct (score_is (row_score r) c) eqn:Hs; [|rewrite Hj; exact Hs].
    apply IH. lia.
Qed.

Lemma scan_ties_le fuel c j : j <= length ss -> scan_ties ss fuel c j <= length ss.
Proof.
  intros Hj. pose proof (scan_ties_ge fuel c j) as Hge.
  destruct (decide (scan_ties ss fuel c j = j)) as [->|Hne]; [assumption|].
  destruct (scan_ties_members fuel c j (scan_ties ss fuel c j - 1)) as (r & Hr & _);
    [lia|].
  apply lookup_lt_Some in Hr. lia.
Qed.

Lemma assign_ranks_other v ks res x :
  (forall k r, k ∈ ks -> ss !! k = Some r -> row_id r <> x) ->
  assign_ranks ss v ks res !! x = res !! x.
Proof.
  revert res. induction ks as [|k ks IH]; intros res Hx; simpl; [reflexivity|].
  rewrite IH by (intros k' r' Hin; apply Hx; set_solver).
  destruct (ss !! k) as [r|] eqn:Hk; [|reflexivity].
  apply lookup_set_number_ne. apply (Hx k r); [set_solver | assumption].
Qed.

Lemma assign_ranks_lookup v ks res x :
  x <> PROTO ->
  assign_ranks ss v ks res !! x = Some v
  \/ (assign_ranks ss v ks res !! x = res !! x
      /\ forall k r, k ∈ ks -> ss !! k = Some r -> row_id r <> x).
Proof.
  intros Hx. revert res. induction ks as [|k ks IH]; intros res; simpl.
  - right. split; [reflexivity | set_solver].
  - destruct (IH (match ss !! k with
                  | Some r => set_number (row_id r) v res
                  | None => res
                  end)) as [Hl | [Hr Hno]]; [by left|].
    destruct (ss !! k) as [r|] eqn:Hk.
    + destruct (decide (row_id r = x)) as [Heq|Hne].
      * left. rewrite Hr, Heq. by apply lookup_set_number_eq.
      * right. split; [by rewrite Hr, lookup_set_number_ne|].
        intros k' r' Hin Hk'. apply elem_of_cons in Hin as [->|Hin]; [|eauto].
        congruence.
    + right. split; [assumption|].
      intros k' r' Hin Hk'. apply elem_of_cons in Hin as [->|Hin]; [|eauto].
      congruence.
Qed.

Lemma assign_ranks_written v ks res k r :
  k ∈ ks -> ss !! k = Some r -> row_id r <> PROTO ->
  assign_ranks ss v ks res !! row_id r = Some v.
Proof.
  intros Hin Hk Hp.
  destruct (assign_ranks_lookup v ks res (row_id r) Hp) as [H | [_ Hno]];
    [assumption|].
  exfalso. by apply (Hno k r).
Qed.

Lemma assign_ranks_keeps v ks res x :
  is_Some (res !! x) -> is_Some (assign_ranks ss v ks res !! x).
Proof.
  revert res. induction ks as [|k ks IH]; intros res Hx; simpl; [assumption|].
  apply IH. destruct (ss !! k) as [r|]; [|assumption].
  unfold set_number. destruct (decide (row_id r = PROTO)); [assumption|].
  destruct (decide (row_id r = x)) as [->|Hne].
  - rewrite lookup_insert_eq. eauto.
  - by rewrite lookup_insert_ne.
Qed.

(** No assignment creates the key [__proto__]. *)
Lemma assign_ranks_proto v ks res :
  assign_ranks ss v ks res !! PROTO = res !! PROTO.
Proof.
  revert res. induction ks as [|k ks IH]; intros res; simpl; [reflexivity|].
  rewrite IH. destruct (ss !! k) as [r|]; [|reflexivity].
  apply lookup_set_number_proto.
Qed.

Lemma assign_unfold i j v res :
  assign ss i j v res = assign_ranks ss v (seq i (j - i)) res.
Proof. reflexivity. Qed.

Lemma elem_of_seq_range (i j k : nat) : k ∈ seq i (j - i) <-> i <= k < j.
Proof. rewrite elem_of_seq. lia. Qed.

End AllocationFacts.

Section AllocationRuns.
Variable ss : list ScoreRow.
Variable table : list number.

Lemma tied_trans a b c :
  tied ss a b = true -> tied ss b c = true -> tied ss a c = true.
Proof.
  unfold tied.
  destruct (score_at ss a), (score_at ss b), (score_at ss c); try discriminate.
  apply number_eqb_trans.
Qed.

Lemma tied_scores a b :
  tied ss a b = true ->
  exists x y, score_at ss a = Some x /\ score_at ss b = Some y
              /\ (x =? y)%float = true.
Proof.
  unfold tied. destruct (score_at ss a), (score_at ss b); try discriminate.
  eauto.
Qed.

Lemma score_at_Some k r : ss !! k = Some r -> score_at ss k = row_score r.
Proof. unfold score_at. intros ->. reflexivity. Qed.

(** Inside a run every entry is tied with the first one. *)
Lemma run_tied_with_head i j k :
  (forall k, i <= k -> S k < j -> tied ss k (S k) = true) ->
  i < k < j -> tied ss i k = true.
Proof.
  intros Hadj [Hik Hkj]. induction k as [|k IH]; [lia|].
  destruct (decide (i = k)) as [->|Hne]; [apply Hadj; lia|].
  apply tied_trans with k; [apply IH; lia | apply Hadj; lia].
Qed.

(** The entries the inner [while] gathers are tied, each with the next. *)
Lemma code_run_adjacent i cur c k :
  ss !! i = Some cur -> row_score cur = Some c ->
  i <= k -> S k < scan_ties ss (length ss) c (i + 1) ->
  tied ss k (S k) = true.
Proof.
  intros Hi Hc Hik Hkj.
  destruct (scan_ties_members ss (length ss) c (i + 1) (S k)) as (r' & Hr' & Hs');
    [lia|].
  unfold tied. rewrite (score_at_Some _ _ Hr').
  destruct (row_score r') as [y|] eqn:Hy; [|discriminate]. simpl in Hs'.
  destruct (decide (k = i)) as [->|Hne].
  - rewrite (score_at_Some _ _ Hi), Hc. by apply number_eqb_sym.
  - destruct (scan_ties_members ss (length ss) c (i + 1) k) as (r & Hr & Hs);
      [lia|].
    rewrite (score_at_Some _ _ Hr).
    destruct (row_score r) as [x|]; [|discriminate]. simpl in Hs.
    apply number_eqb_trans with c; [assumption | by apply number_eqb_sym].
Qed.

(** Ids that occur from rank [i] on are the only ones the loop writes. *)
Lemma alloc_loop_frame fuel i res x :
  (forall k r, i <= k -> ss !! k = Some r -> row_id r <> x) ->
  alloc_loop ss table fuel i res !! x = res !! x.
Proof.
  revert i res. induction fuel as [|fuel IH]; intros i res Hx; simpl; [reflexivity|].
  destruct (ss !! i) as [cur|] eqn:Hi; [|reflexivity].
  destruct (row_score cur) as [c|] eqn:Hc.
  - pose proof (scan_ties_ge ss (length ss) c (i + 1)) as Hge.
    rewrite IH by (intros k r Hk; apply Hx; lia).
    rewrite assign_unfold. apply assign_ranks_other.
    intros k r Hk. apply Hx. apply elem_of_seq_range in Hk. lia.
  - rewrite assign_unfold. apply assign_ranks_other.
    intros k r Hk. apply Hx. apply elem_of_seq_range in Hk. lia.
Qed.

(** The run the loop gathers at the first rank of a maximal run is that
    run. *)
Lemma code_run_is_maximal_run i j cur c :
  ss !! i = Some cur -> row_score cur = Some c ->
  maximal_run ss i j ->
  scan_ties ss (length ss) c (i + 1) = j.
Proof.
  intros Hi Hc (Hij & _ & Hadj & _ & Hright).
  pose proof (scan_ties_ge ss (length ss) c (i + 1)) as Hge.
  pose proof (scan_ties_stop ss (length ss) c (i + 1)) as Hstop.
  set (j' := scan_ties ss (length ss) c (i + 1)) in *.
  destruct (Nat.lt_trichotomy j' j) as [Hlt | [Heq | Hgt]]; [|assumption|].
  - exfalso. assert (Ht : tied ss i j' = true)
      by (apply (run_tied_with_head i j j' Hadj); lia).
    destruct (tied_scores _ _ Ht) as (x & y & Hx & Hy & Hxy).
    rewrite (score_at_Some _ _ Hi), Hc in Hx. injection Hx as <-.
    unfold score_at in Hy. destruct (ss !! j') as [r|]; [|discriminate].
    simpl in Hy. specialize (Hstop ltac:(lia)). unfold score_is in Hstop.
    rewrite Hy in Hstop. apply number_eqb_sym in Hxy. congruence.
  - exfalso. assert (Ht : tied ss (j - 1) j = true).
    { replace j with (S (j - 1)) at 2 by lia.
      apply (code_run_adjacent i cur c); [assumption | assumption | lia |].
      fold j'. lia. }
    destruct Hright as [Hlen | Hf]; [|congruence].
    assert (j' <= length ss) by (apply scan_ties_le; apply lookup_lt_Some in Hi; lia).
    lia.
Qed.

(** A maximal run that starts after rank [i] starts at or after the end
    of the run the loop gathers at [i]. *)
Lemma code_run_before_maximal_run i a b cur c :
  ss !! i = Some cur -> row_score cur = Some c ->
  maximal_run ss a b -> i < a ->
  scan_ties ss (length ss) c (i + 1) <= a.
Proof.
  intros Hi Hc (Hab & _ & _ & Hleft & _) Hia.
  destruct (le_lt_dec (scan_ties ss (length ss) c (i + 1)) a) as [Hle|Hlt];
    [assumption|].
  exfalso. assert (Ht : tied ss (a - 1) a = true).
  { replace a with (S (a - 1)) at 2 by lia.
    apply (code_run_adjacent i cur c); [assumption | assumption | lia|].
    replace (S (a - 1)) with a by lia. assumption. }
  destruct Hleft as [Hz | Hf]; [lia | congruence].
Qed.

Lemma alloc_loop_run fuel i res a b k r :
  length ss - i <= fuel ->
  scored_first ss -> maximal_run ss a b -> i <= a ->
  a <= k < b -> ss !! k = Some r -> last_with_id ss k ->
  row_id r <> PROTO ->
  alloc_loop ss table fuel i res !! row_id r = Some (run_average table a b).
Proof.
  intros Hfuel Hsf Hrun Hia Hk Hr Hlast Hp.
  revert i res Hfuel Hia.
  induction fuel as [|fuel IH]; intros i res Hfuel Hia.
  - apply lookup_lt_Some in Hr. lia.
  - simpl. destruct (ss !! i) as [cur|] eqn:Hi;
      [|apply lookup_ge_None in Hi; apply lookup_lt_Some in Hr; lia].
    destruct (row_score cur) as [c|] eqn:Hc.
    + pose proof (scan_ties_ge ss (length ss) c (i + 1)) as Hge.
      destruct (decide (i = a)) as [->|Hne].
      * rewrite (code_run_is_maximal_run a b cur c Hi Hc Hrun).
        rewrite alloc_loop_frame.
        -- rewrite assign_unfold.
           apply (assign_ranks_written ss _ _ _ k r); [|assumption..].
           apply elem_of_seq_range. lia.
        -- intros k' r' Hk' Hr'. apply (Hlast r Hr k' r'); [lia | assumption].
      * apply IH; [lia|].
        apply (code_run_before_maximal_run i a b cur c); [done..|lia].
    + exfalso. destruct Hrun as (Hab & [x Hx] & _).
      destruct (ss !! a) as [ra|] eqn:Ha;
        [|unfold score_at in Hx; rewrite Ha in Hx; discriminate].
      rewrite (score_at_Some _ _ Ha) in Hx.
      destruct (decide (i = a)) as [->|Hne]; [congruence|].
      rewrite (Hsf i a cur ra) in Hx; [discriminate | lia | done..].
Qed.

(** Every entry from rank [i] on has its id in the result. *)
Lemma alloc_loop_keeps fuel i res x :
  is_Some (res !! x) -> is_Some (alloc_loop ss table fuel i res !! x).
Proof.
  revert i res. induction fuel as [|fuel IH]; intros i res Hx; simpl; [assumption|].
  destruct (ss !! i) as [cur|]; [|assumption].
  destruct (row_score cur) as [c|].
  - apply IH. rewrite assign_unfold. by apply assign_ranks_keeps.
  - rewrite assign_unfold. by apply assign_ranks_keeps.
Qed.

Lemma alloc_loop_present fuel i res k r :
  length ss - i <= fuel -> i <= k -> ss !! k = Some r ->
  row_id r <> PROTO ->
  is_Some (alloc_loop ss table fuel i res !! row_id r).
Proof.
  intros Hfuel Hik Hr Hp. revert i res Hfuel Hik.
  induction fuel as [|fuel IH]; intros i res Hfuel Hik.
  - apply lookup_lt_Some in Hr. lia.
  - simpl. destruct (ss !! i) as [cur|] eqn:Hi;
      [|apply lookup_ge_None in Hi; apply lookup_lt_Some in Hr; lia].
    pose proof (lookup_lt_Some _ _ _ Hr) as Hlen.
    destruct (row_score cur) as [c|] eqn:Hc.
    + pose proof (scan_ties_ge ss (length ss) c (i + 1)) as Hge.
      destruct (le_lt_dec (scan_ties ss (length ss) c (i + 1)) k) as [Hle|Hlt].
      * apply IH; lia.
      * apply alloc_loop_keeps. rewrite assign_unfold.
        rewrite (assign_ranks_written ss _ _ _ k r); [eauto | | assumption..].
        apply elem_of_seq_range. lia.
    + rewrite assign_unfold.
      rewrite (assign_ranks_written ss _ _ _ k r); [eauto | | assumption..].
      apply elem_of_seq_range. lia.
Qed.

(** The result never has the key [__proto__]. *)
Lemma alloc_loop_proto fuel i res :
  alloc_loop ss table fuel i res !! PROTO = res !! PROTO.
Proof.
  revert i res. induction fuel as [|fuel IH]; intros i res; simpl; [reflexivity|].
  destruct (ss !! i) as [cur|]; [|reflexivity].
  destruct (row_score cur) as [c|].
  - rewrite IH, assign_unfold. apply assign_ranks_proto.
  - rewrite assign_unfold. apply assign_ranks_proto.
Qed.

(** An unscored entry ends with 0 points: the loop stops at the first
    unscored entry, at or before it, and writes 0 from there on. *)
Lemma alloc_loop_unscored fuel i res k r :
  length ss - i <= fuel -> i <= k -> ss !! k = Some r -> row_score r = None ->
  row_id r <> PROTO ->
  alloc_loop ss table fuel i res !! row_id r = Some 0%float.
Proof.
  intros Hfuel Hik Hr Hnull Hp. revert i res Hfuel Hik.
  induction fuel as [|fuel IH]; intros i res Hfuel Hik.
  - apply lookup_lt_Some in Hr. lia.
  - simpl. destruct (ss !! i) as [cur|] eqn:Hi;
      [|apply lookup_ge_None in Hi; apply lookup_lt_Some in Hr; lia].
    pose proof (lookup_lt_Some _ _ _ Hr) as Hlen.
    destruct (row_score cur) as [c|] eqn:Hc.
    + pose proof (scan_ties_ge ss (length ss) c (i + 1)) as Hge.
      apply IH; [lia|].
      destruct (le_lt_dec (scan_ties ss (length ss) c (i + 1)) k) as [Hle|Hlt];
        [assumption|].
      exfalso. destruct (decide (k = i)) as [->|Hne]; [congruence|].
      destruct (scan_ties_members ss (length ss) c (i + 1) k) as (r' & Hr' & Hs');
        [lia|].
      rewrite Hr in Hr'. injection Hr' as <-. rewrite Hnull in Hs'. discriminate.
    + rewrite assign_unfold.
      apply (assign_ranks_written ss _ _ _ k r); [|assumption..].
      apply elem_of_seq_range. lia.
Qed.

(** The result is the list of assignments, carried out in order. *)
Lemma assign_apply_writes i j v res :
  assign ss i j v res = apply_writes (writes ss i j v) res.
Proof.
  unfold assign, writes, apply_writes. generalize (seq i (j - i)) as ks.
  intros ks. revert res. induction ks as [|k ks IH]; intros res; [reflexivity|].
  simpl. destruct (ss !! k) as [r|]; simpl; apply IH.
Qed.

Lemma alloc_loop_apply_writes fuel i res :
  alloc_loop ss table fuel i res
  = apply_writes (alloc_writes ss table fuel i) res.
Proof.
  revert i res. induction fuel as [|fuel IH]; intros i res; [reflexivity|].
  cbn [alloc_loop alloc_writes]. destruct (ss !! i) as [cur|]; [|reflexivity].
  destruct (row_score cur) as [c|].
  - unfold apply_writes. rewrite fold_left_app. fold (apply_writes).
    rewrite IH. by rewrite assign_apply_writes.
  - apply assign_apply_writes.
Qed.

(** One assignment for each rank from [i] to [j - 1]. *)
Lemma omap_cons_Some {A B} (f : A -> option B) x y l :
  f x = Some y -> omap f (x :: l) = y :: omap f l.
Proof. intros Hx. simpl. by rewrite Hx. Qed.

Lemma writes_over_range n i (v : number) :
  i + n <= length ss ->
  length (omap (fun k => (fun r => (row_id r, v)) <$> ss !! k) (seq i n)) = n
  /\ forall k r, i <= k < i + n -> ss !! k = Some r ->
       omap (fun k => (fun r => (row_id r, v)) <$> ss !! k) (seq i n) !! (k - i)
       = Some (row_id r, v).
Proof.
  revert i. induction n as [|n IH]; intros i Hlen; [split; [reflexivity | lia]|].
  destruct (ss !! i) as [ri|] eqn:Hi;
    [|apply lookup_ge_None in Hi; lia].
  destruct (IH (S i)) as [IHlen IHk]; [lia|].
  cbn [seq]. rewrite (omap_cons_Some _ i (row_id ri, v)) by (by rewrite Hi).
  split; [cbn [length]; by rewrite IHlen|].
  intros k r Hk Hr. destruct (decide (k = i)) as [->|Hne].
  - rewrite Nat.sub_diag. cbn. congruence.
  - replace (k - i) with (S (k - S i)) by lia. cbn. apply IHk; [lia | assumption].
Qed.
Lemma writes_length i j (v : number) :
  i <= j <= length ss -> length (writes ss i j v) = j - i.
Proof. intros Hj. apply writes_over_range. lia. Qed.

Lemma writes_lookup i j (v : number) k r :
  j <= length ss -> i <= k < j -> ss !! k = Some r ->
  writes ss i j v !! (k - i) = Some (row_id r, v).
Proof.
  intros Hj Hk Hr. unfold writes.
  apply (proj2 (writes_over_range (j - i) i v ltac:(lia))); [lia | assumption].
Qed.

(** The assignment made for a member of a maximal run is the average of
    the run. *)
Lemma alloc_writes_run fuel i a b k r :
  length ss - i <= fuel ->
  scored_first ss -> maximal_run ss a b -> i <= a ->
  a <= k < b -> ss !! k = Some r ->
  alloc_writes ss table fuel i !! (k - i)
  = Some (row_id r, run_average table a b).
Proof.
  intros Hfuel Hsf Hrun Hia Hk Hr. revert i Hfuel Hia.
  pose proof (lookup_lt_Some _ _ _ Hr) as Hlen.
  induction fuel as [|fuel IH]; intros i Hfuel Hia; [lia|].
  cbn [alloc_writes]. destruct (ss !! i) as [cur|] eqn:Hi;
    [|apply lookup_ge_None in Hi; lia].
  pose proof (lookup_lt_Some _ _ _ Hi) as Hleni.
  destruct (row_score cur) as [c|] eqn:Hc.
  - pose proof (scan_ties_ge ss (length ss) c (i + 1)) as Hge.
    pose proof (scan_ties_le ss (length ss) c (i + 1) ltac:(lia)) as Hle.
    destruct (decide (i = a)) as [->|Hne].
    + rewrite (code_run_is_maximal_run a b cur c Hi Hc Hrun) in *.
      rewrite lookup_app_l by (rewrite writes_length by lia; lia).
      by apply writes_lookup.
    + pose proof (code_run_before_maximal_run i a b cur c Hi Hc Hrun ltac:(lia))
        as Hja.
      rewrite lookup_app_r by (rewrite writes_length by lia; lia).
      rewrite writes_length by lia.
      replace (k - i - (scan_ties ss (length ss) c (i + 1) - i))
        with (k - scan_ties ss (length ss) c (i + 1)) by lia.
      apply IH; lia.
  - exfalso. destruct Hrun as (Hab & [x Hx] & _).
    destruct (ss !! a) as [ra|] eqn:Ha;
      [|unfold score_at in Hx; rewrite Ha in Hx; discriminate].
    rewrite (score_at_Some _ _ Ha) in Hx.
    destruct (decide (i = a)) as [->|Hne]; [congruence|].
    rewrite (Hsf i a cur ra) in Hx; [discriminate | lia | done..].
Qed.

End AllocationRuns.

(** C4. A member of a run whose id is [__proto__] is awarded nothing:
    of the scores [10, 10, 5] under the ids [__proto__], [b] and [c],
    with the table [25, 18, 15], the result holds 21.5 for [b] and 15
    for [c] and nothing for [__proto__]. For the rest the rule holds:
    on a list with all scored entries before the unscored ones, every
    maximal run of consecutive entries with an identical score is
    assigned the average of the points-table values at the ranks it
    occupies (0 past the end of the table), each member the same
    amount, and the returned mapping holds that value for the member's
    id unless a later entry has the same id or the id is [__proto__]
    (the result is the assignments carried out in order). Scores
    [10, 10, 5] with table [25, 18, 15] give 21.5, 21.5 and 15. *)
Theorem allocatePointsByRank_ties :
  allocatePointsByRank
    [ {| row_id := PROTO; row_score := Some 10%float |};
      {| row_id := js "b"; row_score := Some 10%float |};
      {| row_id := js "c"; row_score := Some 5%float |} ]
    [25; 18; 15]%float
  = {[ js "b" := 21.5%float; js "c" := 15%float ]}
  /\ (forall ss table,
        allocatePointsByRank ss table = apply_writes (awards ss table) ∅)
  /\ (forall ss table i j k r,
        scored_first ss -> maximal_run ss i j ->
        i <= k < j -> ss !! k = Some r ->
        awards ss table !! k = Some (row_id r, run_average table i j)
        /\ (last_with_id ss k -> row_id r <> PROTO ->
            allocatePointsByRank ss table !! row_id r
            = Some (run_average table i j))
        /\ (row_id r = PROTO ->
            allocatePointsByRank ss table !! row_id r = None))
  /\ (forall a b c,
        a <> b -> a <> c -> b <> c ->
        a <> PROTO -> b <> PROTO -> c <> PROTO ->
        let points :=
          allocatePointsByRank
            [ {| row_id := a; row_score := Some 10%float |};
              {| row_id := b; row_score := Some 10%float |};
              {| row_id := c; row_score := Some 5%float |} ]
            [25; 18; 15]%float in
        points !! a = Some 21.5%float /\ points !! b = Some 21.5%float
        /\ points !! c = Some 15%float).
Proof.
  split; [|split; [|split]].
  - vm_compute. reflexivity.
  - intros ss table. apply alloc_loop_apply_writes.
  - intros ss table i j k r Hsf Hrun Hk Hr. split; [|split].
    + unfold awards. replace k with (k - 0) at 1 by lia.
      apply (alloc_writes_run ss table (length ss) 0 i j k r);
        (lia || assumption).
    + intros Hlast Hp. unfold allocatePointsByRank.
      apply (alloc_loop_run ss table (length ss) 0 ∅ i j k r);
        (lia || assumption).
    + intros ->. unfold allocatePointsByRank.
      rewrite alloc_loop_proto. apply lookup_empty.
  - intros a b c Hab Hac Hbc Ha Hb Hc. unfold allocatePointsByRank. simpl.
    unfold assign. simpl. unfold set_number. rewrite !decide_False by done.
    repeat split.
    + rewrite lookup_insert_ne, lookup_insert_ne, lookup_insert_eq by congruence.
      reflexivity.
    + rewrite lookup_insert_ne, lookup_insert_eq by congruence. reflexivity.
    + rewrite lookup_insert_eq. reflexivity.
Qed.

Lemma allocatePointsByRank_ties_witness :
  awards sample_rows [25; 18; 15]%float !! 1
  = Some (js "ben", run_average [25; 18; 15]%float 0 2)
  /\ allocatePointsByRank sample_rows [25; 18; 15]%float !! js "ben"
     = Some (run_average [25; 18; 15]%float 0 2).
Proof.
  destruct (proj1 (proj2 (proj2 allocatePointsByRank_ties)) sample_rows
              [25; 18; 15]%float 0 2 1
              {| row_id := js "ben"; row_score := Some 10%float |})
    as (Haward & Hpoints & _).
  - intros a b ra rb _ Ha _ Hnull.
    destruct a as [|[|[|a]]]; simpl in Ha; try discriminate;
      injection Ha as <-; discriminate.
  - repeat split.
    + lia.
    + simpl. lia.
    + eexists. reflexivity.
    + intros k H1 H2. assert (k = 0) as -> by lia. reflexivity.
    + left. reflexivity.
    + right. reflexivity.
  - lia.
  - reflexivity.
  - split; [exact Haward|]. apply Hpoints.
    + intros r Hr k' r' Hk' Hr'. simpl in Hr. injection Hr as <-.
      destruct k' as [|[|[|k']]]; simpl in Hr'; try lia; try discriminate.
      injection Hr' as <-. simpl. intros H. vm_compute in H. discriminate.
    + intros H. vm_compute in H. discriminate.
Defined.

(** C5. An entry whose id is [__proto__] is left out of the result of
    [allocatePointsByRank]: of two unscored entries with the ids
    [__proto__] and [b] the result holds [b] alone, and no result ever
    holds the key [__proto__]. Every other id of the input has an entry,
    and an unscored entry with such an id has exactly 0 points, whatever
    the points table (this needs neither distinct ids nor the order of
    the list). *)
Theorem allocatePointsByRank_omits_proto :
  (forall table,
     allocatePointsByRank [ {| row_id := PROTO; row_score := None |};
                            {| row_id := js "b"; row_score := None |} ] table
     = {[ js "b" := 0%float ]})
  /\ (forall table,
        allocatePointsByRank
          [ {| row_id := PROTO; row_score := Some 10%float |};
            {| row_id := js "b"; row_score := Some 10%float |} ] table
        = {[ js "b" := run_average table 0 2 ]})
  /\ (forall ss table, allocatePointsByRank ss table !! PROTO = None)
  /\ (forall ss table r,
        r ∈ ss -> row_id r <> PROTO ->
        is_Some (allocatePointsByRank ss table !! row_id r))
  /\ (forall ss table r,
        r ∈ ss -> row_score r = None -> row_id r <> PROTO ->
        allocatePointsByRank ss table !! row_id r = Some 0%float).
Proof.
  assert (js "b" <> PROTO) as Hb by (intros H; vm_compute in H; discriminate).
  split; [|split; [|split; [|split]]].
  - intros table. unfold allocatePointsByRank.
    cbn [length alloc_loop lookup list_lookup row_score].
    unfold assign. cbn [length seq Nat.sub fold_left lookup list_lookup row_id].
    unfold set_number. destruct (decide (PROTO = PROTO)); [|done].
    destruct (decide (js "b" = PROTO)); [done|]. apply insert_empty.
  - intros table. unfold allocatePointsByRank.
    cbn [length alloc_loop lookup list_lookup row_score].
    change (scan_ties _ 2 10%float (0 + 1)) with 2.
    unfold assign. cbn [length seq Nat.sub fold_left lookup list_lookup row_id].
    unfold set_number. destruct (decide (PROTO = PROTO)); [|done].
    destruct (decide (js "b" = PROTO)); [done|]. apply insert_empty.
  - intros ss table. unfold allocatePointsByRank.
    rewrite alloc_loop_proto. apply lookup_empty.
  - intros ss table r Hin Hp. apply list_elem_of_lookup in Hin as [k Hk].
    unfold allocatePointsByRank.
    apply (alloc_loop_present ss table (length ss) 0 ∅ k r); (lia || assumption).
  - intros ss table r Hin Hnull Hp. apply list_elem_of_lookup in Hin as [k Hk].
    unfold allocatePointsByRank.
    apply (alloc_loop_unscored ss table (length ss) 0 ∅ k r); (lia || assumption).
Qed.

(** ** Event store and reconciliation *)

Lemma eventKey_inj a b : eventKey a = eventKey b -> a = b.
Proof. unfold eventKey. apply app_inv_head. Qed.

Lemma eventKey_not_index eid : eventKey eid <> KEY_INDEX.
Proof.
  intros Heq. apply (f_equal (fun l : jsstring => l !! 8%nat)) in Heq.
  vm_compute in Heq. discriminate.
Qed.

Section Reconciliation.
Context `{JSON State} `{JSON (list EventMeta)}.
Variable randomUUID : nat -> EID.
Variable now : number.

Lemma store_new_event_storage eid s w k :
  storage (store_new_event now eid s w) !! k
  = if decide (k = KEY_INDEX) then Some (JSON_stringify (new_meta now eid s :: index w))
    else if decide (k = eventKey eid) then Some (JSON_stringify s)
    else storage w !! k.
Proof.
  unfold store_new_event, saveIndex, saveEvent. simpl.
  destruct (decide (k = KEY_INDEX)) as [->|Hk]; [apply lookup_insert_eq|].
  rewrite lookup_insert_ne by congruence.
  destruct (decide (k = eventKey eid)) as [->|Hk']; [apply lookup_insert_eq|].
  by rewrite lookup_insert_ne.
Qed.

Lemma loadEvent_store_new_event eid s w e :
  loadEvent e (storage (store_new_event now eid s w))
  = if decide (e = eid)
    then (if is_empty (JSON_stringify s) then None else JSON_parse (JSON_stringify s))
    else loadEvent e (storage w).
Proof.
  unfold loadEvent. rewrite store_new_event_storage.
  destruct (decide (eventKey e = KEY_INDEX)) as [Hk|_];
    [by apply eventKey_not_index in Hk|].
  destruct (decide (e = eid)) as [->|Hne].
  - by rewrite decide_True.
  - rewrite decide_False; [reflexivity|]. intros Heq. by apply eventKey_inj in Heq.
Qed.

End Reconciliation.

(** At the type [State] the functions on what JSON.parse returns are the
    typed ones. *)
Lemma addOrForkEvent_untyped `{JSON State} `{JSON (list EventMeta)}
  randomUUID now payload_eid (s : State) w :
  addOrForkEvent randomUUID now payload_eid s w
  = Untyped.addOrForkEvent title randomUUID now payload_eid s w.
Proof. reflexivity. Qed.

Lemma loadEvent_untyped `{JSON State} eid ls :
  loadEvent eid ls = Untyped.loadEvent (T := State) eid ls.
Proof. reflexivity. Qed.

Section UntypedReconciliation.
Context {T : Type} `{JSON T} `{JSON (list EventMeta)}.
Variable title_of : T -> jsstring.
Variable randomUUID : nat -> EID.
Variable now : number.

Lemma untyped_store_new_event_storage eid (s : T) w k :
  storage (Untyped.store_new_event title_of now eid s w) !! k
  = if decide (k = KEY_INDEX)
    then Some (JSON_stringify (new_meta_of title_of now eid s :: index w))
    else if decide (k = eventKey eid) then Some (JSON_stringify s)
    else storage w !! k.
Proof.
  unfold Untyped.store_new_event, saveIndex, Untyped.saveEvent. simpl.
  destruct (decide (k = KEY_INDEX)) as [->|Hk]; [apply lookup_insert_eq|].
  rewrite lookup_insert_ne by congruence.
  destruct (decide (k = eventKey eid)) as [->|Hk']; [apply lookup_insert_eq|].
  by rewrite lookup_insert_ne.
Qed.

Lemma untyped_loadEvent_store_new_event eid (s : T) w e :
  Untyped.loadEvent (T := T) e
    (storage (Untyped.store_new_event title_of now eid s w))
  = if decide (e = eid)
    then (if is_empty (JSON_stringify s) then None
          else JSON_parse (JSON_stringify s))
    else Untyped.loadEvent e (storage w).
Proof.
  unfold Untyped.loadEvent. rewrite untyped_store_new_event_storage.
  destruct (decide (eventKey e = KEY_INDEX)) as [Hk|_];
    [by apply eventKey_not_index in Hk|].
  destruct (decide (e = eid)) as [->|Hne].
  - by rewrite decide_True.
  - rewrite decide_False; [reflexivity|]. intros Heq. by apply eventKey_inj in Heq.
Qed.

(** C2. For snapshots of any type ([State] among them): when the
    snapshot stored under [id] has the same JSON text as the incoming
    one, [addOrForkEvent] returns the stored copy and changes neither
    localStorage nor the index, however often it is repeated; when the
    texts differ it takes a new identifier and adds an index entry. An
    unknown [id] is stored by the first import, with one index entry
    that is saved, and a second import of the same payload then changes
    nothing: one stored event, not two. *)
Theorem addOrForkEvent_idempotent :
  (forall id (s existing : T) w,
     Untyped.loadEvent id (storage w) = Some existing ->
     JSON_stringify existing = JSON_stringify s ->
     Untyped.addOrForkEvent title_of randomUUID now (Some id) s w
     = ((id, existing), w)
     /\ Untyped.addOrForkEvent title_of randomUUID now (Some id) s
          (snd (Untyped.addOrForkEvent title_of randomUUID now (Some id) s w))
        = ((id, existing), w))
  /\ (forall id (s existing : T) w,
        Untyped.loadEvent id (storage w) = Some existing ->
        JSON_stringify existing <> JSON_stringify s ->
        let w' :=
          snd (Untyped.addOrForkEvent title_of randomUUID now (Some id) s w) in
        fst (Untyped.addOrForkEvent title_of randomUUID now (Some id) s w)
        = (randomUUID (drawn w), s)
        /\ index w' = new_meta_of title_of now (randomUUID (drawn w)) s :: index w)
  /\ (forall id (s : T) w,
        Untyped.loadEvent (T := T) id (storage w) = None -> text_stable s ->
        let w1 :=
          snd (Untyped.addOrForkEvent title_of randomUUID now (Some id) s w) in
        let w2 :=
          snd (Untyped.addOrForkEvent title_of randomUUID now (Some id) s w1) in
        fst (Untyped.addOrForkEvent title_of randomUUID now (Some id) s w)
        = (id, s)
        /\ storage w1 !! eventKey id = Some (JSON_stringify s)
        /\ index w1 = new_meta_of title_of now id s :: index w
        /\ storage w1 !! KEY_INDEX = Some (JSON_stringify (index w1))
        /\ (forall e, e <> id ->
              storage w1 !! eventKey e = storage w !! eventKey e)
        /\ fst (fst (Untyped.addOrForkEvent title_of randomUUID now
                       (Some id) s w1)) = id
        /\ w2 = w1).
Proof.
  split; [|split].
  - intros id s existing w Hload Hsame.
    assert (Hfirst : Untyped.addOrForkEvent title_of randomUUID now (Some id) s w
                     = ((id, existing), w)).
    { unfold Untyped.addOrForkEvent. rewrite Hload. by rewrite decide_True. }
    split; [assumption|]. by rewrite Hfirst.
  - intros id s existing w Hload Hdiff. cbv zeta.
    unfold Untyped.addOrForkEvent. rewrite Hload.
    rewrite decide_False by done. done.
  - intros id s w Hnone (Hne & s0 & Hparse & Hsame). cbv zeta.
    assert (Hfirst : Untyped.addOrForkEvent title_of randomUUID now (Some id) s w
                     = ((id, s), Untyped.store_new_event title_of now id s w)).
    { unfold Untyped.addOrForkEvent. by rewrite Hnone. }
    rewrite Hfirst. cbn [fst snd].
    assert (Hload : Untyped.loadEvent id
                      (storage (Untyped.store_new_event title_of now id s w))
                    = Some s0).
    { rewrite untyped_loadEvent_store_new_event, decide_True by reflexivity.
      destruct (JSON_stringify s); [congruence | exact Hparse]. }
    assert (Hsecond : Untyped.addOrForkEvent title_of randomUUID now (Some id) s
                        (Untyped.store_new_event title_of now id s w)
                      = ((id, s0), Untyped.store_new_event title_of now id s w)).
    { unfold Untyped.addOrForkEvent. rewrite Hload. by rewrite decide_True. }
    rewrite Hsecond. cbn [fst snd]. repeat split.
    + rewrite untyped_store_new_event_storage.
      rewrite decide_False by apply eventKey_not_index. by rewrite decide_True.
    + rewrite untyped_store_new_event_storage. by rewrite decide_True.
    + intros e He. rewrite untyped_store_new_event_storage.
      rewrite decide_False by apply eventKey_not_index.
      rewrite decide_False; [reflexivity|]. intros Heq. by apply eventKey_inj in Heq.
Qed.


End UntypedReconciliation.

(** ** Base64 *)

Section Base64Facts.
Local Open Scope Z_scope.

Lemma list_ind3 {A} (P : list A -> Prop) :
  P [] -> (forall a, P [a]) -> (forall a b, P [a; b]) ->
  (forall a b c r, P r -> P (a :: b :: c :: r)) ->
  forall l, P l.
Proof.
  intros H0 H1 H2 H3 l.
  assert (Hall : P l /\ (forall a, P (a :: l)) /\ (forall a b, P (a :: b :: l))).
  { induction l as [|x l (IH0 & IH1 & IH2)]; [auto|].
    split; [apply IH1|]. split; [intros a; apply IH2|]. intros a b. by apply H3. }
  apply Hall.
Qed.

Lemma b64_index_char i : is_sextet i -> b64_index (b64_char i) = Some i.
Proof.
  unfold is_sextet, b64_index, b64_char. intros Hi.
  repeat (case_match; try lia); f_equal; lia.
Qed.

Lemma b64_char_plain i :
  is_sextet i ->
  b64_char i <> 61 /\ is_ascii_whitespace (b64_char i) = false
  /\ is_js_space (b64_char i) = false.
Proof.
  unfold is_sextet, b64_char, is_ascii_whitespace, is_js_space. intros Hi.
  repeat case_match; (split; [lia|]); split; lia.
Qed.

Lemma sextets_range bs : Forall is_byte bs -> Forall is_sextet (sextets bs).
Proof.
  unfold is_byte, is_sextet.
  induction bs as [|a|a b|a b c r IH] using list_ind3; intros Hb; simpl.
  - constructor.
  - inversion_clear Hb. repeat (apply Forall_cons_2; [divlia|]). constructor.
  - inversion_clear Hb as [|? ? Ha Hb']. inversion_clear Hb'.
    repeat (apply Forall_cons_2; [divlia|]). constructor.
  - inversion_clear Hb as [|? ? Ha Hb1]. inversion_clear Hb1 as [|? ? Hb Hb2].
    inversion_clear Hb2 as [|? ? Hc Hr].
    repeat (apply Forall_cons_2; [divlia|]). by apply IH.
Qed.

Lemma unsextets_sextets bs : Forall is_byte bs -> unsextets (sextets bs) = bs.
Proof.
  unfold is_byte.
  induction bs as [|a|a b|a b c r IH] using list_ind3; intros Hb.
  - reflexivity.
  - inversion_clear Hb. simpl. f_equal. divlia.
  - inversion_clear Hb as [|? ? Ha Hb']. inversion_clear Hb'.
    simpl. f_equal; [|f_equal]; divlia.
  - inversion_clear Hb as [|? ? Ha Hb1]. inversion_clear Hb1 as [|? ? Hb Hb2].
    inversion_clear Hb2 as [|? ? Hc Hr].
    change (sextets (a :: b :: c :: r))
      with (a / 4 :: (a mod 4) * 16 + b / 16 :: (b mod 16) * 4 + c / 64
              :: c mod 64 :: sextets r).
    change (unsextets (?w :: ?x :: ?y :: ?z :: ?t))
      with (let n := ((w * 64 + x) * 64 + y) * 64 + z in
            n / 65536 :: (n / 256) mod 256 :: n mod 256 :: unsextets t).
    cbv zeta. rewrite (IH Hr). f_equal; [|f_equal; [|f_equal]]; divlia.
Qed.

Lemma mapM_b64_index l :
  Forall is_sextet l -> mapM b64_index (map b64_char l) = Some l.
Proof.
  induction 1 as [|i l Hi Hl IH]; [reflexivity|].
  simpl. rewrite (b64_index_char i Hi). simpl. rewrite IH. reflexivity.
Qed.

(** The length of the groups and of the padding, by the number of bytes
    modulo 3. *)
Lemma sextets_shape bs :
  exists q : nat,
    (b64_padding (length bs) = [] /\ length (sextets bs) = (4 * q)%nat)
    \/ (b64_padding (length bs) = [61] /\ length (sextets bs) = (4 * q + 3)%nat)
    \/ (b64_padding (length bs) = [61; 61]
        /\ length (sextets bs) = (4 * q + 2)%nat).
Proof.
  induction bs as [|a|a b|a b c r IH] using list_ind3.
  - exists 0%nat. left. split; reflexivity.
  - exists 0%nat. right. right. split; reflexivity.
  - exists 0%nat. right. left. split; reflexivity.
  - destruct IH as (q & IH). exists (S q).
    assert (Hpad : b64_padding (length (a :: b :: c :: r)) = b64_padding (length r)).
    { unfold b64_padding. cbn [length].
      replace (S (S (S (length r)))) with (length r + 1 * 3)%nat by lia.
      by rewrite Nat.Div0.mod_add. }
    rewrite Hpad.
    change (length (sextets (a :: b :: c :: r)))
      with (S (S (S (S (length (sextets r)))))).
    destruct IH as [[-> ->] | [[-> ->] | [-> ->]]]; [left | right; left | right; right];
      (split; [reflexivity | lia]).
Qed.

Lemma strip_padding_plain chars pad :
  Forall (fun c => c <> 61) chars ->
  pad = [] \/ pad = [61] \/ pad = [61; 61] ->
  strip_padding (chars ++ pad) = chars.
Proof.
  intros Hplain Hpad. unfold strip_padding. rewrite rev_app_distr.
  assert (Hrev : match rev chars with
                 | 61 :: _ => False
                 | _ => True
                 end).
  { apply Forall_rev in Hplain. destruct Hplain as [|c l Hc _]; [exact I|].
    repeat (destruct c as [|c|c]; try exact I; try lia). }
  destruct Hpad as [-> | [-> | ->]]; simpl.
  - rewrite app_nil_r.
    destruct (rev chars) as [|c l] eqn:Hr; [reflexivity|].
    repeat (destruct c as [|c|c]; try reflexivity; try contradiction).
  - destruct (rev chars) as [|c l] eqn:Hr.
    + apply (f_equal (@rev Z)) in Hr. rewrite rev_involutive in Hr. by subst.
    + rewrite <- Hr, rev_involutive.
      repeat (destruct c as [|c|c]; try reflexivity; try contradiction).
  - apply rev_involutive.
Qed.

Lemma filter_all {A} (f : A -> bool) (l : list A) :
  Forall (fun x => f x = false) l -> filter (fun x => f x = false) l = l.
Proof.
  induction 1 as [|x l Hx Hl IH]; [reflexivity|].
  rewrite filter_cons_True by assumption. by rewrite IH.
Qed.

Lemma trimStart_plain s :
  match s with c :: _ => is_js_space c = false | [] => True end ->
  trimStart s = s.
Proof. destruct s as [|c r]; [reflexivity|]. simpl. by intros ->. Qed.

Lemma trim_plain s : Forall (fun c => is_js_space c = false) s -> trim s = s.
Proof.
  intros Hs. unfold trim, trimEnd.
  rewrite (trimStart_plain s) by (destruct Hs; auto).
  rewrite trimStart_plain; [apply rev_involutive|].
  apply Forall_rev in Hs. destruct Hs; auto.
Qed.

Lemma btoa_bytes bs : Forall is_byte bs -> btoa bs = Some (base64 bs).
Proof.
  intros Hb. unfold btoa.
  rewrite (proj2 (forallb_forall _ bs)); [reflexivity|].
  intros b Hin. rewrite Forall_forall in Hb.
  specialize (Hb b (proj2 (list_elem_of_In _ _) Hin)). unfold is_byte in Hb. lia.
Qed.

Lemma base64_chars bs :
  Forall is_byte bs ->
  Forall (fun c => c <> 61 /\ is_ascii_whitespace c = false
                   /\ is_js_space c = false)
         (map b64_char (sextets bs)).
Proof.
  intros Hb. apply Forall_map. eapply Forall_impl; [apply sextets_range, Hb|].
  intros i Hi. by apply b64_char_plain.
Qed.

Lemma atob_base64 bs : Forall is_byte bs -> atob (trim (base64 bs)) = Some bs.
Proof.
  intros Hb. pose proof (base64_chars bs Hb) as Hchars.
  destruct (sextets_shape bs) as (q & Hshape).
  assert (Hpad : b64_padding (length bs) = [] \/ b64_padding (length bs) = [61]
                 \/ b64_padding (length bs) = [61; 61]) by naive_solver.
  assert (Hall : Forall (fun c => is_ascii_whitespace c = false
                                  /\ is_js_space c = false) (base64 bs)).
  { unfold base64. apply Forall_app. split.
    - eapply Forall_impl; [exact Hchars|]. naive_solver.
    - destruct Hpad as [-> | [-> | ->]]; repeat constructor. }
  rewrite trim_plain by (eapply Forall_impl; [exact Hall|]; naive_solver).
  unfold atob.
  rewrite (filter_all is_ascii_whitespace)
    by (eapply Forall_impl; [exact Hall|]; naive_solver).
  assert (Hlen : (length (base64 bs) mod 4 =? 0)%nat = true).
  { unfold base64. rewrite length_app, length_map. apply Nat.eqb_eq.
    destruct Hshape as [[-> ->] | [[-> ->] | [-> ->]]]; simpl length.
    - rewrite Nat.add_0_r, Nat.mul_comm. apply Nat.Div0.mod_mul.
    - replace (4 * q + 3 + 1)%nat with ((q + 1) * 4)%nat by lia.
      apply Nat.Div0.mod_mul.
    - replace (4 * q + 2 + 2)%nat with ((q + 1) * 4)%nat by lia.
      apply Nat.Div0.mod_mul. }
  rewrite Hlen. unfold base64.
  rewrite strip_padding_plain;
    [| eapply Forall_impl; [exact Hchars|]; naive_solver | exact Hpad].
  assert (Hlen' : (length (map b64_char (sextets bs)) mod 4 =? 1)%nat = false).
  { rewrite length_map. apply Nat.eqb_neq.
    destruct Hshape as [[_ ->] | [[_ ->] | [_ ->]]].
    - rewrite Nat.mul_comm, Nat.Div0.mod_mul. lia.
    - rewrite Nat.add_comm, Nat.mul_comm, Nat.Div0.mod_add. simpl. lia.
    - rewrite Nat.add_comm, Nat.mul_comm, Nat.Div0.mod_add. simpl. lia. }
  rewrite Hlen'. rewrite mapM_b64_index by (apply sextets_range, Hb).
  simpl. f_equal. by apply unsextets_sextets.
Qed.

End Base64Facts.

(** ** UTF-16 and UTF-8 *)

Section UnicodeFacts.
Local Open Scope Z_scope.

Lemma scalar_values_well_formed_bounded (n : nat) s :
  (length s <= n)%nat -> well_formed s = true ->
  Forall is_scalar (scalar_values s)
  /\ flat_map utf16_units (scalar_values s) = s.
Proof.
  revert s. induction n as [|n IH]; intros s Hlen Hwf.
  - destruct s; [split; [constructor | reflexivity] | simpl in Hlen; lia].
  - destruct s as [|c r]; [split; [constructor | reflexivity]|].
    simpl in Hwf |- *. destruct (is_high_surrogate c) eqn:Hhigh.
    + destruct r as [|d r']; [discriminate|].
      apply andb_true_iff in Hwf as [Hlow Hwf]. rewrite Hlow.
      destruct (IH r') as [Hsc Hunits]; [simpl in Hlen; lia | assumption|].
      unfold is_high_surrogate, is_low_surrogate in Hhigh, Hlow.
      split.
      * constructor; [unfold is_scalar; lia | assumption].
      * cbn [flat_map]. rewrite Hunits. unfold utf16_units.
        case_match; [lia|]. simpl. f_equal; [|f_equal]; divlia.
    + apply andb_true_iff in Hwf as [Hwf Hr].
      apply andb_true_iff in Hwf as [Hwf Hhi].
      apply andb_true_iff in Hwf as [Hlow Hlo].
      apply negb_true_iff in Hlow. rewrite Hlow.
      destruct (IH r) as [Hsc Hunits]; [simpl in Hlen; lia | assumption|].
      unfold is_high_surrogate, is_low_surrogate in Hhigh, Hlow.
      split.
      * constructor; [unfold is_scalar; lia | assumption].
      * cbn [flat_map]. rewrite Hunits. unfold utf16_units.
        case_match; [reflexivity | lia].
Qed.

Lemma scalar_values_well_formed s :
  well_formed s = true ->
  Forall is_scalar (scalar_values s)
  /\ flat_map utf16_units (scalar_values s) = s.
Proof. apply (scalar_values_well_formed_bounded (length s)). lia. Qed.

Lemma scalar_values_head s :
  well_formed s = true ->
  match s with c :: _ => c <> 65279 | [] => True end ->
  match scalar_values s with c :: _ => c <> 65279 | [] => True end.
Proof.
  destruct s as [|c r]; [auto|]. simpl. intros Hwf Hc.
  destruct (is_high_surrogate c) eqn:Hhigh.
  - destruct r as [|d r']; [discriminate|].
    apply andb_true_iff in Hwf as [Hlow _]. rewrite Hlow.
    unfold is_high_surrogate, is_low_surrogate in Hhigh, Hlow. lia.
  - destruct (is_low_surrogate c); [unfold REPLACEMENT; lia | assumption].
Qed.

Lemma utf8_bytes_range c : is_scalar c -> Forall is_byte (utf8_bytes c).
Proof.
  unfold is_scalar, utf8_bytes, is_byte. intros Hc.
  repeat case_match; repeat (apply Forall_cons_2; [divlia|]); constructor.
Qed.

Lemma utf8_run_cons st b r :
  utf8_run st (b :: r) = (utf8_step st b).2 ++ utf8_run (utf8_step st b).1 r.
Proof. simpl. by destruct (utf8_step st b). Qed.

Lemma utf8_lead_1 b : 0 <= b <= 127 -> utf8_lead b = (utf8_decoder_init, [Some b]).
Proof. intros Hb. unfold utf8_lead. case_match; [reflexivity | lia]. Qed.

Lemma utf8_lead_2 b :
  194 <= b <= 223 ->
  utf8_lead b = ({| code_point := b mod 32; bytes_seen := 0; bytes_needed := 1;
                    lower_boundary := 128; upper_boundary := 191 |}, []).
Proof.
  intros Hb. unfold utf8_lead.
  case_match; [lia|]. case_match; [reflexivity | lia].
Qed.

Lemma utf8_lead_3 b :
  224 <= b <= 239 ->
  utf8_lead b = ({| code_point := b mod 16; bytes_seen := 0; bytes_needed := 2;
                    lower_boundary := if b =? 224 then 160 else 128;
                    upper_boundary := if b =? 237 then 159 else 191 |}, []).
Proof.
  intros Hb. unfold utf8_lead.
  case_match; [lia|]. case_match; [lia|]. case_match; [reflexivity | lia].
Qed.

Lemma utf8_lead_4 b :
  240 <= b <= 244 ->
  utf8_lead b = ({| code_point := b mod 8; bytes_seen := 0; bytes_needed := 3;
                    lower_boundary := if b =? 240 then 144 else 128;
                    upper_boundary := if b =? 244 then 143 else 191 |}, []).
Proof.
  intros Hb. unfold utf8_lead.
  case_match; [lia|]. case_match; [lia|]. case_match; [lia|].
  case_match; [reflexivity | lia].
Qed.

Lemma utf8_step_init b : utf8_step utf8_decoder_init b = utf8_lead b.
Proof. reflexivity. Qed.

Lemma utf8_step_more st b :
  bytes_needed st <> 0 -> lower_boundary st <= b <= upper_boundary st ->
  bytes_seen st + 1 <> bytes_needed st ->
  utf8_step st b
  = ({| code_point := code_point st * 64 + b mod 64;
        bytes_seen := bytes_seen st + 1;
        bytes_needed := bytes_needed st;
        lower_boundary := 128; upper_boundary := 191 |}, []).
Proof.
  intros Hn Hb Hs. unfold utf8_step.
  case_match; [lia|]. case_match; [lia|]. case_match; [lia | reflexivity].
Qed.

Lemma utf8_step_last st b :
  bytes_needed st <> 0 -> lower_boundary st <= b <= upper_boundary st ->
  bytes_seen st + 1 = bytes_needed st ->
  utf8_step st b
  = (utf8_decoder_init, [Some (code_point st * 64 + b mod 64)]).
Proof.
  intros Hn Hb Hs. unfold utf8_step.
  case_match; [lia|]. case_match; [lia|]. case_match; [reflexivity | lia].
Qed.

Ltac utf8_side := cbn; repeat case_match; divlia.

(** The decoder reads the bytes of a scalar value back as that value and
    is then ready for the next sequence. *)
Lemma utf8_run_bytes c rest :
  is_scalar c ->
  utf8_run utf8_decoder_init (utf8_bytes c ++ rest)
  = Some c :: utf8_run utf8_decoder_init rest.
Proof.
  unfold is_scalar, utf8_bytes. intros Hc.
  destruct (Z.ltb_spec c 128) as [H1|H1];
    [|destruct (Z.ltb_spec c 2048) as [H2|H2];
      [|destruct (Z.ltb_spec c 65536) as [H3|H3]]]; cbn [app].
  - rewrite utf8_run_cons, utf8_step_init, utf8_lead_1 by lia. reflexivity.
  - rewrite utf8_run_cons, utf8_step_init, utf8_lead_2 by divlia. cbn [fst snd app].
    rewrite utf8_run_cons, utf8_step_last by utf8_side.
    cbn [fst snd app code_point]. f_equal. f_equal. divlia.
  - rewrite utf8_run_cons, utf8_step_init, utf8_lead_3 by divlia. cbn [fst snd app].
    rewrite utf8_run_cons, utf8_step_more by utf8_side. cbn [fst snd app].
    rewrite utf8_run_cons, utf8_step_last by utf8_side.
    cbn [fst snd app code_point]. f_equal. f_equal. divlia.
  - rewrite utf8_run_cons, utf8_step_init, utf8_lead_4 by divlia. cbn [fst snd app].
    rewrite utf8_run_cons, utf8_step_more by utf8_side. cbn [fst snd app].
    rewrite utf8_run_cons, utf8_step_more by utf8_side. cbn [fst snd app].
    rewrite utf8_run_cons, utf8_step_last by utf8_side.
    cbn [fst snd app code_point]. f_equal. f_equal. divlia.
Qed.

Lemma utf8_run_encode cps :
  Forall is_scalar cps ->
  utf8_run utf8_decoder_init (flat_map utf8_bytes cps) = map Some cps.
Proof.
  induction 1 as [|c cps Hc Hcps IH]; [reflexivity|].
  cbn [flat_map map]. rewrite utf8_run_bytes by assumption. by rewrite IH.
Qed.

Lemma TextEncoder_encode_bytes s :
  well_formed s = true -> Forall is_byte (TextEncoder_encode s).
Proof.
  intros Hwf. unfold TextEncoder_encode.
  destruct (scalar_values_well_formed s Hwf) as [Hsc _].
  induction Hsc as [|c cps Hc Hcps IH]; [constructor|].
  cbn [flat_map]. apply Forall_app. split; [by apply utf8_bytes_range | exact IH].
Qed.

(** A text that is well formed and does not start with a byte order mark
    is what the decoder reads back from its encoding. *)
Lemma TextDecoder_decode_encode s :
  well_formed s = true ->
  match s with c :: _ => c <> 65279 | [] => True end ->
  TextDecoder_decode (TextEncoder_encode s) = s.
Proof.
  intros Hwf Hbom. unfold TextDecoder_decode, TextEncoder_encode.
  destruct (scalar_values_well_formed s Hwf) as [Hsc Hunits].
  rewrite utf8_run_encode by assumption.
  rewrite map_map. cbn [default]. rewrite map_id.
  pose proof (scalar_values_head s Hwf Hbom) as Hhead.
  destruct (scalar_values s) as [|c cps]; [exact Hunits|].
  destruct (Z.eqb_spec c 65279); [contradiction | exact Hunits].
Qed.

Lemma append_each {A} (l acc : list A) :
  fold_left (fun bin b => bin ++ [b]) l acc = acc ++ l.
Proof.
  revert acc. induction l as [|x l IH]; intros acc; simpl.
  - by rewrite app_nil_r.
  - rewrite IH. by rewrite <- app_assoc.
Qed.

Lemma bytes_mod_256 bs : Forall is_byte bs -> map (fun c => c mod 256) bs = bs.
Proof.
  induction 1 as [|b bs Hb Hbs IH]; [reflexivity|].
  simpl. rewrite IH. f_equal. unfold is_byte in Hb. divlia.
Qed.

End UnicodeFacts.

(** ** Share codec round trip *)

Lemma makeEventKey_base64 {P} `{JSON P} (payload : P) :
  well_formed (JSON_stringify payload) = true ->
  makeEventKey payload
  = Some (base64 (TextEncoder_encode (JSON_stringify payload))).
Proof.
  intros Hwf. unfold makeEventKey. rewrite append_each, app_nil_l.
  apply btoa_bytes. by apply TextEncoder_encode_bytes.
Qed.

Lemma readEventKey_base64 {T} `{JSON T} (t : jsstring) :
  json_text t ->
  readEventKey (T := T) (base64 (TextEncoder_encode t)) = JSON_parse t.
Proof.
  intros [Hwf Hbom].
  pose proof (TextEncoder_encode_bytes _ Hwf) as Hbytes.
  unfold readEventKey.
  rewrite atob_base64 by assumption.
  rewrite bytes_mod_256 by assumption.
  by rewrite TextDecoder_decode_encode.
Qed.

(** C1. For a payload that JSON represents (JSON.parse reads the text of
    JSON.stringify back as the payload), [makeEventKey] produces a token
    and [readEventKey] of that token is the payload. *)
Theorem readEventKey_makeEventKey {P} `{JSON P} (payload : P) :
  json_text (JSON_stringify payload) ->
  JSON_parse (JSON_stringify payload) = Some payload ->
  exists key,
    makeEventKey payload = Some key /\ readEventKey key = Some payload.
Proof.
  intros Htext Hjson.
  exists (base64 (TextEncoder_encode (JSON_stringify payload))).
  split; [apply makeEventKey_base64, Htext|].
  by rewrite readEventKey_base64.
Qed.

Lemma readEventKey_makeEventKey_witness :
  exists key,
    @makeEventKey Payload sample_JSON_Payload sample_payload = Some key
    /\ @readEventKey Payload sample_JSON_Payload key = Some sample_payload.
Proof.
  apply (@readEventKey_makeEventKey Payload sample_JSON_Payload sample_payload).
  - split; [vm_compute; reflexivity | vm_compute; discriminate].
  - vm_compute. reflexivity.
Defined.

Lemma addOrForkEvent_idempotent_witness :
  @Untyped.addOrForkEvent _ sample_JSON_object sample_JSON_index object_title
    sample_uuid sample_now (Some sample_eid) sample_snapshot
    sample_object_world
  = ((sample_eid, sample_snapshot), sample_object_world).
Proof.
  apply (proj1 (@addOrForkEvent_idempotent _ sample_JSON_object
                  sample_JSON_index object_title sample_uuid sample_now)
           sample_eid sample_snapshot sample_snapshot sample_object_world).
  - vm_compute. reflexivity.
  - reflexivity.
Defined.

(** C2 as the specification states it fails: a snapshot that is
    structurally identical to the stored one, with its keys in another
    order, has another JSON text; it is not taken for the stored copy
    but stored again under a new identifier, with a second index
    entry. *)
Lemma addOrForkEvent_key_order :
  @Untyped.loadEvent _ sample_JSON_object sample_eid
    (storage sample_object_world) = Some sample_snapshot
  /\ same_structure (VObject sample_snapshot) (VObject sample_snapshot_reordered)
     = true
  /\ @Untyped.addOrForkEvent _ sample_JSON_object sample_JSON_index object_title
       sample_uuid sample_now (Some sample_eid) sample_snapshot_reordered
       sample_object_world
     <> ((sample_eid, sample_snapshot), sample_object_world)
  /\ fst (@Untyped.addOrForkEvent _ sample_JSON_object sample_JSON_index
            object_title sample_uuid sample_now (Some sample_eid)
            sample_snapshot_reordered sample_object_world)
     = (js "fresh-0", sample_snapshot_reordered)
  /\ map meta_eid
       (index (snd (@Untyped.addOrForkEvent _ sample_JSON_object
                      sample_JSON_index object_title sample_uuid sample_now
                      (Some sample_eid) sample_snapshot_reordered
                      sample_object_world)))
     = [js "fresh-0"; sample_eid].
Proof.
  assert (fst (@Untyped.addOrForkEvent _ sample_JSON_object sample_JSON_index
                 object_title sample_uuid sample_now (Some sample_eid)
                 sample_snapshot_reordered sample_object_world)
          = (js "fresh-0", sample_snapshot_reordered)) as Hfst
    by (vm_compute; reflexivity).
  split; [vm_compute; reflexivity|]. split; [vm_compute; reflexivity|].
  split; [|split; [exact Hfst | vm_compute; reflexivity]].
  intros Heq. rewrite Heq in Hfst. vm_compute in Hfst. discriminate.
Qed.



(** ** The token in the URL fragment *)

Lemma match_k_param_skip p t :
  plain_param p -> match_k_param (p ++ t) = match_k_param t.
Proof.
  induction 1 as [|c p [H1 H2] Hp IH]; [reflexivity|].
  cbn [app match_k_param].
  destruct (Z.eqb_spec c 35); [contradiction|].
  destruct (Z.eqb_spec c 38); [contradiction|]. exact IH.
Qed.

Lemma match_k_param_at sep r :
  sep = 35%Z \/ sep = 38%Z ->
  match_k_param (sep :: r)
  = match r with
    | k :: e :: v :: rest =>
        if ((k =? 107) && (e =? 61) && negb (v =? 38))%Z
        then Some (v :: until_amp rest)
        else match_k_param r
    | _ => match_k_param r
    end.
Proof. intros [-> | ->]; reflexivity. Qed.

Lemma until_amp_token t after :
  Forall (fun c => c <> 38%Z) t ->
  after = [] \/ (exists r, after = 38%Z :: r) ->
  until_amp (t ++ after) = t.
Proof.
  intros Ht Hafter. induction Ht as [|c t Hc Ht IH]; simpl.
  - destruct Hafter as [-> | [r ->]]; reflexivity.
  - destruct (Z.eqb_spec c 38); [contradiction|]. by rewrite IH.
Qed.

(** A parameter that is not a [k] parameter is passed over. *)
Lemma match_k_param_other sep p t :
  sep = 35%Z \/ sep = 38%Z ->
  plain_param p -> is_k_param p = false ->
  match_k_param (sep :: p ++ 38%Z :: t) = match_k_param (38%Z :: t).
Proof.
  intros Hsep Hp Hk. rewrite (match_k_param_at sep _ Hsep).
  assert (Hskip : match_k_param (p ++ 38%Z :: t) = match_k_param (38%Z :: t))
    by (by apply match_k_param_skip).
  destruct p as [|a [|b [|c p]]]; cbn [app] in *.
  - destruct t as [|x [|y t]]; reflexivity.
  - destruct t as [|x t]; [exact Hskip|].
    destruct (a =? 107)%Z; exact Hskip.
  - destruct (a =? 107)%Z, (b =? 61)%Z; exact Hskip.
  - simpl in Hk. rewrite Hk. exact Hskip.
Qed.

Lemma match_k_param_fragment sep params tok after :
  sep = 35%Z \/ sep = 38%Z ->
  Forall (fun p => plain_param p /\ is_k_param p = false) params ->
  tok <> [] -> Forall (fun c => c <> 38%Z) tok ->
  after = [] \/ (exists r, after = 38%Z :: r) ->
  match_k_param
    (sep :: flat_map (fun p => p ++ [38%Z]) params ++ js "k=" ++ tok ++ after)
  = Some tok.
Proof.
  intros Hsep Hparams Hne Htok Hafter. revert sep Hsep.
  induction Hparams as [|p params [Hp Hk] _ IH]; intros sep Hsep.
  - cbn [flat_map app]. rewrite (match_k_param_at sep _ Hsep).
    destruct tok as [|v t]; [congruence|].
    inversion_clear Htok as [|? ? Hv Ht].
    change (js "k=" ++ (v :: t) ++ after)
      with (107%Z :: 61%Z :: v :: (t ++ after)).
    cbv beta iota. rewrite (proj2 (Z.eqb_neq v 38) Hv). cbn.
    by rewrite until_amp_token.
  - cbn [flat_map]. rewrite <- !app_assoc. cbn [app].
    rewrite match_k_param_other by assumption.
    apply IH. by right.
Qed.

Lemma id_chars_token id rest :
  Forall (fun c => is_id_char c = true) id ->
  match rest with c :: _ => is_id_char c = false | [] => True end ->
  id_chars (id ++ rest) = id.
Proof.
  intros Hid Hrest. induction Hid as [|c id Hc Hid IH]; simpl.
  - destruct rest as [|c r]; [reflexivity | simpl; by rewrite Hrest].
  - by rewrite Hc, IH.
Qed.

(** ** Further properties *)

(** The run index is 1 at the anchor time of 13:00 and unscored for no
    time, zero or a negative time. *)
Theorem runPerformanceIndex_anchor :
  runPerformanceIndex (Some 780%float) = Some 1%float
  /\ runPerformanceIndex None = None
  /\ runPerformanceIndex (Some 0%float) = None
  /\ (forall s, (s <=? 0)%float = true -> runPerformanceIndex (Some s) = None).
Proof.
  repeat split.
  intros s Hs. unfold runPerformanceIndex. rewrite Hs.
  by rewrite orb_true_r.
Qed.

Lemma runPerformanceIndex_anchor_witness :
  runPerformanceIndex (Some (-5)%float) = None.
Proof.
  apply (proj2 (proj2 (proj2 runPerformanceIndex_anchor)) (-5)%float).
  reflexivity.
Defined.

(** The table shown has one slot for each athlete: the points table cut
    to the roster, or filled up with zeros, so that slot [k] is the value
    the allocation uses at rank [k]. *)
Theorem activePointsTable_slots (table : list number) (n : nat) :
  length (activePointsTable table n) = n
  /\ forall k, k < n ->
       activePointsTable table n !! k = Some (default 0%float (table !! k)).
Proof.
  unfold activePointsTable. destruct (Nat.leb_spec n (length table)) as [Hle|Hgt].
  - split; [rewrite length_take; lia|].
    intros k Hk. rewrite lookup_take_lt by assumption.
    destruct (lookup_lt_is_Some_2 table k) as [x Hx]; [lia|].
    by rewrite Hx.
  - rewrite Nat.max_r by lia.
    split; [rewrite length_app, length_replicate; lia|].
    intros k Hk. destruct (le_lt_dec (length table) k) as [Hge|Hlt].
    + rewrite lookup_app_r by assumption.
      rewrite (proj2 (lookup_ge_None table k)) by assumption. cbn [default].
      apply lookup_replicate_2. lia.
    + rewrite lookup_app_l by assumption.
      destruct (lookup_lt_is_Some_2 table k) as [x Hx]; [lia|].
      by rewrite Hx.
Qed.

Lemma activePointsTable_slots_witness :
  activePointsTable SIMPLE_POINTS 8 !! 6 = Some 0%float.
Proof.
  apply (proj2 (activePointsTable_slots SIMPLE_POINTS 8) 6). lia.
Defined.

(** ** Share links *)

Section URIFacts.
Local Open Scope Z_scope.

Lemma encodeURIComponent_ascii s :
  Forall is_ascii s -> encodeURIComponent s = Some (flat_map escape_ascii s).
Proof.
  induction 1 as [|c s Hc Hs IH]; [reflexivity|].
  cbn [encodeURIComponent flat_map]. rewrite IH. unfold escape_ascii.
  destruct (is_uri_unreserved c); [reflexivity|].
  unfold is_ascii in Hc.
  unfold is_high_surrogate, is_low_surrogate.
  repeat (case_match; try lia).
  unfold utf8_bytes. case_match; [|lia]. reflexivity.
Qed.

Lemma hex_digit_value n : 0 <= n < 16 -> digit_in_base 16 (hex_digit n) = Some n.
Proof.
  intros Hn. unfold hex_digit, digit_in_base.
  repeat (case_match; try lia); f_equal; lia.
Qed.

Lemma percent_byte_encode c rest :
  is_ascii c -> percent_byte (percent_encode c ++ rest) = Some (c, rest).
Proof.
  unfold is_ascii. intros Hc. unfold percent_encode, percent_byte. cbn [app].
  rewrite Z.eqb_refl. rewrite !hex_digit_value by divlia.
  do 2 f_equal. divlia.
Qed.

Lemma decodeURIComponent_from_escape s fuel :
  Forall is_ascii s ->
  (length (flat_map escape_ascii s) <= fuel)%nat ->
  decodeURIComponent_from fuel (flat_map escape_ascii s) = Some s.
Proof.
  intros Hs. revert fuel. induction Hs as [|c s Hc Hs IH]; intros fuel Hfuel.
  - destruct fuel; reflexivity.
  - cbn [flat_map] in *. rewrite length_app in Hfuel.
    assert (Hlen : (1 <= length (escape_ascii c))%nat).
    { unfold escape_ascii, percent_encode.
      destruct (is_uri_unreserved c); simpl; lia. }
    destruct fuel as [|fuel]; [lia|].
    unfold escape_ascii at 1.
    destruct (is_uri_unreserved c) eqn:Hun.
    + cbn [app decodeURIComponent_from].
      assert (Hne : (c =? 37) = false).
      { apply Z.eqb_neq. intros ->. discriminate. }
      rewrite Hne. rewrite IH by lia. reflexivity.
    + pose proof (percent_byte_encode c (flat_map escape_ascii s) Hc) as Hpb.
      unfold percent_encode in Hpb |- *. cbn [app] in Hpb |- *.
      cbn [decodeURIComponent_from]. rewrite Z.eqb_refl. rewrite Hpb.
      unfold is_ascii in Hc. case_match; [|lia].
      rewrite IH by lia. reflexivity.
Qed.

Lemma decodeURIComponent_encodeURIComponent s :
  Forall is_ascii s ->
  exists escaped,
    encodeURIComponent s = Some escaped
    /\ decodeURIComponent escaped = Some s
    /\ Forall (fun c => c <> 38) escaped
    /\ (s <> [] -> escaped <> []).
Proof.
  intros Hs. exists (flat_map escape_ascii s).
  split; [by apply encodeURIComponent_ascii|].
  split; [by apply decodeURIComponent_from_escape|].
  split.
  - induction Hs as [|c s Hc Hs IH]; [constructor|].
    cbn [flat_map]. apply Forall_app. split; [|exact IH].
    unfold escape_ascii, percent_encode, hex_digit, is_ascii in *.
    destruct (is_uri_unreserved c) eqn:Hun.
    + constructor; [|constructor]. intros ->. discriminate.
    + repeat (apply Forall_cons_2; [repeat case_match; divlia|]). constructor.
  - destruct s as [|c s]; [congruence|]. intros _. cbn [flat_map].
    unfold escape_ascii, percent_encode. destruct (is_uri_unreserved c); discriminate.
Qed.

End URIFacts.

Lemma base64_ascii bs : Forall is_byte bs -> Forall is_ascii (base64 bs).
Proof.
  intros Hb. unfold base64. apply Forall_app. split.
  - apply Forall_map. eapply Forall_impl; [apply sextets_range, Hb|].
    intros i Hi. unfold is_sextet, is_ascii, b64_char in *.
    repeat case_match; lia.
  - unfold b64_padding, is_ascii.
    destruct (length bs mod 3) as [|[|[|n]]]; repeat constructor; lia.
Qed.

Lemma base64_nonempty bs : bs <> [] -> base64 bs <> [].
Proof.
  unfold base64. destruct bs as [|a [|b [|c r]]]; [congruence|discriminate..].
Qed.

Lemma TextEncoder_encode_nonempty s :
  s <> [] -> TextEncoder_encode s <> [].
Proof.
  unfold TextEncoder_encode. destruct s as [|c r]; [congruence|]. intros _.
  assert (Hb : forall x, utf8_bytes x <> []).
  { intros x. unfold utf8_bytes. repeat case_match; discriminate. }
  cbn [scalar_values].
  repeat case_match; cbn [flat_map];
    (intros Heq; apply app_eq_nil in Heq as [Heq _]; by apply Hb in Heq).
Qed.

Section ShareLink.
Context `{JSON State} `{JSON (list EventMeta)} `{JSON Payload}.
Variable randomUUID : nat -> EID.
Variable now : number.

(** A link made by [copyShareLink] for a stored event, opened in the
    application: the boot finds the key in the fragment, reads the
    sender's identifier and snapshot back from it and hands them to
    [addOrForkEvent], then opens the event it returns. *)
Theorem share_link_import eid st ls a :
  loadEvent eid ls = Some st ->
  let payload := {| payload_eid := Some eid; payload_state := Some st |} in
  JSON_stringify payload <> [] ->
  json_text (JSON_stringify payload) ->
  JSON_parse (JSON_stringify payload) = Some payload ->
  exists link,
    copyShareLink eid ls = Some link
    /\ importFromHash randomUUID now (set_location_hash link a)
       = Some (true,
               openEvent
                 (fst (fst (addOrForkEvent randomUUID now (Some eid) st (world a))))
                 (set_location_hash []
                    (set_world
                       (snd (addOrForkEvent randomUUID now (Some eid) st (world a)))
                       a))).
Proof.
  intros Hload payload Hne Htext Hjson.
  pose proof (TextEncoder_encode_bytes _ (proj1 Htext)) as Hbytes.
  set (key := base64 (TextEncoder_encode (JSON_stringify payload))).
  destruct (decodeURIComponent_encodeURIComponent key)
    as (escaped & Henc & Hdec & Hamp & Hnonempty);
    [by apply base64_ascii|].
  exists (js "#k=" ++ escaped). split.
  - unfold copyShareLink. rewrite Hload.
    fold payload. rewrite (makeEventKey_base64 payload (proj1 Htext)).
    fold key. by rewrite Henc.
  - unfold importFromHash. cbn [location_hash set_location_hash].
    assert (Hm : match_k_param (js "#k=" ++ escaped) = Some escaped).
    { pose proof (match_k_param_fragment 35%Z [] escaped []) as Hfrag.
      cbn [flat_map app] in Hfrag. rewrite app_nil_r in Hfrag.
      apply Hfrag; auto.
      apply Hnonempty. apply base64_nonempty.
      by apply TextEncoder_encode_nonempty. }
    rewrite Hm, Hdec. subst key. rewrite readEventKey_base64 by assumption.
    rewrite Hjson. cbn [payload_state payload_eid payload].
    unfold set_location_hash, set_world. cbn [world].
    destruct (addOrForkEvent randomUUID now (Some eid) st (world a))
      as [[eid' st'] w'].
    reflexivity.
Qed.

End ShareLink.

Lemma share_link_import_witness :
  exists link,
    @copyShareLink sample_JSON_State sample_JSON_Payload (js "3f2a-77")
      (storage sample_world) = Some link
    /\ option_map fst
         (@importFromHash sample_JSON_State sample_JSON_index sample_JSON_Payload
            sample_uuid sample_now (set_location_hash link sample_app))
       = Some true.
Proof.
  destruct (@share_link_import sample_JSON_State sample_JSON_index
              sample_JSON_Payload sample_uuid sample_now (js "3f2a-77")
              (titled (js "Spring Meet")) (storage sample_world) sample_app)
    as (link & Hlink & Himport).
  - vm_compute. reflexivity.
  - vm_compute. discriminate.
  - split; [vm_compute; reflexivity | vm_compute; discriminate].
  - vm_compute. reflexivity.
  - exists link. split; [exact Hlink|]. by rewrite Himport.
Defined.

(** App.tsx imports nothing from a fragment without a [k] parameter, a
    legacy [#event=<id>] fragment among them. *)
Lemma importFromHash_without_key `{JSON State} `{JSON (list EventMeta)}
  `{JSON Payload} randomUUID now (a : App) :
  match_k_param (location_hash a) = None ->
  importFromHash randomUUID now a = Some (false, a).
Proof. intros Hm. unfold importFromHash. by rewrite Hm. Qed.

Lemma legacy_fragment_has_no_key :
  match_k_param (js "#event=3f2a-77") = None.
Proof. vm_compute. reflexivity. Qed.
(** ** Signs of differences

    What [Array.prototype.sort] needs of the comparators [y - x]: if one
    order of the operands gives a positive difference, the other does
    not. *)

(** The sign of a rounded value is the sign asked for. *)
Lemma binary_round_aux_sign sx mx ex lx :
  match binary_round_aux prec emax sx mx ex lx with
  | S754_zero s | S754_infinity s | S754_finite s _ _ => s = sx
  | S754_nan => True
  end.
Proof.
  unfold binary_round_aux.
  destruct (shr_fexp prec emax mx ex lx) as [mrs' e'].
  destruct (shr_fexp _ _ _ e' loc_Exact) as [mrs'' e''].
  destruct (shr_m mrs''); simpl; auto.
  destruct (_ <=? _)%Z; reflexivity.
Qed.

Lemma binary_round_negative mx ex :
  SFltb (S754_zero false) (binary_round prec emax true mx ex) = false.
Proof.
  unfold binary_round. destruct (shl_align _ _ _) as [mz ez].
  pose proof (binary_round_aux_sign true (Z.pos mz) ez loc_Exact) as H.
  destruct (binary_round_aux _ _ _ _ _ _) as [s|s| |s m e];
    try subst s; reflexivity.
Qed.

Lemma binary_normalize_positive m e s :
  SFltb (S754_zero false) (binary_normalize prec emax m e s) = true ->
  (0 < m)%Z.
Proof.
  destruct m as [|p|p]; simpl; intros H.
  - destruct s; discriminate.
  - lia.
  - rewrite binary_round_negative in H. discriminate.
Qed.

Lemma SF64sub_antisym a b :
  SFltb (S754_zero false) (SF64sub a b) = true ->
  SFltb (S754_zero false) (SF64sub b a) = false.
Proof.
  unfold SF64sub.
  destruct a as [sa|sa| |sa ma ea], b as [sb|sb| |sb mb eb];
    try (destruct sa, sb; simpl; (discriminate || reflexivity));
    try (destruct sa; simpl; (discriminate || reflexivity));
    try (destruct sb; simpl; (discriminate || reflexivity));
    try (simpl; (discriminate || reflexivity)).
  cbn [SFsub]. intros H. apply binary_normalize_positive in H.
  rewrite (Z.min_comm eb ea).
  match goal with |- SFltb _ (binary_normalize _ _ ?m _ _) = false =>
    destruct m as [|p|p] eqn:Hm; [reflexivity | lia | apply binary_round_negative]
  end.
Qed.

Lemma sub_antisym (x y : number) :
  (0 <? x - y)%float = true -> (0 <? y - x)%float = false.
Proof.
  rewrite !ltb_spec, !sub_spec.
  change (Prim2SF 0) with (S754_zero false). apply SF64sub_antisym.
Qed.

(** ** Array.prototype.sort *)

Section SortFacts.
Context {A : Type}.
Variable comparefn : A -> A -> number.

Lemma sort_insert_perm x l : sort_insert comparefn x l ≡ₚ x :: l.
Proof.
  induction l as [|y l IH]; simpl; [done|].
  destruct (sorts_after comparefn x y); [|done].
  rewrite IH. apply Permutation_swap.
Qed.

Lemma sort_perm l : sort comparefn l ≡ₚ l.
Proof.
  induction l as [|x l IH]; simpl; [done|].
  rewrite sort_insert_perm. by rewrite IH.
Qed.

Lemma in_order_cons a l :
  in_order comparefn (a :: l) <->
  match l with [] => True | b :: _ => sorts_after comparefn a b = false end
  /\ in_order comparefn l.
Proof.
  split.
  - intros H. split.
    + destruct l as [|b l]; [done|]. by apply (H 0 a b).
    + intros i x y Hx Hy. by apply (H (S i) x y).
  - intros [Hh Ht] [|i] x y Hx Hy.
    + destruct l as [|b l]; [done|]. simpl in Hx, Hy. congruence.
    + by apply (Ht i x y).
Qed.

Lemma sort_insert_in_order x l :
  asymmetric comparefn -> in_order comparefn l ->
  in_order comparefn (sort_insert comparefn x l).
Proof.
  intros Hasym. induction l as [|y l IH]; intros Hl; simpl.
  - apply in_order_cons. split; [done|]. intros i a b Ha; destruct i; done.
  - destruct (sorts_after comparefn x y) eqn:Hxy.
    + apply in_order_cons in Hl as [Hh Ht]. apply in_order_cons. split.
      * destruct l as [|z l]; simpl; [by apply Hasym|].
        destruct (sorts_after comparefn x z); [done | by apply Hasym].
      * by apply IH.
    + apply in_order_cons. by split.
Qed.

Lemma sort_in_order l :
  asymmetric comparefn -> in_order comparefn (sort comparefn l).
Proof.
  intros Hasym. induction l as [|x l IH]; simpl.
  - intros i a b Ha; destruct i; done.
  - by apply sort_insert_in_order.
Qed.

(** A class of elements that the comparator puts after all others and
    whose members it leaves in place. *)
Variable goes_last : A -> bool.
Hypothesis last_last : forall x y,
  goes_last x = true -> goes_last y = true -> sorts_after comparefn x y = false.
Hypothesis last_after : forall x y,
  goes_last x = true -> goes_last y = false -> sorts_after comparefn x y = true.
Hypothesis first_before : forall x y,
  goes_last x = false -> goes_last y = true -> sorts_after comparefn x y = false.

Lemma sort_insert_last x l u :
  goes_last x = true -> Forall (fun y => goes_last y = false) l ->
  Forall (fun y => goes_last y = true) u ->
  sort_insert comparefn x (l ++ u) = l ++ x :: u.
Proof using All.
  intros Hx Hl Hu. induction Hl as [|y l Hy Hl IH]; simpl.
  - destruct u as [|z u]; [done|]. simpl.
    apply Forall_cons_1 in Hu as [Hz _]. by rewrite last_last.
  - rewrite last_after by done. by rewrite IH.
Qed.

Lemma sort_insert_first x l u :
  goes_last x = false -> Forall (fun y => goes_last y = true) u ->
  sort_insert comparefn x (l ++ u) = sort_insert comparefn x l ++ u.
Proof using All.
  intros Hx Hu. induction l as [|y l IH]; simpl.
  - destruct u as [|z u]; [done|]. simpl.
    apply Forall_cons_1 in Hu as [Hz _]. by rewrite first_before.
  - destruct (sorts_after comparefn x y); [|done]. by rewrite IH.
Qed.

Lemma sort_last_stable l :
  sort comparefn l
  = sort comparefn (filter (fun x => goes_last x = false) l)
    ++ filter (fun x => goes_last x = true) l.
Proof using All.
  induction l as [|x l IH]; [done|]. cbn [sort foldr].
  fold (sort comparefn l). rewrite IH.
  assert (Forall (fun y => goes_last y = false)
            (sort comparefn (filter (fun x => goes_last x = false) l))) as Hl.
  { rewrite sort_perm. apply Forall_forall. intros y Hy.
    by apply list_elem_of_filter in Hy as [? _]. }
  assert (Forall (fun y => goes_last y = true)
            (filter (fun x => goes_last x = true) l)) as Hu.
  { apply Forall_forall. intros y Hy.
    by apply list_elem_of_filter in Hy as [? _]. }
  destruct (goes_last x) eqn:Hx.
  - rewrite sort_insert_last by done.
    rewrite (filter_cons_True (fun x => goes_last x = true)) by done.
    rewrite (filter_cons_False (fun x => goes_last x = false)) by (by rewrite Hx).
    done.
  - rewrite sort_insert_first by done.
    rewrite (filter_cons_True (fun x => goes_last x = false)) by done.
    rewrite (filter_cons_False (fun x => goes_last x = true)) by (by rewrite Hx).
    done.
Qed.

End SortFacts.

(** ** The two rankings *)

Lemma filter_keep {A} (P : A -> Prop) `{forall x, Decision (P x)} l :
  Forall P l -> filter P l = l.
Proof.
  induction 1 as [|x l Hx Hl IH]; [done|].
  rewrite filter_cons_True by done. by rewrite IH.
Qed.

Lemma filter_drop {A} (P : A -> Prop) `{forall x, Decision (P x)} l :
  Forall (fun x => ~ P x) l -> filter P l = [].
Proof.
  induction 1 as [|x l Hx Hl IH]; [done|].
  by rewrite filter_cons_False.
Qed.

Lemma compare_rows_asymmetric : asymmetric compare_rows.
Proof.
  intros a b. unfold sorts_after, compare_rows.
  destruct (rank_score a) as [x|], (rank_score b) as [y|];
    try (vm_compute; (discriminate || reflexivity)).
  apply sub_antisym.
Qed.

Lemma rank_rows_split score roster :
  rank_rows score roster
  = sort compare_rows
      (filter (fun r => unscored r = false) (map (rank_row score) roster))
    ++ filter (fun r => unscored r = true) (map (rank_row score) roster).
Proof.
  unfold rank_rows. apply sort_last_stable.
  - intros x y. unfold unscored, sorts_after, compare_rows.
    destruct (rank_score x), (rank_score y); (discriminate || reflexivity).
  - intros x y. unfold unscored, sorts_after, compare_rows.
    destruct (rank_score x), (rank_score y); (discriminate || reflexivity).
  - intros x y. unfold unscored, sorts_after, compare_rows.
    destruct (rank_score x), (rank_score y); (discriminate || reflexivity).
Qed.

Lemma rank_rows_perm score roster :
  rank_rows score roster ≡ₚ map (rank_row score) roster.
Proof. apply sort_perm. Qed.

Lemma rank_rows_scored_first score roster :
  scored_first (map score_row (rank_rows score roster)).
Proof.
  rewrite rank_rows_split.
  set (l := sort _ _). set (u := filter _ _).
  assert (Forall (fun r => rank_score r <> None) l) as Hl.
  { unfold l. rewrite sort_perm. apply Forall_forall. intros r Hr.
    apply list_elem_of_filter in Hr as [Hr _]. unfold unscored in Hr.
    destruct (rank_score r); [discriminate | done]. }
  assert (Forall (fun r => rank_score r = None) u) as Hu.
  { apply Forall_forall. intros r Hr.
    apply list_elem_of_filter in Hr as [Hr _]. unfold unscored in Hr.
    destruct (rank_score r); [discriminate | done]. }
  intros a b ra rb Hab Ha Hb Hnull.
  rewrite list_lookup_fmap in Ha, Hb.
  destruct ((l ++ u) !! a) as [xa|] eqn:Hxa; [|discriminate].
  destruct ((l ++ u) !! b) as [xb|] eqn:Hxb; [|discriminate].
  simpl in Ha, Hb. injection Ha as <-. injection Hb as <-. simpl in *.
  destruct (decide (a < length l)) as [Hlt|Hge].
  - rewrite lookup_app_l in Hxa by done.
    by apply (Forall_lookup_1 _ _ _ _ Hl) in Hxa.
  - rewrite lookup_app_r in Hxb by lia.
    by apply (Forall_lookup_1 _ _ _ _ Hu) in Hxb.
Qed.

(** What [rows.sort] does to the rows of a ranking: the same rows, the
    scored ones first and the unscored ones after them in the order of
    the roster, and no scored row followed by one with a higher score
    (the difference the comparator takes is not positive). *)
Theorem ranking_rows_sorted score roster :
  let rows := rank_rows score roster in
  rows ≡ₚ map (rank_row score) roster
  /\ filter (fun r => unscored r = true) rows
     = filter (fun r => unscored r = true) (map (rank_row score) roster)
  /\ (exists scored,
        rows = scored ++ filter (fun r => unscored r = true)
                           (map (rank_row score) roster)
        /\ Forall (fun r => unscored r = false) scored)
  /\ scored_first (map score_row rows)
  /\ (forall i a b x y,
        rows !! i = Some a -> rows !! S i = Some b ->
        rank_score a = Some x -> rank_score b = Some y ->
        (0 <? y - x)%float = false).
Proof.
  cbv zeta. split; [apply rank_rows_perm|].
  assert (Forall (fun r => unscored r = false)
            (sort compare_rows
               (filter (fun r => unscored r = false)
                       (map (rank_row score) roster)))) as Hl.
  { rewrite sort_perm. apply Forall_forall. intros r Hr.
    by apply list_elem_of_filter in Hr as [Hr _]. }
  split; [|split; [|split]].
  - rewrite rank_rows_split at 1. rewrite filter_app.
    rewrite filter_drop.
    + simpl. apply filter_keep. apply Forall_forall. intros r Hr.
      by apply list_elem_of_filter in Hr as [Hr _].
    + eapply Forall_impl; [exact Hl|]. simpl. intros r ->. done.
  - eexists. split; [apply rank_rows_split | exact Hl].
  - apply rank_rows_scored_first.
  - intros i a b x y Ha Hb Hx Hy.
    pose proof (sort_in_order compare_rows (map (rank_row score) roster)
                  compare_rows_asymmetric i a b Ha Hb) as H.
    unfold sorts_after, compare_rows in H. by rewrite Hx, Hy in H.
Qed.

(** The ids written by the allocation are ids of its rows. *)
Lemma apply_writes_keys (ws : list (jsstring * number))
  (m : gmap jsstring number) (k : jsstring) :
  is_Some (apply_writes ws m !! k) -> is_Some (m !! k) \/ k ∈ ws.*1.
Proof.
  unfold apply_writes. revert m.
  induction ws as [|w ws IH]; intros m H; simpl in *; [by left|].
  apply IH in H as [H|H].
  - destruct (decide (w.1 = k)) as [<-|Hne].
    + right. set_solver.
    + rewrite lookup_set_number_ne in H by done. by left.
  - right. set_solver.
Qed.

Lemma writes_ids ss i j (v : number) w :
  w ∈ writes ss i j v -> exists r, r ∈ ss /\ row_id r = w.1.
Proof.
  unfold writes. intros H. apply list_elem_of_omap in H as (k & _ & Hk).
  destruct (ss !! k) as [r|] eqn:Hr; [|discriminate].
  simpl in Hk. injection Hk as <-. exists r. split; [|done].
  by eapply list_elem_of_lookup_2.
Qed.

Lemma alloc_writes_ids ss table fuel i w :
  w ∈ alloc_writes ss table fuel i -> exists r, r ∈ ss /\ row_id r = w.1.
Proof.
  revert i. induction fuel as [|fuel IH]; intros i H; simpl in H.
  - by apply elem_of_nil in H.
  - destruct (ss !! i) as [cur|]; [|by apply elem_of_nil in H].
    destruct (row_score cur) as [c|].
    + apply elem_of_app in H as [H|H]; [by eapply writes_ids | by eapply IH].
    + by eapply writes_ids.
Qed.

Lemma allocatePointsByRank_keys ss table k :
  is_Some (allocatePointsByRank ss table !! k) ->
  exists r, r ∈ ss /\ row_id r = k.
Proof.
  unfold allocatePointsByRank. rewrite alloc_loop_apply_writes. intros H.
  apply apply_writes_keys in H as [H|H].
  - rewrite lookup_empty in H. by destruct H.
  - apply list_elem_of_fmap in H as (w & -> & Hw). by eapply alloc_writes_ids.
Qed.

Lemma rank_rows_elem score roster r :
  r ∈ rank_rows score roster <-> exists a, a ∈ roster /\ r = rank_row score a.
Proof.
  rewrite rank_rows_perm. rewrite list_elem_of_fmap. naive_solver.
Qed.

Lemma ranking_points_present score state a :
  a ∈ athletes state -> id a <> PROTO ->
  is_Some (ranking_points (ranking score state) !! id a).
Proof.
  intros Ha Hp. unfold ranking. cbn [ranking_points].
  assert (score_row (rank_row score a)
          ∈ map score_row (rank_rows score (athletes state))) as Hin.
  { apply list_elem_of_fmap. eexists. split; [done|].
    apply rank_rows_elem. eauto. }
  apply list_elem_of_lookup in Hin as [k Hk].
  unfold allocatePointsByRank.
  change (id a) with (row_id (score_row (rank_row score a))).
  apply (alloc_loop_present _ _ _ 0 ∅ k _); [lia | lia | exact Hk | exact Hp].
Qed.

Lemma ranking_points_unscored score state a :
  a ∈ athletes state -> score a = None -> id a <> PROTO ->
  ranking_points (ranking score state) !! id a = Some 0%float.
Proof.
  intros Ha Hnull Hp. unfold ranking. cbn [ranking_points].
  assert (score_row (rank_row score a)
          ∈ map score_row (rank_rows score (athletes state))) as Hin.
  { apply list_elem_of_fmap. eexists. split; [done|].
    apply rank_rows_elem. eauto. }
  apply list_elem_of_lookup in Hin as [k Hk].
  unfold allocatePointsByRank.
  change (id a) with (row_id (score_row (rank_row score a))).
  apply (alloc_loop_unscored _ _ _ 0 ∅ k _);
    [lia | lia | exact Hk | exact Hnull | exact Hp].
Qed.

Lemma ranking_points_proto score state :
  ranking_points (ranking score state) !! PROTO = None.
Proof.
  unfold ranking. cbn [ranking_points]. unfold allocatePointsByRank.
  rewrite alloc_loop_proto. apply lookup_empty.
Qed.

Lemma ranking_points_keys score state k :
  is_Some (ranking_points (ranking score state) !! k) ->
  exists a, a ∈ athletes state /\ id a = k.
Proof.
  unfold ranking. cbn [ranking_points]. intros Hk.
  apply allocatePointsByRank_keys in Hk as (r & Hr & <-).
  apply list_elem_of_fmap in Hr as (x & -> & Hx).
  apply rank_rows_elem in Hx as (a & Ha & ->). eauto.
Qed.

(** The points of a ranking ([plScores.points], [runScores.points]):
    every athlete of the roster whose id is not [__proto__] has an
    entry and no other key has one (the key [__proto__] never); such an
    athlete without a score has 0 points; and, the ids of the roster
    being distinct, every run of rows with an identical score has the
    average of the points-table values at its ranks. *)
Theorem ranking_points_roster score state :
  let R := ranking score state in
  (forall a, a ∈ athletes state -> id a <> PROTO ->
     is_Some (ranking_points R !! id a))
  /\ (forall a, a ∈ athletes state -> score a = None -> id a <> PROTO ->
        ranking_points R !! id a = Some 0%float)
  /\ (forall k, is_Some (ranking_points R !! k) ->
        k <> PROTO /\ exists a, a ∈ athletes state /\ id a = k)
  /\ (NoDup (map id (athletes state)) ->
      forall i j k r,
        maximal_run (map score_row (ranking_rows R)) i j -> i <= k < j ->
        ranking_rows R !! k = Some r -> rank_id r <> PROTO ->
        ranking_points R !! rank_id r
        = Some (run_average (pointsTable state) i j)).
Proof.
  cbv zeta.
  split; [apply ranking_points_present|].
  split; [apply ranking_points_unscored|].
  split.
  { intros k Hk. split; [|by apply (ranking_points_keys score)].
    intros ->. rewrite (ranking_points_proto score state) in Hk.
    by destruct Hk. }
  unfold ranking. cbn [ranking_rows ranking_points].
  intros Hnd i j k r Hrun Hk Hr Hp.
  assert (map score_row (rank_rows score (athletes state)) !! k
          = Some (score_row r)) as Hk'.
  { by rewrite list_lookup_fmap, Hr. }
  change (rank_id r) with (row_id (score_row r)).
  unfold allocatePointsByRank.
  apply (alloc_loop_run _ _ _ 0 ∅ i j k _);
    [lia | apply rank_rows_scored_first | exact Hrun | lia | exact Hk
    | exact Hk' | | exact Hp].
  intros r0 Hr0 k' r' Hlt Hr' Heq.
  assert (NoDup (map row_id (map score_row (rank_rows score (athletes state)))))
    as Hnd'.
  { rewrite <- list_fmap_compose.
    assert (map (row_id ∘ score_row) (rank_rows score (athletes state))
            ≡ₚ map id (athletes state)) as ->; [|done].
    rewrite rank_rows_perm, <- list_fmap_compose. done. }
  assert (k' = k); [|lia].
  eapply NoDup_lookup; [exact Hnd'| |].
  + rewrite list_lookup_fmap, Hr'. done.
  + rewrite list_lookup_fmap, Hr0. simpl. by rewrite Heq.
Qed.

(** An athlete who cannot be scored has 0 points. In the strength
    ranking: sex X, no bodyweight, or no lift at all; in the 5k ranking:
    no time, or a time that does not parse. (An athlete whose id is
    [__proto__] has no entry in the points at all.) *)
Theorem unscored_athletes_get_zero state a :
  a ∈ athletes state ->
  (sex a = X \/ bodyweight a = None
   \/ (squat a = None /\ bench a = None /\ deadlift a = None) ->
   plScore a = None
   /\ (id a <> PROTO ->
       ranking_points (plScores state) !! id a = Some 0%float))
  /\ (runTime a = [] \/ parseTimeToSeconds (runTime a) = None ->
      runScore a = None
      /\ (id a <> PROTO ->
          ranking_points (runScores state) !! id a = Some 0%float))
  /\ (id a = PROTO ->
      ranking_points (plScores state) !! id a = None
      /\ ranking_points (runScores state) !! id a = None).
Proof.
  intros Ha. split; [|split].
  - intros H.
    assert (plScore a = None) as Hnull.
    { unfold plScore. apply dotsPoints_unscored.
      destruct H as [H | [H | (Hs & Hb & Hd)]].
      + by right; right; right.
      + right; left. by rewrite H.
      + left. unfold athlete_total. by rewrite Hs, Hb, Hd. }
    split; [done|]. intros Hp.
    by apply (ranking_points_unscored plScore).
  - intros H.
    assert (runScore a = None) as Hnull.
    { unfold runScore. destruct H as [H | H]; by rewrite H. }
    split; [done|]. intros Hp.
    by apply (ranking_points_unscored runScore).
  - intros ->. split;
      [exact (ranking_points_proto plScore state)
      | exact (ranking_points_proto runScore state)].
Qed.

(** ** The inputs *)

Lemma trimStart_spaces s :
  Forall (fun c => is_js_space c = true) s -> trimStart s = [].
Proof. induction 1 as [|c s Hc Hs IH]; simpl; [done|]. by rewrite Hc. Qed.

Lemma trim_spaces s :
  Forall (fun c => is_js_space c = true) s -> trim s = [].
Proof. intros H. unfold trim. by rewrite trimStart_spaces. Qed.

Lemma toNumber_Some n v :
  toNumber n = Some v ->
  isNaN v = false /\ exists s, n = Some s /\ s <> [] /\ v = Number s.
Proof.
  destruct n as [s|]; [|discriminate]. simpl.
  destruct s as [|c s]; [discriminate|]. simpl.
  destruct (isNaN (Number (c :: s))) eqn:Hnan; [discriminate|].
  intros [= <-]. split; [done|]. by exists (c :: s).
Qed.

(** [toNumber] gives null or a number that is not NaN: null for null,
    for the empty text and for a text [Number] does not read, and the
    value [Number] reads otherwise. A text of white space only reads as
    0, not as null. *)
Theorem toNumber_spec :
  (forall n v, toNumber n = Some v ->
     isNaN v = false /\ exists s, n = Some s /\ s <> [] /\ v = Number s)
  /\ (forall s, s <> [] -> isNaN (Number s) = false ->
        toNumber (Some s) = Some (Number s))
  /\ (forall s, isNaN (Number s) = true -> toNumber (Some s) = None)
  /\ (forall s, s <> [] -> Forall (fun c => is_js_space c = true) s ->
        toNumber (Some s) = Some 0%float)
  /\ toNumber None = None
  /\ toNumber (Some []) = None
  /\ toNumber (Some (js "82.5")) = Some 82.5%float
  /\ toNumber (Some (js "12kg")) = None.
Proof.
  split; [|split; [|split; [|split]]].
  - apply toNumber_Some.
  - intros [|c s] Hs Hnan; [done|]. simpl. by rewrite Hnan.
  - intros [|c s] Hnan; [done|]. simpl. by rewrite Hnan.
  - intros [|c s] Hs Hsp; [done|]. simpl.
    unfold Number, StringToNumber. rewrite (trim_spaces _ Hsp). done.
  - repeat split; vm_compute; reflexivity.
Qed.

Lemma toNumber_spec_witness :
  toNumber (Some (js " ")) = Some 0%float.
Proof.
  apply (proj1 (proj2 (proj2 (proj2 toNumber_spec))) (js " ")).
  - discriminate.
  - repeat constructor.
Defined.

Lemma split_length (sep : Z) (s : list Z) :
  length (split sep s) = S (length (filter (fun c => c = sep) s)).
Proof.
  induction s as [|c s IH]; [done|]. cbn [split].
  destruct (Z.eqb_spec c sep) as [->|Hne].
  - rewrite filter_cons_True by done. cbn [length]. by rewrite IH.
  - rewrite filter_cons_False by done.
    destruct (split sep s); cbn [length] in *; [lia | done].
Qed.

(** The field of the custom points: one number for each piece between
    commas, 0 for a piece that is empty or not a number. The list is
    never empty (an empty field gives [0]) and holds no NaN, so the
    points table of a Custom event edited through the field is the list
    itself. *)
Theorem customPoints_spec (value : list Z) :
  let nums := customPoints value in
  length nums = S (length (filter (fun c => c = ch ",") value))
  /\ nums <> []
  /\ Forall (fun v => isNaN v = false) nums
  /\ (forall state,
        pointsPreset state = Custom -> pointsCustom state = nums ->
        pointsTable state = nums).
Proof.
  cbv zeta. unfold customPoints.
  assert (length (map (fun s => default 0%float (toNumber (Some (trim s))))
                      (split (ch ",") value))
          = S (length (filter (fun c => c = ch ",") value))) as Hlen.
  { by rewrite length_map, split_length. }
  split; [exact Hlen|]. split; [|split].
  - intros Hnil. rewrite Hnil in Hlen. discriminate.
  - apply Forall_fmap, Forall_forall. intros s _. unfold compose.
    destruct (toNumber _) as [v|] eqn:Hv; [|reflexivity].
    apply toNumber_Some in Hv as [Hv _]. exact Hv.
  - intros state Hp Hc. unfold pointsTable. rewrite Hp, Hc, Hlen. done.
Qed.

Lemma customPoints_spec_witness :
  customPoints (js "10, 7,,x") = [10; 7; 0; 0]%float
  /\ pointsTable {| title := []; pointsPreset := Custom;
                    pointsCustom := customPoints []; athletes := [] |}
     = [0%float].
Proof.
  split; [vm_compute; reflexivity|].
  rewrite (proj2 (proj2 (proj2 (customPoints_spec [])))
             {| title := []; pointsPreset := Custom;
                pointsCustom := customPoints []; athletes := [] |});
    reflexivity.
Defined.

(** ** Objects *)

Section ObjectFacts.
Context {V : Type}.
Implicit Types (o : object V) (k : jsstring) (v : V).

Lemma obj_get_set k k' v o :
  obj_get k (obj_set k' v o) = if decide (k' = k) then Some v else obj_get k o.
Proof.
  induction o as [|e o IH]; simpl.
  - destruct (decide (k' = k)); done.
  - destruct (decide (e.1 = k')) as [He|He]; simpl.
    + destruct (decide (k' = k)) as [Hk|Hk]; [done|].
      destruct (decide (e.1 = k)); [congruence | done].
    + destruct (decide (e.1 = k)) as [Hk|Hk]; [|done].
      destruct (decide (k' = k)); [congruence | done].
Qed.

Lemma obj_get_Some k o : is_Some (obj_get k o) <-> k ∈ o.*1.
Proof.
  induction o as [|e o IH]; simpl.
  - split; [intros [? ?]; discriminate | intros H; by apply elem_of_nil in H].
  - destruct (decide (e.1 = k)) as [<-|He].
    + split; [intros _; apply list_elem_of_here | eauto].
    + rewrite IH. split; [apply list_elem_of_further|].
      intros H. apply elem_of_cons in H as [H|H]; [congruence | done].
Qed.

Lemma obj_set_keys k v o :
  (obj_set k v o).*1 = if decide (k ∈ o.*1) then o.*1 else o.*1 ++ [k].
Proof.
  induction o as [|e o IH]; cbn [obj_set].
  - destruct (decide (k ∈ [])) as [H|H]; [by apply elem_of_nil in H | done].
  - rewrite (fmap_cons fst e o).
    destruct (decide (e.1 = k)) as [He|He]; rewrite fmap_cons.
    + rewrite decide_True by (rewrite He; apply list_elem_of_here).
      simpl. by rewrite He.
    + rewrite IH. destruct (decide (k ∈ o.*1)) as [H|H].
      * rewrite decide_True by (by apply list_elem_of_further). done.
      * rewrite decide_False; [done|].
        intros H'. apply elem_of_cons in H' as [H'|H']; congruence.
Qed.

Lemma obj_set_NoDup k v o : NoDup o.*1 -> NoDup (obj_set k v o).*1.
Proof.
  intros Hnd. rewrite obj_set_keys. destruct (decide (k ∈ o.*1)); [done|].
  apply NoDup_app. split; [done|]. split; [|apply NoDup_singleton].
  intros x Hx Hx'. apply list_elem_of_singleton in Hx'. congruence.
Qed.

Lemma obj_get_elem k v o : NoDup o.*1 -> obj_get k o = Some v <-> (k, v) ∈ o.
Proof.
  induction o as [|e o IH]; simpl; intros Hnd.
  - split; [discriminate | intros H; by apply elem_of_nil in H].
  - apply NoDup_cons in Hnd as [Hne Hnd]. destruct (decide (e.1 = k)) as [<-|He].
    + split.
      * intros [= <-]. destruct e. apply list_elem_of_here.
      * intros H. apply elem_of_cons in H as [H|H]; [by rewrite <- H|].
        exfalso. apply Hne. apply list_elem_of_fmap. by exists (e.1, v).
    + rewrite IH by done. split; [apply list_elem_of_further|].
      intros H. apply elem_of_cons in H as [H|H]; [|done].
      rewrite <- H in He. done.
Qed.

Lemma insert_indexed_perm n e (l : list (Z * (jsstring * V))) :
  insert_indexed n e l ≡ₚ (n, e) :: l.
Proof.
  induction l as [|y l IH]; simpl; [done|].
  destruct (n <=? y.1)%Z; [done|]. rewrite IH. apply Permutation_swap.
Qed.

Lemma indexed_entries_perm o :
  (indexed_entries o).*2 ≡ₚ filter (fun e => array_index e.1 <> None) o.
Proof.
  induction o as [|e o IH]; simpl; [done|].
  destruct (array_index e.1) as [n|] eqn:Hn.
  - rewrite insert_indexed_perm. simpl. rewrite IH.
    rewrite filter_cons_True by (by rewrite Hn). done.
  - rewrite IH. rewrite filter_cons_False; [done|]. rewrite Hn. tauto.
Qed.

Lemma Object_entries_perm o : Object_entries o ≡ₚ o.
Proof.
  unfold Object_entries. rewrite indexed_entries_perm.
  induction o as [|e o IH]; [done|].
  destruct (array_index e.1) as [n|] eqn:Hn.
  - rewrite filter_cons_True by (by rewrite Hn).
    rewrite filter_cons_False by (by rewrite Hn). simpl. by rewrite IH.
  - rewrite filter_cons_False by (rewrite Hn; tauto).
    rewrite filter_cons_True by done.
    rewrite <- Permutation_middle. by rewrite IH.
Qed.

(** With no array index among the keys, the entries come in the order
    the keys were created. *)
Lemma Object_entries_named o :
  Forall (fun e => array_index e.1 = None) o -> Object_entries o = o.
Proof.
  intros H. unfold Object_entries.
  assert (indexed_entries o = []) as ->.
  { induction H as [|e o He Ho IH]; simpl; [done|]. by rewrite He. }
  simpl. by apply filter_keep.
Qed.

(** Updates in place, one for each entry of a list with distinct keys
    that the object has: none fails, the keys stay as they are, and
    each value sees the update of its own key only. *)
Lemma foldl_obj_modify (g : V -> number -> V) (l : list (jsstring * number)) o :
  NoDup l.*1 -> (forall k, k ∈ l.*1 -> k ∈ o.*1) ->
  exists o',
    foldl (fun m e => m ≫= obj_modify e.1 (fun v => g v e.2)) (Some o) l
    = Some o'
    /\ o'.*1 = o.*1
    /\ (forall k pts, (k, pts) ∈ l ->
          obj_get k o' = (fun v => g v pts) <$> obj_get k o)
    /\ (forall k, k ∉ l.*1 -> obj_get k o' = obj_get k o).
Proof.
  revert o. induction l as [|e l IH]; intros o Hnd Hkeys.
  - exists o. split; [done|]. split; [done|]. split; [|done].
    intros k pts H. by apply elem_of_nil in H.
  - apply NoDup_cons in Hnd as [Hne Hnd]. cbn [foldl mbind option_bind].
    assert (e.1 ∈ o.*1) as He by (apply Hkeys; apply list_elem_of_here).
    apply obj_get_Some in He as [v Hv]. unfold obj_modify at 2. rewrite Hv.
    destruct (IH (obj_set e.1 (g v e.2) o) Hnd) as (o' & Ho' & Hk' & Hin & Hout).
    { intros k Hk. rewrite obj_set_keys.
      rewrite decide_True by (apply obj_get_Some; eauto).
      apply Hkeys. by apply list_elem_of_further. }
    exists o'. split; [exact Ho'|]. split; [|split].
    + rewrite Hk', obj_set_keys.
      by rewrite decide_True by (apply obj_get_Some; eauto).
    + intros k pts H. apply elem_of_cons in H as [H|H].
      * subst e. simpl in *. rewrite Hout by done.
        rewrite obj_get_set, decide_True by done. by rewrite Hv.
      * rewrite (Hin k pts H), obj_get_set.
        rewrite decide_False; [done|]. intros Heq. apply Hne.
        apply list_elem_of_fmap. by exists (k, pts).
    + intros k Hk. rewrite Hout by (intros H; apply Hk; by apply list_elem_of_further).
      rewrite obj_get_set, decide_False; [done|].
      intros <-. apply Hk. apply list_elem_of_here.
Qed.

End ObjectFacts.

(** ** The leaderboard *)

(** The entries created for the athletes. *)
Lemma leaderboard_init (roster : list Athlete) :
  let map0 :=
    foldl (fun o a => obj_set (id a) (new_standing a) o) [] roster in
  NoDup map0.*1
  /\ (forall k, k ∈ map0.*1 <-> k ∈ map id roster)
  /\ (forall k st, obj_get k map0 = Some st ->
        totalPoints st = 0%float /\ breakdown_pl st = 0%float
        /\ breakdown_run st = 0%float
        /\ exists a, a ∈ roster /\ id a = k /\ standing_name st = name a)
  /\ (NoDup (map id roster) -> forall a, a ∈ roster ->
        exists st, obj_get (id a) map0 = Some st /\ standing_name st = name a).
Proof.
  cbv zeta. induction roster as [|a roster IH] using rev_ind.
  - simpl. split; [constructor|]. split; [done|]. split; [discriminate|].
    intros _ a Ha. by apply elem_of_nil in Ha.
  - rewrite foldl_app. cbn [foldl].
    destruct IH as (Hnd & Hkeys & Hget & Hname).
    split; [by apply obj_set_NoDup|]. split; [|split].
    + intros k. rewrite obj_set_keys, fmap_app. cbn [fmap list_fmap].
      rewrite elem_of_app, list_elem_of_singleton.
      destruct (decide (id a ∈ _)) as [Hin|Hin].
      * rewrite Hkeys. split; [tauto|]. intros [H| ->]; [done|].
        by apply Hkeys.
      * by rewrite elem_of_app, list_elem_of_singleton, Hkeys.
    + intros k st. rewrite obj_get_set.
      destruct (decide (id a = k)) as [<-|Hne].
      * intros [= <-]. simpl. repeat split. exists a.
        rewrite elem_of_app, list_elem_of_singleton. auto.
      * intros H. destruct (Hget k st H) as (? & ? & ? & b & Hb & ? & ?).
        repeat split; try done. exists b. rewrite elem_of_app. auto.
    + rewrite fmap_app. intros Hnd' b Hb.
      apply NoDup_app in Hnd' as (Hnd1 & Hnd2 & _).
      rewrite obj_get_set. apply elem_of_app in Hb as [Hb|Hb].
      * rewrite decide_False.
        { by apply Hname. }
        intros Heq. apply (Hnd2 (id b)).
        -- apply list_elem_of_fmap. eauto.
        -- rewrite <- Heq. simpl. apply list_elem_of_here.
      * apply list_elem_of_singleton in Hb as ->.
        rewrite decide_True by done. eauto.
Qed.

(** An athlete whose id is [__proto__] leaves no entry in the map. *)
Lemma leaderboard_init_entries (roster : list Athlete) (m0 : StandingMap) :
  map_entries (foldl (fun m a => map_set (id a) (new_standing a) m) m0 roster)
  = foldl (fun o a => obj_set (id a) (new_standing a) o) (map_entries m0)
          (filter (fun a => id a <> PROTO) roster).
Proof.
  revert m0. induction roster as [|a roster IH]; intros m0; [done|].
  cbn [foldl]. rewrite IH. unfold map_set.
  destruct (decide (id a = PROTO)) as [Hp|Hp].
  - by rewrite filter_cons_False by (intros H; by apply H).
  - by rewrite filter_cons_True by done.
Qed.

(** Updates in place, one for each entry of a list with distinct keys
    that the map holds: none fails, the keys stay as they are, and each
    value sees the update of its own key only. *)
Lemma foldl_map_modify (g : Standing -> number -> Standing)
  (l : list (jsstring * number)) (m : StandingMap) :
  NoDup l.*1 -> (forall k, k ∈ l.*1 -> k ∈ (map_entries m).*1) ->
  exists o',
    foldl (fun m e => m ≫= map_modify e.1 (fun v => g v e.2)) (Some m) l
    = Some {| map_entries := o'; map_proto := map_proto m |}
    /\ o'.*1 = (map_entries m).*1
    /\ (forall k pts, (k, pts) ∈ l ->
          obj_get k o' = (fun v => g v pts) <$> obj_get k (map_entries m))
    /\ (forall k, k ∉ l.*1 -> obj_get k o' = obj_get k (map_entries m)).
Proof.
  revert m. induction l as [|e l IH]; intros m Hnd Hkeys.
  - exists (map_entries m). split; [by destruct m|]. split; [done|].
    split; [|done]. intros k pts H. by apply elem_of_nil in H.
  - apply NoDup_cons in Hnd as [Hne Hnd]. cbn [foldl mbind option_bind].
    assert (e.1 ∈ (map_entries m).*1) as He
      by (apply Hkeys; apply list_elem_of_here).
    apply obj_get_Some in He as [v Hv]. unfold map_modify at 2. rewrite Hv.
    destruct (IH {| map_entries := obj_set e.1 (g v e.2) (map_entries m);
                    map_proto := map_proto m |} Hnd)
      as (o' & Ho' & Hk' & Hin & Hout).
    { intros k Hk. cbn [map_entries]. rewrite obj_set_keys.
      rewrite decide_True by (apply obj_get_Some; eauto).
      apply Hkeys. by apply list_elem_of_further. }
    cbn [map_entries map_proto] in *.
    exists o'. split; [exact Ho'|]. split; [|split].
    + rewrite Hk', obj_set_keys.
      by rewrite decide_True by (apply obj_get_Some; eauto).
    + intros k pts H. apply elem_of_cons in H as [H|H].
      * subst e. simpl in *. rewrite Hout by done.
        rewrite obj_get_set, decide_True by done. by rewrite Hv.
      * rewrite (Hin k pts H), obj_get_set.
        rewrite decide_False; [done|]. intros Heq. apply Hne.
        apply list_elem_of_fmap. by exists (k, pts).
    + intros k Hk. rewrite Hout by (intros H; apply Hk; by apply list_elem_of_further).
      rewrite obj_get_set, decide_False; [done|].
      intros <-. apply Hk. apply list_elem_of_here.
Qed.

(** The [map] of the leaderboard once the points are added. *)
Lemma leaderboard_map_facts state :
  exists m,
    leaderboard_map state = Some m
    /\ NoDup (map_entries m).*1
    /\ (forall k, k ∈ (map_entries m).*1
                  <-> k ∈ map id (athletes state) /\ k <> PROTO)
    /\ (forall k st, (k, st) ∈ map_entries m ->
          exists pl run,
            ranking_points (plScores state) !! k = Some pl
            /\ ranking_points (runScores state) !! k = Some run
            /\ totalPoints st = (0 + pl + run)%float
            /\ breakdown_pl st = (0 + pl)%float
            /\ breakdown_run st = (0 + run)%float)
    /\ (NoDup (map id (athletes state)) ->
        forall a, a ∈ athletes state -> id a <> PROTO ->
          exists st, (id a, st) ∈ map_entries m /\ standing_name st = name a).
Proof.
  unfold leaderboard_map.
  set (m0 := foldl _ _ (athletes state)).
  set (roster := filter (fun a => id a <> PROTO) (athletes state)).
  assert (map_entries m0
          = foldl (fun o a => obj_set (id a) (new_standing a) o) [] roster)
    as Hm0 by apply leaderboard_init_entries.
  destruct (leaderboard_init roster) as (Hnd0 & Hkeys0 & Hget0 & Hname0).
  cbv zeta in Hnd0, Hkeys0, Hget0, Hname0. rewrite <- Hm0 in *.
  assert (forall k, k ∈ map id roster
                    <-> k ∈ map id (athletes state) /\ k <> PROTO) as Hroster.
  { intros k. unfold roster. rewrite !list_elem_of_fmap. split.
    - intros (a & -> & Ha). apply list_elem_of_filter in Ha as [Hp Ha]. eauto.
    - intros [(a & -> & Ha) Hp]. exists a. split; [done|].
      by apply list_elem_of_filter. }
  set (P1 := ranking_points (plScores state)).
  set (P2 := ranking_points (runScores state)).
  assert (forall score k, is_Some (ranking_points (ranking score state) !! k) ->
            k ∈ (map_entries m0).*1) as Hpoints.
  { intros score k Hk. apply Hkeys0, Hroster. split.
    - destruct (ranking_points_keys score state k Hk) as (a & Ha & <-).
      apply list_elem_of_fmap. eauto.
    - intros ->. rewrite (ranking_points_proto score state) in Hk.
      by destruct Hk. }
  destruct (foldl_map_modify
              (fun v pts => {| standing_name := standing_name v;
                               totalPoints := (totalPoints v + pts)%float;
                               breakdown_pl := (breakdown_pl v + pts)%float;
                               breakdown_run := breakdown_run v |})
              (map_to_list P1) m0)
    as (o1 & Hmap1 & Hkeys1 & Hin1 & _).
  { apply NoDup_fst_map_to_list. }
  { intros k Hk. apply (Hpoints plScore).
    apply list_elem_of_fmap in Hk as ([k' v] & -> & Hk).
    apply elem_of_map_to_list in Hk. by eexists. }
  destruct (foldl_map_modify
              (fun v pts => {| standing_name := standing_name v;
                               totalPoints := (totalPoints v + pts)%float;
                               breakdown_pl := breakdown_pl v;
                               breakdown_run := (breakdown_run v + pts)%float |})
              (map_to_list P2)
              {| map_entries := o1; map_proto := map_proto m0 |})
    as (o2 & Hmap2 & Hkeys2 & Hin2 & _).
  { apply NoDup_fst_map_to_list. }
  { intros k Hk. cbn [map_entries]. rewrite Hkeys1. apply (Hpoints runScore).
    apply list_elem_of_fmap in Hk as ([k' v] & -> & Hk).
    apply elem_of_map_to_list in Hk. by eexists. }
  cbn [map_entries map_proto] in *.
  change (foldl add_pl (Some m0) (map_to_list P1)) with
    (foldl (fun m e => m ≫= map_modify e.1
              (fun v => {| standing_name := standing_name v;
                           totalPoints := (totalPoints v + e.2)%float;
                           breakdown_pl := (breakdown_pl v + e.2)%float;
                           breakdown_run := breakdown_run v |}))
           (Some m0) (map_to_list P1)).
  rewrite Hmap1.
  change (foldl add_run (Some ?x) (map_to_list P2)) with
    (foldl (fun m e => m ≫= map_modify e.1
              (fun v => {| standing_name := standing_name v;
                           totalPoints := (totalPoints v + e.2)%float;
                           breakdown_pl := breakdown_pl v;
                           breakdown_run := (breakdown_run v + e.2)%float |}))
           (Some x) (map_to_list P2)).
  rewrite Hmap2.
  assert (NoDup o2.*1) as Hnd2 by (by rewrite Hkeys2, Hkeys1).
  assert (forall k, k ∈ map id (athletes state) -> k <> PROTO ->
            exists st0 pl run,
              obj_get k (map_entries m0) = Some st0
              /\ P1 !! k = Some pl /\ P2 !! k = Some run
              /\ obj_get k o2
                 = Some {| standing_name := standing_name st0;
                           totalPoints := (totalPoints st0 + pl + run)%float;
                           breakdown_pl := (breakdown_pl st0 + pl)%float;
                           breakdown_run := (breakdown_run st0 + run)%float |})
    as Hrow.
  { intros k Hk Hp.
    assert (is_Some (obj_get k (map_entries m0))) as [st0 Hst0].
    { by apply obj_get_Some, Hkeys0, Hroster. }
    apply list_elem_of_fmap in Hk as (a & -> & Ha).
    destruct (ranking_points_present plScore state a Ha Hp) as [pl Hpl].
    destruct (ranking_points_present runScore state a Ha Hp) as [run Hrun].
    exists st0, pl, run. repeat split; try done.
    rewrite (Hin2 (id a) run) by (by apply elem_of_map_to_list).
    rewrite (Hin1 (id a) pl) by (by apply elem_of_map_to_list).
    by rewrite Hst0. }
  eexists. split; [done|]. cbn [map_entries].
  split; [done|]. split; [|split].
  - intros k. rewrite Hkeys2, Hkeys1, Hkeys0. apply Hroster.
  - intros k st Hst. apply obj_get_elem in Hst; [|done].
    assert (k ∈ map id (athletes state) /\ k <> PROTO) as [Hk Hp].
    { apply Hroster, Hkeys0. rewrite <- Hkeys1, <- Hkeys2.
      apply obj_get_Some. eauto. }
    destruct (Hrow k Hk Hp) as (st0 & pl & run & Hst0 & Hpl & Hrun & Hget).
    destruct (Hget0 k st0 Hst0) as (Ht & Hb & Hr & _).
    exists pl, run. rewrite Hget in Hst. injection Hst as <-. simpl.
    by rewrite Ht, Hb, Hr.
  - intros Hnd a Ha Hp.
    assert (NoDup (map id roster)) as Hndr.
    { unfold roster.
      apply (sublist_NoDup _ (map id (athletes state))); [exact Hnd|].
      apply fmap_sublist, sublist_filter. }
    destruct (Hname0 Hndr a) as (st0 & Hst0 & Hn).
    { by apply list_elem_of_filter. }
    destruct (Hrow (id a)) as (st0' & pl & run & Hst0' & _ & _ & Hget);
      [apply list_elem_of_fmap; eauto | done |].
    rewrite Hst0 in Hst0'. injection Hst0' as <-.
    eexists. split.
    + apply obj_get_elem; [done|]. exact Hget.
    + done.
Qed.

(** The rows are the entries of the map, in some order. *)
Lemma leaderboard_rows state rows :
  leaderboard state = Some rows ->
  exists m, leaderboard_map state = Some m /\ rows ≡ₚ map_entries m.
Proof.
  unfold leaderboard. destruct (leaderboard_map state) as [m|]; [|discriminate].
  intros [= <-]. exists m. split; [done|].
  by rewrite sort_perm, Object_entries_perm.
Qed.

(** The [leaderboard] memo never fails (every id with points has an
    entry in the map). It has one row for each id of the roster other
    than [__proto__], which gets none; the total of a row is
    [0 + pl + run] for the points its id has in the two rankings, with
    the breakdown [0 + pl] and [0 + run]. With distinct ids, the row of
    an athlete bears the athlete's name. When every total is finite (the
    differences the comparator takes are then numbers), no row is
    followed by one with a higher total. *)
Theorem leaderboard_spec state :
  exists rows,
    leaderboard state = Some rows
    /\ NoDup rows.*1
    /\ (forall k, k ∈ rows.*1 <-> k ∈ map id (athletes state) /\ k <> PROTO)
    /\ (forall k st, (k, st) ∈ rows ->
          exists pl run,
            ranking_points (plScores state) !! k = Some pl
            /\ ranking_points (runScores state) !! k = Some run
            /\ totalPoints st = (0 + pl + run)%float
            /\ breakdown_pl st = (0 + pl)%float
            /\ breakdown_run st = (0 + run)%float)
    /\ (NoDup (map id (athletes state)) ->
        forall a, a ∈ athletes state -> id a <> PROTO ->
          exists st, (id a, st) ∈ rows /\ standing_name st = name a)
    /\ (Forall (fun r => isFinite (totalPoints r.2) = true) rows ->
        forall i a b, rows !! i = Some a -> rows !! S i = Some b ->
          (0 <? totalPoints b.2 - totalPoints a.2)%float = false).
Proof.
  destruct (leaderboard_map_facts state)
    as (m & Hm & Hnd & Hkeys & Hrow & Hname).
  unfold leaderboard. rewrite Hm. cbn [fmap option_fmap option_map].
  set (rows := sort _ (Object_entries (map_entries m))).
  assert (rows ≡ₚ map_entries m) as Hperm.
  { unfold rows. by rewrite sort_perm, Object_entries_perm. }
  exists rows. split; [done|]. split; [by rewrite Hperm|].
  split; [|split; [|split]].
  - intros k. rewrite Hperm. apply Hkeys.
  - intros k st Hst. rewrite Hperm in Hst. by apply Hrow.
  - intros Hnd' a Ha Hp. destruct (Hname Hnd' a Ha Hp) as (st & Hst & Hn).
    exists st. by rewrite Hperm.
  - intros _ i a b Ha Hb.
    apply (sort_in_order
             (fun a b : jsstring * Standing =>
                (totalPoints b.2 - totalPoints a.2)%float)
             (Object_entries (map_entries m))) with (i := i); [|done|done].
    intros x y. unfold sorts_after. apply sub_antisym.
Qed.

(** ** Editing the roster *)

Section AllocationAppend.
Variable ss : list ScoreRow.
Variable u : ScoreRow.
Variable table : list number.
Hypothesis u_unscored : row_score u = None.

Lemma scan_ties_append fuel fuel' c j :
  length ss - j <= fuel -> length ss - j <= fuel' ->
  scan_ties (ss ++ [u]) fuel' c j = scan_ties ss fuel c j.
Proof using u_unscored.
  revert fuel' j. induction fuel as [|fuel IH]; intros fuel' j Hf Hf'.
  - simpl. destruct fuel' as [|fuel']; [done|]. simpl.
    destruct (decide (j = length ss)) as [->|Hne].
    + rewrite list_lookup_middle by done. by rewrite u_unscored.
    + rewrite (proj2 (lookup_ge_None _ _)); [done|]. rewrite length_app. simpl. lia.
  - destruct fuel' as [|fuel'].
    + simpl. rewrite (proj2 (lookup_ge_None ss j)); [done | lia].
    + simpl. destruct (ss !! j) as [r|] eqn:Hj.
      * rewrite lookup_app_l by (by eapply lookup_lt_Some). rewrite Hj.
        destruct (score_is (row_score r) c); [|done]. apply IH; lia.
      * apply lookup_ge_None in Hj.
        destruct (decide (j = length ss)) as [->|Hne].
        -- rewrite list_lookup_middle by done. by rewrite u_unscored.
        -- rewrite (proj2 (lookup_ge_None _ _)); [done|].
           rewrite length_app. simpl. lia.
Qed.

Lemma assign_ranks_append v ks res :
  Forall (fun k => k < length ss) ks ->
  assign_ranks (ss ++ [u]) v ks res = assign_ranks ss v ks res.
Proof.
  intros H. revert res. induction H as [|k ks Hk Hks IH]; intros res; [done|].
  simpl. rewrite lookup_app_l by done. apply IH.
Qed.

Lemma assign_append i j v res :
  j <= length ss -> assign (ss ++ [u]) i j v res = assign ss i j v res.
Proof.
  intros Hj. rewrite !assign_unfold. apply assign_ranks_append.
  apply Forall_forall. intros k Hk. apply elem_of_seq_range in Hk. lia.
Qed.

Lemma assign_append_last i v res :
  i <= length ss ->
  assign (ss ++ [u]) i (length (ss ++ [u])) v res
  = set_number (row_id u) v (assign ss i (length ss) v res).
Proof.
  intros Hi. rewrite !assign_unfold, length_app. simpl.
  replace (length ss + 1 - i) with ((length ss - i) + 1) by lia.
  rewrite seq_app. unfold assign_ranks at 1. rewrite fold_left_app.
  fold (assign_ranks (ss ++ [u]) v (seq i (length ss - i)) res).
  rewrite assign_ranks_append.
  - simpl. replace (i + (length ss - i)) with (length ss) by lia.
    by rewrite list_lookup_middle.
  - apply Forall_forall. intros k Hk. apply elem_of_seq_range in Hk. lia.
Qed.

Lemma alloc_loop_append fuel i res :
  length ss - i <= fuel -> i <= length ss ->
  alloc_loop (ss ++ [u]) table (S fuel) i res
  = set_number (row_id u) 0%float (alloc_loop ss table fuel i res).
Proof using u_unscored.
  revert i res. induction fuel as [|fuel IH]; intros i res Hf Hi.
  - assert (i = length ss) as -> by lia. simpl.
    rewrite list_lookup_middle by done. rewrite u_unscored.
    rewrite assign_append_last by done.
    rewrite assign_unfold. by rewrite Nat.sub_diag.
  - cbn [alloc_loop]. destruct (ss !! i) as [cur|] eqn:Hcur.
    + rewrite lookup_app_l by (by eapply lookup_lt_Some). rewrite Hcur.
      pose proof (lookup_lt_Some _ _ _ Hcur) as Hlt.
      destruct (row_score cur) as [c|].
      * rewrite (scan_ties_append (length ss) (length (ss ++ [u])) c (i + 1))
          by (rewrite ?length_app; simpl; lia).
        pose proof (scan_ties_ge ss (length ss) c (i + 1)).
        pose proof (scan_ties_le ss (length ss) c (i + 1) ltac:(lia)).
        rewrite assign_append by done.
        apply IH; lia.
      * by apply assign_append_last.
    + apply lookup_ge_None in Hcur. assert (i = length ss) as -> by lia.
      rewrite list_lookup_middle by done. rewrite u_unscored.
      rewrite assign_append_last by done.
      rewrite assign_unfold. by rewrite Nat.sub_diag.
Qed.

Lemma allocatePointsByRank_append :
  allocatePointsByRank (ss ++ [u]) table
  = set_number (row_id u) 0%float (allocatePointsByRank ss table).
Proof using u_unscored.
  unfold allocatePointsByRank. rewrite length_app. simpl.
  replace (length ss + 1) with (S (length ss)) by lia.
  apply alloc_loop_append; lia.
Qed.

End AllocationAppend.

Lemma rank_rows_append score roster a :
  score a = None ->
  rank_rows score (roster ++ [a]) = rank_rows score roster ++ [rank_row score a].
Proof.
  intros Ha. rewrite !rank_rows_split, fmap_app, !filter_app. simpl.
  rewrite (filter_cons_False _ (rank_row score a))
    by (unfold unscored; simpl; by rewrite Ha).
  rewrite (filter_cons_True _ (rank_row score a))
    by (unfold unscored; simpl; by rewrite Ha).
  rewrite !filter_nil, app_nil_r. by rewrite <- app_assoc.
Qed.

(** [addAthlete] puts an athlete without results at the end of the
    roster: the new row is the last of both rankings, and the points are
    the former ones after the assignment [points[uid] = 0]: the new id
    has 0 points and no other id has its points changed (for every
    identifier but [__proto__], which [uid()] does not return, the
    assignment sets the entry of the identifier). *)
Theorem addAthlete_spec uid state :
  let state' := addAthlete uid state in
  (exists a, athletes state' = athletes state ++ [a]
             /\ id a = uid /\ plScore a = None /\ runScore a = None)
  /\ pointsTable state' = pointsTable state
  /\ (forall score new,
        athletes state' = athletes state ++ [new] -> score new = None ->
        ranking_rows (ranking score state')
        = ranking_rows (ranking score state) ++ [rank_row score new]
        /\ ranking_points (ranking score state')
           = set_number uid 0%float (ranking_points (ranking score state)))
  /\ ranking_points (plScores state')
     = set_number uid 0%float (ranking_points (plScores state))
  /\ ranking_points (runScores state')
     = set_number uid 0%float (ranking_points (runScores state))
  /\ (uid <> PROTO ->
      ranking_points (plScores state')
      = <[uid := 0%float]> (ranking_points (plScores state))
      /\ ranking_points (runScores state')
         = <[uid := 0%float]> (ranking_points (runScores state))).
Proof.
  cbv zeta.
  assert (forall score,
            score {| id := uid; name := js "New Athlete"; sex := M; age := None;
                     bodyweight := None; squat := None; bench := None;
                     deadlift := None; runTime := [] |} = None ->
            ranking_rows (ranking score (addAthlete uid state))
            = ranking_rows (ranking score state)
              ++ [rank_row score
                    {| id := uid; name := js "New Athlete"; sex := M; age := None;
                       bodyweight := None; squat := None; bench := None;
                       deadlift := None; runTime := [] |}]
            /\ ranking_points (ranking score (addAthlete uid state))
               = set_number uid 0%float (ranking_points (ranking score state)))
    as Hgen.
  { intros score Hnull. unfold ranking, addAthlete, set_athletes.
    cbn [ranking_rows ranking_points athletes].
    rewrite rank_rows_append by done. split; [done|].
    rewrite fmap_app. simpl.
    change (pointsTable _) with (pointsTable state) at 1.
    by rewrite allocatePointsByRank_append. }
  split; [|split; [done|split; [|split; [|split]]]].
  - eexists. split; [reflexivity|]. repeat split.
  - intros score new Hnew Hnull.
    unfold addAthlete, set_athletes in Hnew. cbn [athletes] in Hnew.
    apply app_inj_tail in Hnew as [_ <-]. by apply Hgen.
  - by apply (Hgen plScore).
  - by apply (Hgen runScore).
  - intros Hp. unfold plScores, runScores.
    destruct (Hgen plScore eq_refl) as [_ ->].
    destruct (Hgen runScore eq_refl) as [_ ->].
    unfold set_number. by destruct (decide (uid = PROTO)).
Qed.

(** [removeAthlete] drops the athletes with the given id and keeps the
    others in their order; afterwards the id has no row and no points
    in the rankings and no row in the leaderboard. Without an athlete
    of that id nothing changes. *)
Theorem removeAthlete_spec i state :
  let state' := removeAthlete i state in
  athletes state' `sublist_of` athletes state
  /\ (forall a, a ∈ athletes state' <-> a ∈ athletes state /\ id a <> i)
  /\ (forall score,
        ranking_points (ranking score state') !! i = None
        /\ forall r, r ∈ ranking_rows (ranking score state') -> rank_id r <> i)
  /\ (forall rows, leaderboard state' = Some rows -> i ∉ rows.*1)
  /\ (i ∉ map id (athletes state) -> state' = state).
Proof.
  cbv zeta. unfold removeAthlete, set_athletes.
  split; [apply sublist_filter|]. split; [|split; [|split]].
  - intros a. cbn [athletes]. rewrite list_elem_of_filter. tauto.
  - intros score. split.
    + apply eq_None_not_Some. intros H.
      apply ranking_points_keys in H as (a & Ha & Hid).
      cbn [athletes] in Ha. apply list_elem_of_filter in Ha as [Ha _]. done.
    + intros r Hr. unfold ranking in Hr. cbn [ranking_rows athletes] in Hr.
      apply rank_rows_elem in Hr as (a & Ha & ->).
      by apply list_elem_of_filter in Ha as [Ha _].
  - intros rows Hrows Hin.
    apply leaderboard_rows in Hrows as (m & Hm & Hperm).
    destruct (leaderboard_map_facts
                {| title := title state; pointsPreset := pointsPreset state;
                   pointsCustom := pointsCustom state;
                   athletes := filter (fun a => id a <> i) (athletes state) |})
      as (m' & Hm' & _ & Hkeys & _).
    rewrite Hm in Hm'. injection Hm' as <-.
    rewrite Hperm in Hin. apply Hkeys in Hin as [Hin _].
    cbn [athletes] in Hin.
    apply list_elem_of_fmap in Hin as (a & Hid & Ha).
    apply list_elem_of_filter in Ha as [Ha _]. done.
  - intros Hno. destruct state as [t p c l]. cbn [athletes title pointsPreset pointsCustom] in *.
    f_equal. apply filter_keep. apply Forall_forall. intros a Ha Hid.
    apply Hno. apply list_elem_of_fmap. eauto.
Qed.

Lemma sort_nil_rows score roster :
  Forall (fun a => score a = None) roster ->
  rank_rows score roster = map (rank_row score) roster.
Proof.
  intros H. rewrite rank_rows_split.
  rewrite filter_drop, filter_keep; [done| |].
  - apply Forall_fmap. eapply Forall_impl; [exact H|].
    intros a Ha. unfold unscored, compose. simpl. by rewrite Ha.
  - apply Forall_fmap. eapply Forall_impl; [exact H|].
    intros a Ha. unfold unscored, compose. simpl. by rewrite Ha.
Qed.

(** [clearNumbers], once confirmed, wipes the lifts and the run time of
    every athlete and keeps the rest (the bodyweight too): nobody has a
    score, both rankings list the roster in its order with 0 points for
    every id (but [__proto__], which has no points), and every total of
    the leaderboard is 0. Declined, it changes nothing. *)
Theorem clearNumbers_spec state :
  clearNumbers false state = state
  /\ let state' := clearNumbers true state in
     map (fun a => (id a, name a, sex a, age a, bodyweight a)) (athletes state')
     = map (fun a => (id a, name a, sex a, age a, bodyweight a)) (athletes state)
     /\ pointsTable state' = pointsTable state
     /\ (forall a, a ∈ athletes state' -> plScore a = None /\ runScore a = None)
     /\ ranking_rows (plScores state') = map (rank_row plScore) (athletes state')
     /\ ranking_rows (runScores state') = map (rank_row runScore) (athletes state')
     /\ (forall k, k ∈ map id (athletes state) -> k <> PROTO ->
           ranking_points (plScores state') !! k = Some 0%float
           /\ ranking_points (runScores state') !! k = Some 0%float)
     /\ (forall rows k st,
           leaderboard state' = Some rows -> (k, st) ∈ rows ->
           totalPoints st = 0%float /\ breakdown_pl st = 0%float
           /\ breakdown_run st = 0%float).
Proof.
  split; [done|]. cbv zeta. unfold clearNumbers, set_athletes.
  set (state' := {| title := title state; pointsPreset := pointsPreset state;
                    pointsCustom := pointsCustom state; athletes := _ |}).
  assert (forall a, a ∈ athletes state' -> plScore a = None /\ runScore a = None)
    as Hnull.
  { intros a Ha. unfold state' in Ha. cbn [athletes] in Ha.
    apply list_elem_of_fmap in Ha as (b & -> & _). split; [|done].
    unfold plScore, athlete_total. simpl. by destruct (bodyweight b). }
  assert (forall k, k ∈ map id (athletes state) -> k <> PROTO ->
            ranking_points (plScores state') !! k = Some 0%float
            /\ ranking_points (runScores state') !! k = Some 0%float) as Hzero.
  { intros k Hk Hp.
    assert (exists a, a ∈ athletes state' /\ id a = k) as (a & Ha & <-).
    { apply list_elem_of_fmap in Hk as (b & -> & Hb). eexists. split.
      - unfold state'. cbn [athletes]. apply list_elem_of_fmap. eauto.
      - done. }
    destruct (Hnull a Ha) as [Hpl Hrun]. split.
    - by apply (ranking_points_unscored plScore).
    - by apply (ranking_points_unscored runScore). }
  split; [|split; [done|split; [done|split; [|split; [|split; [done|]]]]]].
  - unfold state'. cbn [athletes]. rewrite <- list_fmap_compose. done.
  - apply sort_nil_rows. apply Forall_forall. intros a Ha. by apply Hnull.
  - apply sort_nil_rows. apply Forall_forall. intros a Ha. by apply Hnull.
  - intros rows k st Hrows Hst.
    apply leaderboard_rows in Hrows as (m & Hm & Hperm).
    destruct (leaderboard_map_facts state') as (m' & Hm' & _ & Hkeys & Hrow & _).
    rewrite Hm in Hm'. injection Hm' as <-. rewrite Hperm in Hst.
    destruct (Hrow k st Hst) as (pl & run & Hpl & Hrun & -> & -> & ->).
    assert (k ∈ map id (athletes state) /\ k <> PROTO) as [Hk Hp].
    { assert (k ∈ (map_entries m).*1) as Hk
        by (apply list_elem_of_fmap; by exists (k, st)).
      apply Hkeys in Hk as [Hk Hp]. split; [|done].
      unfold state' in Hk. cbn [athletes] in Hk.
      by rewrite <- list_fmap_compose in Hk. }
    destruct (Hzero k Hk Hp) as [Hpl' Hrun'].
    rewrite Hpl in Hpl'. rewrite Hrun in Hrun'.
    injection Hpl' as ->. injection Hrun' as ->. done.
Qed.

Lemma ranking_same_rows score state state' :
  pointsTable state' = pointsTable state ->
  map (rank_row score) (athletes state') = map (rank_row score) (athletes state) ->
  ranking score state' = ranking score state.
Proof. intros Ht Hr. unfold ranking, rank_rows. by rewrite Ht, Hr. Qed.

(** [updateAthlete] changes the athletes with the given id, and of them
    only the fields the patch gives; the roster keeps its length and
    order. An edit that gives no id, name, sex, bodyweight or lift leaves
    the strength ranking as it is, and an edit that gives no id, name or
    run time leaves the 5k ranking as it is. *)
Theorem updateAthlete_spec i patch state :
  let state' := updateAthlete i patch state in
  length (athletes state') = length (athletes state)
  /\ (forall k a, athletes state !! k = Some a ->
        athletes state' !! k
        = Some (if decide (id a = i) then patched a patch else a))
  /\ (patch_id patch = None ->
      map id (athletes state') = map id (athletes state))
  /\ (i ∉ map id (athletes state) -> state' = state)
  /\ (patch_id patch = None -> patch_name patch = None ->
      patch_sex patch = None -> patch_bodyweight patch = None ->
      patch_squat patch = None -> patch_bench patch = None ->
      patch_deadlift patch = None ->
      plScores state' = plScores state)
  /\ (patch_id patch = None -> patch_name patch = None ->
      patch_runTime patch = None ->
      runScores state' = runScores state).
Proof.
  cbv zeta. unfold updateAthlete, set_athletes. cbn [athletes].
  split; [by rewrite length_map|]. split; [|split; [|split; [|split]]].
  - intros k a Ha. by rewrite list_lookup_fmap, Ha.
  - intros Hid. rewrite <- list_fmap_compose. apply list_fmap_ext.
    intros k a _. unfold compose. destruct (decide (id a = i)); [|done].
    unfold patched. simpl. by rewrite Hid.
  - intros Hno. destruct state as [t p c l]. cbn [athletes title pointsPreset pointsCustom] in *.
    f_equal. rewrite <- (list_fmap_id l) at 2. apply list_fmap_ext.
    intros k a Ha. rewrite decide_False; [done|]. intros Hid. apply Hno.
    apply list_elem_of_fmap. exists a. split; [done|].
    by eapply list_elem_of_lookup_2.
  - intros Hid Hname Hsex Hbw Hs Hb Hd. apply ranking_same_rows; [done|].
    cbn [athletes]. rewrite <- list_fmap_compose. apply list_fmap_ext.
    intros k a _. unfold compose. destruct (decide (id a = i)); [|done].
    unfold rank_row, plScore, athlete_total, patched. simpl.
    by rewrite Hid, Hname, Hsex, Hbw, Hs, Hb, Hd.
  - intros Hid Hname Hrun. apply ranking_same_rows; [done|].
    cbn [athletes]. rewrite <- list_fmap_compose. apply list_fmap_ext.
    intros k a _. unfold compose. destruct (decide (id a = i)); [|done].
    unfold rank_row, runScore, patched. simpl.
    by rewrite Hid, Hname, Hrun.
Qed.

(** ** The keys of the store *)

Lemma eventKey_not_lastOpen eid : eventKey eid <> KEY_LAST_OPEN.
Proof.
  intros Heq. apply (f_equal (fun l : jsstring => l !! 8%nat)) in Heq.
  vm_compute in Heq. discriminate.
Qed.

Lemma eventKey_not_theme eid : eventKey eid <> KEY_THEME.
Proof.
  intros Heq. apply (f_equal (fun l : jsstring => l !! 8%nat)) in Heq.
  vm_compute in Heq. discriminate.
Qed.

Section StoreKeys.
Context `{JSON State} `{JSON (list EventMeta)}.

Lemma loadEvent_saveEvent eid e s ls :
  loadEvent e (saveEvent eid s ls)
  = if decide (e = eid)
    then (if is_empty (JSON_stringify s) then None else JSON_parse (JSON_stringify s))
    else loadEvent e ls.
Proof.
  unfold loadEvent, saveEvent. destruct (decide (e = eid)) as [->|Hne].
  - by rewrite lookup_insert_eq.
  - rewrite lookup_insert_ne; [done|]. intros Heq. by apply eventKey_inj in Heq.
Qed.

Lemma loadEvent_deleteEvent eid e ls :
  loadEvent e (deleteEvent eid ls)
  = if decide (e = eid) then None else loadEvent e ls.
Proof.
  unfold loadEvent, deleteEvent. destruct (decide (e = eid)) as [->|Hne].
  - by rewrite lookup_delete_eq.
  - rewrite lookup_delete_ne; [done|]. intros Heq. by apply eventKey_inj in Heq.
Qed.

Lemma loadEvent_saveIndex e l ls :
  loadEvent e (saveIndex l ls) = loadEvent e ls.
Proof.
  unfold loadEvent, saveIndex. rewrite lookup_insert_ne; [done|].
  intros Heq. symmetry in Heq. by apply eventKey_not_index in Heq.
Qed.

Lemma loadEvent_setLastOpen e x ls :
  loadEvent e (setLastOpen x ls) = loadEvent e ls.
Proof.
  unfold loadEvent, setLastOpen.
  assert (KEY_LAST_OPEN <> eventKey e) as Hne.
  { intros Heq. symmetry in Heq. by apply eventKey_not_lastOpen in Heq. }
  destruct x as [x|]; [destruct (is_empty x)|];
    by rewrite ?lookup_insert_ne, ?lookup_delete_ne.
Qed.

Lemma getLastOpen_setLastOpen x ls :
  getLastOpen (setLastOpen x ls)
  = match x with
    | Some e => if is_empty e then None else Some e
    | None => None
    end.
Proof.
  unfold getLastOpen, setLastOpen.
  destruct x as [x|]; [destruct (is_empty x)|];
    by rewrite ?lookup_insert_eq, ?lookup_delete_eq.
Qed.

(** The four kinds of keys are apart: what is saved for an event, for
    the index, for the last open event and for the theme is read back by
    its own getter and seen by no other. An event is loaded as the text
    saved for it parses; once deleted it loads as null. The empty
    identifier clears the last open event, as null does. *)
Theorem storage_round_trips :
  (forall eid s ls,
     JSON_stringify s <> [] ->
     loadEvent eid (saveEvent eid s ls) = JSON_parse (JSON_stringify s))
  /\ (forall eid ls, loadEvent eid (deleteEvent eid ls) = None)
  /\ (forall eid e s ls, e <> eid ->
        loadEvent e (saveEvent eid s ls) = loadEvent e ls
        /\ loadEvent e (deleteEvent eid ls) = loadEvent e ls)
  /\ (forall e l x t ls,
        loadEvent e (saveIndex l ls) = loadEvent e ls
        /\ loadEvent e (setLastOpen x ls) = loadEvent e ls
        /\ loadEvent e (setTheme t ls) = loadEvent e ls)
  /\ (forall eid s x t ls,
        loadIndex (saveEvent eid s ls) = loadIndex ls
        /\ loadIndex (deleteEvent eid ls) = loadIndex ls
        /\ loadIndex (setLastOpen x ls) = loadIndex ls
        /\ loadIndex (setTheme t ls) = loadIndex ls)
  /\ (forall l ls,
        JSON_stringify l <> [] ->
        loadIndex (saveIndex l ls) = default [] (JSON_parse (JSON_stringify l)))
  /\ (forall e ls,
        getLastOpen (setLastOpen None ls) = None
        /\ getLastOpen (setLastOpen (Some []) ls) = None
        /\ (e <> [] -> getLastOpen (setLastOpen (Some e) ls) = Some e))
  /\ (forall eid s l t ls,
        getLastOpen (saveEvent eid s ls) = getLastOpen ls
        /\ getLastOpen (deleteEvent eid ls) = getLastOpen ls
        /\ getLastOpen (saveIndex l ls) = getLastOpen ls
        /\ getLastOpen (setTheme t ls) = getLastOpen ls)
  /\ (forall dark t ls, t <> [] -> getTheme dark (setTheme t ls) = t)
  /\ (forall dark eid s l x ls,
        getTheme dark (saveEvent eid s ls) = getTheme dark ls
        /\ getTheme dark (deleteEvent eid ls) = getTheme dark ls
        /\ getTheme dark (saveIndex l ls) = getTheme dark ls
        /\ getTheme dark (setLastOpen x ls) = getTheme dark ls).
Proof.
  assert (forall e, KEY_INDEX <> eventKey e) as Hi.
  { intros e Heq. symmetry in Heq. by apply eventKey_not_index in Heq. }
  assert (forall e, KEY_LAST_OPEN <> eventKey e) as Hl.
  { intros e Heq. symmetry in Heq. by apply eventKey_not_lastOpen in Heq. }
  assert (forall e, KEY_THEME <> eventKey e) as Ht.
  { intros e Heq. symmetry in Heq. by apply eventKey_not_theme in Heq. }
  assert (KEY_INDEX <> KEY_LAST_OPEN) as Hil by (vm_compute; discriminate).
  assert (KEY_INDEX <> KEY_THEME) as Hit by (vm_compute; discriminate).
  assert (KEY_LAST_OPEN <> KEY_THEME) as Hlt by (vm_compute; discriminate).
  split; [|split; [|split; [|split; [|split; [|split; [|split; [|split; [|split]]]]]]]].
  - intros eid s ls Hs. rewrite loadEvent_saveEvent, decide_True by done.
    by destruct (JSON_stringify s).
  - intros eid ls. by rewrite loadEvent_deleteEvent, decide_True.
  - intros eid e s ls Hne.
    by rewrite loadEvent_saveEvent, loadEvent_deleteEvent, !decide_False.
  - intros e l x t ls.
    rewrite loadEvent_saveIndex, loadEvent_setLastOpen. repeat split.
    unfold loadEvent, setTheme. by rewrite lookup_insert_ne.
  - intros eid s x t ls. unfold loadIndex, saveEvent, deleteEvent, setTheme.
    rewrite lookup_insert_ne, lookup_delete_ne, lookup_insert_ne by done.
    repeat split. unfold setLastOpen.
    destruct x as [x|]; [destruct (is_empty x)|];
      by rewrite ?lookup_insert_ne, ?lookup_delete_ne.
  - intros l ls Hl'. unfold loadIndex, saveIndex. rewrite lookup_insert_eq.
    by destruct (JSON_stringify l).
  - intros e ls. rewrite !getLastOpen_setLastOpen. repeat split.
    intros He. by destruct e.
  - intros eid s l t ls.
    unfold getLastOpen, saveEvent, deleteEvent, saveIndex, setTheme.
    by rewrite !lookup_insert_ne, lookup_delete_ne.
  - intros dark t ls Ht'. unfold getTheme, setTheme. rewrite lookup_insert_eq.
    by destruct t.
  - intros dark eid s l x ls.
    unfold getTheme, saveEvent, deleteEvent, saveIndex.
    rewrite !lookup_insert_ne, lookup_delete_ne by done. repeat split.
    unfold setLastOpen.
    destruct x as [x|]; [destruct (is_empty x)|];
      by rewrite ?lookup_insert_ne, ?lookup_delete_ne.
Qed.

End StoreKeys.

(** ** The actions of the manager *)

Section AppFacts.
Context `{JSON State} `{JSON (list EventMeta)} `{JSON Payload}.
Variable randomUUID : nat -> EID.
Variable now : number.

Lemma new_event_state_title given :
  title (new_event_state given) <> [].
Proof.
  unfold new_event_state. simpl.
  destruct given as [t|]; [|discriminate].
  destruct (trim t) eqn:Ht; simpl; discriminate.
Qed.

(** [createEvent] stores a new event under a fresh identifier and opens
    it: the snapshot has no athletes and a title that is never empty
    (the trimmed title, or "Monthly Meet" when none or a blank one is
    given), the index gets the entry at its head and is saved, the other
    events are untouched, and the new event is the current and the last
    open one. *)
Theorem createEvent_spec given a :
  let eid := randomUUID (drawn (world a)) in
  let st := new_event_state given in
  let a' := createEvent randomUUID now given a in
  reloads st -> eid <> [] ->
  athletes st = []
  /\ title st <> []
  /\ (given = None \/ (exists t, given = Some t /\ trim t = []) ->
      title st = js "Monthly Meet")
  /\ (forall t, given = Some t -> trim t <> [] -> title st = trim t)
  /\ index (world a') = new_meta now eid st :: index (world a)
  /\ storage (world a') !! KEY_INDEX = Some (JSON_stringify (index (world a')))
  /\ storage (world a') !! eventKey eid = Some (JSON_stringify st)
  /\ (exists s0, currentState a' = Some s0
                 /\ loadEvent eid (storage (world a')) = Some s0
                 /\ JSON_stringify s0 = JSON_stringify st)
  /\ currentEid a' = Some eid /\ mode a' = event
  /\ getLastOpen (storage (world a')) = Some eid
  /\ drawn (world a') = S (drawn (world a))
  /\ (forall e, e <> eid ->
        loadEvent e (storage (world a')) = loadEvent e (storage (world a))).
Proof.
  cbv zeta. intros (Hne & s0 & Hparse & Htext) Heid.
  unfold createEvent, newEid. cbv zeta. cbn [fst snd].
  set (eid := randomUUID (drawn (world a))) in *.
  set (st := new_event_state given) in *.
  set (w := {| storage := storage (world a); index := index (world a);
               drawn := S (drawn (world a)) |}).
  assert (loadEvent eid (storage (store_new_event now eid st w)) = Some s0) as Hload.
  { rewrite loadEvent_store_new_event, decide_True by done.
    by destruct (JSON_stringify st). }
  unfold openEvent, set_world.
  cbn [world storage index drawn currentEid currentState mode].
  rewrite Hload.
  split; [done|]. split; [apply new_event_state_title|].
  split; [|split].
  { intros [-> | (t & -> & Ht)]; [done|]. unfold st. simpl. by rewrite Ht. }
  { intros t -> Ht. unfold st. simpl. by destruct (trim t). }
  split; [done|]. split; [|split; [|split; [|split; [|split; [|split; [|split]]]]]].
  - unfold setLastOpen. destruct (is_empty eid) eqn:He; [by destruct eid|].
    rewrite lookup_insert_ne by (vm_compute; discriminate).
    rewrite store_new_event_storage. by rewrite decide_True.
  - unfold setLastOpen. destruct (is_empty eid) eqn:He; [by destruct eid|].
    rewrite lookup_insert_ne
      by (intros Heq; symmetry in Heq; by apply eventKey_not_lastOpen in Heq).
    rewrite store_new_event_storage.
    rewrite decide_False by apply eventKey_not_index. by rewrite decide_True.
  - exists s0. split; [done|]. split; [|done].
    by rewrite loadEvent_setLastOpen.
  - done.
  - done.
  - rewrite getLastOpen_setLastOpen. by destruct eid.
  - done.
  - intros e He. rewrite loadEvent_setLastOpen, loadEvent_store_new_event.
    by rewrite decide_False.
Qed.

Lemma list_find_eid_None eid (l : list EventMeta) :
  list_find (fun m => meta_eid m = eid) l = None <-> eid ∉ map meta_eid l.
Proof.
  rewrite list_find_None, Forall_forall. split.
  - intros Hall Hin. apply list_elem_of_fmap in Hin as (m & -> & Hm).
    by apply (Hall m).
  - intros Hno m Hm Heq. apply Hno. apply list_elem_of_fmap. eauto.
Qed.

(** [deleteEvent] of the component acts only on an event of the index
    and only once confirmed. It then removes the snapshot and the entry,
    saves the index, keeps every other event and entry, and, if the
    event was the current one, goes back to the manager and forgets the
    last open event. *)
Theorem App_deleteEvent_spec eid a :
  (eid ∉ map meta_eid (index (world a)) ->
   forall confirmed, App_deleteEvent confirmed eid a = a)
  /\ App_deleteEvent false eid a = a
  /\ (eid ∈ map meta_eid (index (world a)) ->
      forall a', a' = App_deleteEvent true eid a ->
      loadEvent eid (storage (world a')) = None
      /\ index (world a')
         = filter (fun m => meta_eid m <> eid) (index (world a))
      /\ (eid ∉ map meta_eid (index (world a')))
      /\ storage (world a') !! KEY_INDEX
         = Some (JSON_stringify (index (world a')))
      /\ (forall e, e <> eid ->
            loadEvent e (storage (world a')) = loadEvent e (storage (world a)))
      /\ (currentEid a = Some eid ->
          currentEid a' = None /\ currentState a' = None /\ mode a' = manager
          /\ getLastOpen (storage (world a')) = None)
      /\ (currentEid a <> Some eid ->
          currentEid a' = currentEid a /\ currentState a' = currentState a
          /\ mode a' = mode a
          /\ getLastOpen (storage (world a')) = getLastOpen (storage (world a)))).
Proof.
  split; [|split].
  - intros Hno confirmed. apply list_find_eid_None in Hno.
    unfold App_deleteEvent. by rewrite Hno.
  - unfold App_deleteEvent. by destruct (list_find _ _).
  - intros Hin a' ->. unfold App_deleteEvent.
    destruct (list_find _ _) as [p|] eqn:Hfind;
      [|by apply list_find_eid_None in Hfind].
    assert (eid ∉ map meta_eid
              (filter (fun m => meta_eid m <> eid) (index (world a)))) as Hgone.
    { intros Hin'. apply list_elem_of_fmap in Hin' as (m & -> & Hm).
      by apply list_elem_of_filter in Hm as [Hm _]. }
    destruct (decide (currentEid a = Some eid)) as [Hcur|Hcur];
      unfold set_world; cbn [world storage index currentEid currentState mode].
    + split; [|split; [done|split; [done|split; [|split; [|split]]]]].
      * by rewrite loadEvent_setLastOpen, loadEvent_saveIndex,
          loadEvent_deleteEvent, decide_True.
      * unfold setLastOpen, saveIndex.
        rewrite lookup_delete_ne by (vm_compute; discriminate).
        by rewrite lookup_insert_eq.
      * intros e He.
        by rewrite loadEvent_setLastOpen, loadEvent_saveIndex,
          loadEvent_deleteEvent, decide_False.
      * intros _. by rewrite getLastOpen_setLastOpen.
      * done.
    + split; [|split; [done|split; [done|split; [|split; [|split]]]]].
      * by rewrite loadEvent_saveIndex, loadEvent_deleteEvent, decide_True.
      * unfold saveIndex. by rewrite lookup_insert_eq.
      * intros e He.
        by rewrite loadEvent_saveIndex, loadEvent_deleteEvent, decide_False.
      * done.
      * intros _. repeat split.
        unfold getLastOpen, saveIndex, deleteEvent.
        rewrite lookup_insert_ne by (vm_compute; discriminate).
        rewrite lookup_delete_ne; [done|]. apply eventKey_not_lastOpen.
Qed.

(** ** Autosave *)

Lemma list_find_eid_Some eid (l : list EventMeta) i m :
  list_find (fun m => meta_eid m = eid) l = Some (i, m) ->
  l !! i = Some m /\ meta_eid m = eid
  /\ forall j x, j < i -> l !! j = Some x -> meta_eid x <> eid.
Proof.
  intros Hf. apply list_find_Some in Hf as (Hi & He & Hbefore).
  repeat split; try done. intros j x Hj Hx. by apply (Hbefore j x).
Qed.

(** When its timer fires, the autosave effect writes the current
    snapshot under the current identifier and renews the index, which it
    saves: the first entry of the event gets the current title and the
    time of the save and keeps its place and its creation time; an event
    that has no entry gets one at the end. Nothing else changes, and a
    second save at the same time changes nothing more. Without a current
    event, or with the empty identifier, nothing is written. *)
Theorem autosave_spec a :
  (currentEid a = None \/ currentEid a = Some [] \/ currentState a = None ->
   autosave now a = a)
  /\ (forall eid st,
        currentEid a = Some eid -> eid <> [] -> currentState a = Some st ->
        forall a', a' = autosave now a ->
        storage (world a') !! eventKey eid = Some (JSON_stringify st)
        /\ storage (world a') !! KEY_INDEX
           = Some (JSON_stringify (index (world a')))
        /\ (forall e, e <> eid ->
              loadEvent e (storage (world a')) = loadEvent e (storage (world a)))
        /\ getLastOpen (storage (world a')) = getLastOpen (storage (world a))
        /\ currentEid a' = Some eid /\ currentState a' = Some st
        /\ mode a' = mode a
        /\ (eid ∉ map meta_eid (index (world a)) ->
            index (world a') = index (world a) ++ [new_meta now eid st])
        /\ (eid ∈ map meta_eid (index (world a)) ->
            map meta_eid (index (world a')) = map meta_eid (index (world a))
            /\ exists i m,
                 index (world a) !! i = Some m /\ meta_eid m = eid
                 /\ (forall j x, j < i -> index (world a) !! j = Some x ->
                       meta_eid x <> eid)
                 /\ index (world a') !! i
                    = Some {| meta_eid := eid; meta_title := title st;
                              createdAt := createdAt m; updatedAt := now |}
                 /\ forall j, j <> i ->
                      index (world a') !! j = index (world a) !! j)
        /\ autosave now a' = a').
Proof.
  split.
  - unfold autosave. intros [Hc | [Hc | Hc]]; rewrite Hc; [done| |].
    + by destruct (currentState a).
    + by destruct (currentEid a).
  - intros eid st Heid Hne Hst a' ->.
    assert (is_empty eid = false) as Hempty by (by destruct eid).
    unfold autosave. rewrite Heid, Hst, Hempty.
    unfold set_world. cbn [world storage index currentEid currentState mode].
    set (next := match list_find _ (index (world a)) with
                 | Some (i, m) => <[i := touched now m st]> (index (world a))
                 | None => _
                 end).
    split; [|split; [|split; [|split; [|split; [done|split; [done|split; [done|]]]]]]].
    + unfold saveIndex, saveEvent.
      rewrite lookup_insert_ne by (apply not_eq_sym, eventKey_not_index).
      by rewrite lookup_insert_eq.
    + unfold saveIndex. by rewrite lookup_insert_eq.
    + intros e He. by rewrite loadEvent_saveIndex, loadEvent_saveEvent, decide_False.
    + unfold getLastOpen, saveIndex, saveEvent.
      rewrite lookup_insert_ne by (vm_compute; discriminate).
      rewrite lookup_insert_ne; [done|]. apply eventKey_not_lastOpen.
    + split; [|split].
      * intros Hno. unfold next.
        by rewrite (proj2 (list_find_eid_None eid _) Hno).
      * intros Hin. unfold next.
        destruct (list_find _ (index (world a))) as [[i m]|] eqn:Hf;
          [|by apply list_find_eid_None in Hf].
        apply list_find_eid_Some in Hf as (Hi & Hm & Hbefore).
        split.
        -- rewrite list_fmap_insert. simpl. rewrite Hm.
           apply list_insert_id. by rewrite list_lookup_fmap, Hi, <- Hm.
        -- exists i, m. split; [done|]. split; [done|]. split; [done|]. split.
           ++ rewrite list_lookup_insert_eq by (by eapply lookup_lt_Some).
              unfold touched. by rewrite Hm.
           ++ intros j Hj. by rewrite list_lookup_insert_ne.
      * (* a second save *)
        rewrite Heid, Hst, Hempty. cbn [world storage index drawn].
        unfold set_world.
        cbn [world storage index currentEid currentState mode location_hash drawn].
        assert (match list_find (fun m => meta_eid m = eid) next with
                | Some (i, m) => <[i := touched now m st]> next
                | None => next ++ [ {| meta_eid := eid; meta_title := title st;
                                       createdAt := now; updatedAt := now |} ]
                end = next) as ->.
        { unfold next.
          destruct (list_find _ (index (world a))) as [[i m]|] eqn:Hf.
          - apply list_find_eid_Some in Hf as (Hi & Hm & Hbefore).
            pose proof (lookup_lt_Some _ _ _ Hi) as Hlt.
            assert (list_find (fun m => meta_eid m = eid)
                      (<[i := touched now m st]> (index (world a)))
                    = Some (i, touched now m st)) as ->.
            { apply list_find_Some. split; [|split; [done|]].
              - by rewrite list_lookup_insert_eq.
              - intros j x Hx Hj. rewrite list_lookup_insert_ne in Hx by lia.
                by apply (Hbefore j x). }
            rewrite list_insert_insert_eq. done.
          - apply list_find_eid_None in Hf.
            set (m := {| meta_eid := eid; meta_title := title st;
                         createdAt := now; updatedAt := now |}).
            assert (list_find (fun m => meta_eid m = eid)
                      (index (world a) ++ [m])
                    = Some (length (index (world a)), m)) as ->.
            { apply list_find_Some. split; [|split; [done|]].
              - by rewrite list_lookup_middle.
              - intros j x Hx Hj. rewrite lookup_app_l in Hx by done.
                intros Heq. apply Hf. apply list_elem_of_fmap. exists x.
                split; [done|]. by eapply list_elem_of_lookup_2. }
            rewrite insert_app_r_alt by done. rewrite Nat.sub_diag. done. }
        f_equal. f_equal. unfold saveIndex, saveEvent.
        apply map_eq. intros k.
        destruct (decide (k = KEY_INDEX)) as [->|Hk];
          [by rewrite !lookup_insert_eq|].
        rewrite !(lookup_insert_ne _ KEY_INDEX) by done.
        destruct (decide (k = eventKey eid)) as [->|Hk'];
          [by rewrite !lookup_insert_eq|].
        by rewrite !lookup_insert_ne.
Qed.

(** ** Boot *)

Lemma openEvent_fields eid a :
  currentEid (openEvent eid a) = Some eid
  /\ mode (openEvent eid a) = event
  /\ location_hash (openEvent eid a) = location_hash a
  /\ index (world (openEvent eid a)) = index (world a)
  /\ drawn (world (openEvent eid a)) = drawn (world a)
  /\ storage (world (openEvent eid a))
     = setLastOpen (Some eid) (storage (world a))
  /\ currentState (openEvent eid a)
     = Some (default defaultState_no_athletes
               (loadEvent eid (storage (world a)))).
Proof. done. Qed.

(** What the boot effect does when nothing is imported. *)
Lemma boot_no_import ls used hash :
  importFromHash randomUUID now (initial_app ls used hash)
  = Some (false, initial_app ls used hash) ->
  exists a,
    boot randomUUID now ls used hash = Some a
    /\ storage (world a) = ls
    /\ index (world a) = loadIndex ls
    /\ drawn (world a) = used
    /\ location_hash a = hash
    /\ (forall last st,
          getLastOpen ls = Some last -> last <> [] ->
          loadEvent last ls = Some st ->
          mode a = event /\ currentEid a = Some last
          /\ currentState a = Some st)
    /\ (getLastOpen ls = None \/ getLastOpen ls = Some []
        \/ (exists last, getLastOpen ls = Some last
                         /\ loadEvent last ls = None) ->
        mode a = manager /\ currentEid a = None /\ currentState a = None).
Proof.
  intros Himp. unfold boot. rewrite Himp.
  destruct (getLastOpen ls) as [last|] eqn:Hlast.
  - destruct (negb (is_empty last)
              && bool_decide (is_Some (loadEvent last ls))) eqn:Hopen.
    + apply andb_true_iff in Hopen as [Hne Hsome].
      apply bool_decide_eq_true in Hsome as [st Hst].
      eexists. split; [reflexivity|].
      unfold openEvent, set_world, initial_app.
      cbn [world storage index drawn currentEid currentState mode location_hash].
      split; [|split; [done|split; [done|split; [done|split]]]].
      * unfold setLastOpen. destruct (is_empty last); [discriminate|].
        by apply insert_id.
      * intros last' st' [= <-] _ Hst'. rewrite Hst'. done.
      * intros [Hn | [Hn | (last' & Hn & Hnone)]]; try discriminate.
        -- injection Hn as ->. discriminate.
        -- injection Hn as <-. rewrite Hst in Hnone. discriminate.
    + eexists. split; [reflexivity|].
      unfold set_mode, set_world, initial_app.
      cbn [world storage index drawn currentEid currentState mode location_hash].
      split; [done|]. split; [done|]. split; [done|]. split; [done|]. split.
      * intros last' st' [= <-] Hne Hst'. exfalso.
        apply andb_false_iff in Hopen as [Hopen|Hopen].
        -- by destruct last.
        -- apply bool_decide_eq_false in Hopen. apply Hopen. eauto.
      * done.
  - eexists. split; [reflexivity|].
    unfold set_mode, set_world, initial_app.
    cbn [world storage index drawn currentEid currentState mode location_hash].
    split; [done|]. split; [done|]. split; [done|]. split; [done|]. split.
    + intros last st Hn. discriminate.
    + done.
Qed.

(** Without a share link in the address (no [k] parameter), with a key
    that [readEventKey] does not read, or with a payload that has no
    snapshot, the boot effect imports nothing and writes nothing: it
    loads the index and opens the last open event if its snapshot loads,
    else shows the manager. *)
Theorem boot_without_link ls used hash :
  match_k_param hash = None
  \/ (exists m1 key,
        match_k_param hash = Some m1 /\ decodeURIComponent m1 = Some key
        /\ (readEventKey key = @None Payload
            \/ exists p, readEventKey key = Some p /\ payload_state p = None)) ->
  exists a,
    boot randomUUID now ls used hash = Some a
    /\ storage (world a) = ls
    /\ index (world a) = loadIndex ls
    /\ drawn (world a) = used
    /\ location_hash a = hash
    /\ (forall last st,
          getLastOpen ls = Some last -> last <> [] ->
          loadEvent last ls = Some st ->
          mode a = event /\ currentEid a = Some last
          /\ currentState a = Some st)
    /\ (getLastOpen ls = None \/ getLastOpen ls = Some []
        \/ (exists last, getLastOpen ls = Some last
                         /\ loadEvent last ls = None) ->
        mode a = manager /\ currentEid a = None /\ currentState a = None).
Proof.
  intros Hlink. apply boot_no_import. unfold importFromHash.
  cbn [initial_app location_hash].
  destruct Hlink as [-> | (m1 & key & -> & -> & [-> | (p & -> & ->)])]; done.
Qed.

(** A [k] parameter that is not a well-formed percent-encoding makes the
    boot effect throw (nothing catches the URIError of
    decodeURIComponent), where [extractKeyFromUrl] gives null. *)
Theorem boot_bad_escape ls used hash m1 :
  match_k_param hash = Some m1 -> decodeURIComponent m1 = None ->
  boot randomUUID now ls used hash = None
  /\ extractKeyFromUrl hash = None.
Proof.
  intros Hm Hd. unfold boot, importFromHash, extractKeyFromUrl, k_param_key.
  cbn [initial_app location_hash]. rewrite Hm. simpl. by rewrite Hd.
Qed.

(** A share link opened at boot. The event is stored and opened; the
    address loses its fragment. If the identifier is not in the store,
    or holds another snapshot (the import then goes under a fresh
    identifier), the index afterwards, in the component and in storage,
    holds the entry of the imported event only, whatever index was
    saved: the import reads the index of the first render, which is
    empty. If the store holds the same snapshot, nothing is written but
    the last open event, and the index is the saved one. *)
Theorem boot_import ls used hash m1 key eid st :
  match_k_param hash = Some m1 -> decodeURIComponent m1 = Some key ->
  readEventKey key = Some {| payload_eid := Some eid; payload_state := Some st |} ->
  reloads st ->
  (loadEvent eid ls = None ->
   exists a,
     boot randomUUID now ls used hash = Some a
     /\ index (world a) = [new_meta now eid st]
     /\ storage (world a) !! KEY_INDEX
        = Some (JSON_stringify [new_meta now eid st])
     /\ storage (world a) !! eventKey eid = Some (JSON_stringify st)
     /\ currentEid a = Some eid /\ mode a = event /\ location_hash a = []
     /\ (forall e, e <> eid -> loadEvent e (storage (world a)) = loadEvent e ls))
  /\ (forall existing,
        loadEvent eid ls = Some existing ->
        JSON_stringify existing = JSON_stringify st ->
        exists a,
          boot randomUUID now ls used hash = Some a
          /\ index (world a) = loadIndex ls
          /\ storage (world a) = setLastOpen (Some eid) ls
          /\ currentEid a = Some eid /\ currentState a = Some existing
          /\ mode a = event /\ location_hash a = [])
  /\ (forall existing,
        loadEvent eid ls = Some existing ->
        JSON_stringify existing <> JSON_stringify st ->
        ls !! eventKey (randomUUID used) = None ->
        exists a,
          boot randomUUID now ls used hash = Some a
          /\ index (world a) = [new_meta now (randomUUID used) st]
          /\ storage (world a) !! KEY_INDEX
             = Some (JSON_stringify [new_meta now (randomUUID used) st])
          /\ storage (world a) !! eventKey (randomUUID used)
             = Some (JSON_stringify st)
          /\ loadEvent eid (storage (world a)) = Some existing
          /\ currentEid a = Some (randomUUID used) /\ mode a = event
          /\ location_hash a = []).
Proof.
  intros Hm Hd Hr (Hne & s0 & Hparse & Htext).
  unfold boot, importFromHash, initial_app. cbn [location_hash].
  rewrite Hm, Hd, Hr. cbn [payload_state payload_eid].
  unfold addOrForkEvent. cbn [world storage].
  split; [|split].
  - intros Hnew. rewrite Hnew. eexists. split; [reflexivity|].
    unfold openEvent, set_world, set_location_hash, store_new_event.
    cbn [world storage index drawn currentEid currentState mode location_hash].
    split; [done|]. split; [|split; [|split; [done|split; [done|split; [done|]]]]].
    + unfold setLastOpen. destruct (is_empty eid).
      * rewrite lookup_delete_ne by (vm_compute; discriminate).
        unfold saveIndex. by rewrite lookup_insert_eq.
      * rewrite lookup_insert_ne by (vm_compute; discriminate).
        unfold saveIndex. by rewrite lookup_insert_eq.
    + assert (forall x, setLastOpen x (saveIndex [new_meta now eid st]
                                         (saveEvent eid st ls)) !! eventKey eid
                        = Some (JSON_stringify st)) as Hk; [|apply Hk].
      intros x. unfold setLastOpen, saveIndex, saveEvent.
      assert (KEY_LAST_OPEN <> eventKey eid) as Hl
        by (apply not_eq_sym, eventKey_not_lastOpen).
      assert (KEY_INDEX <> eventKey eid) as Hi
        by (apply not_eq_sym, eventKey_not_index).
      destruct x as [x|]; [destruct (is_empty x)|];
        rewrite ?(lookup_insert_ne _ KEY_LAST_OPEN),
          ?(lookup_delete_ne _ KEY_LAST_OPEN) by done;
        rewrite lookup_insert_ne by done;
        by rewrite lookup_insert_eq.
    + intros e He.
      by rewrite loadEvent_setLastOpen, loadEvent_saveIndex,
        loadEvent_saveEvent, decide_False.
  - intros existing Hex Hsame. rewrite Hex.
    rewrite decide_True by done. eexists. split; [reflexivity|].
    unfold openEvent, set_world, set_location_hash.
    cbn [world storage index drawn currentEid currentState mode location_hash].
    by rewrite Hex.
  - intros existing Hex Hdiff Hfresh. rewrite Hex.
    rewrite decide_False by done. unfold newEid. cbn [drawn storage index].
    eexists. split; [reflexivity|].
    unfold openEvent, set_world, set_location_hash, store_new_event.
    cbn [world storage index drawn currentEid currentState mode location_hash].
    assert (randomUUID used <> eid) as Hne'.
    { intros Heq. unfold loadEvent in Hex. rewrite <- Heq, Hfresh in Hex.
      discriminate. }
    split; [done|]. split; [|split; [|split; [|done]]].
    + unfold setLastOpen. destruct (is_empty (randomUUID used)).
      * rewrite lookup_delete_ne by (vm_compute; discriminate).
        unfold saveIndex. by rewrite lookup_insert_eq.
      * rewrite lookup_insert_ne by (vm_compute; discriminate).
        unfold saveIndex. by rewrite lookup_insert_eq.
    + unfold setLastOpen, saveIndex, saveEvent.
      assert (KEY_LAST_OPEN <> eventKey (randomUUID used)) as Hl
        by (apply not_eq_sym, eventKey_not_lastOpen).
      assert (KEY_INDEX <> eventKey (randomUUID used)) as Hi
        by (apply not_eq_sym, eventKey_not_index).
      destruct (is_empty (randomUUID used));
        rewrite ?(lookup_insert_ne _ KEY_LAST_OPEN),
          ?(lookup_delete_ne _ KEY_LAST_OPEN) by done;
        rewrite lookup_insert_ne by done;
        by rewrite lookup_insert_eq.
    + rewrite loadEvent_setLastOpen, loadEvent_saveIndex,
        loadEvent_saveEvent, decide_False by done. exact Hex.
Qed.

(** ** An invariant of the store *)

Lemma store_ok_new_event eid st w :
  store_ok w -> reloads st -> loadEvent eid (storage w) = None ->
  store_ok (store_new_event now eid st w).
Proof.
  intros (Hnd & Hload & Hidx) (Hne & s0 & Hparse & _) Hnone.
  assert (eid ∉ map meta_eid (index w)) as Hnew.
  { intros Hin. apply list_elem_of_fmap in Hin as (m & -> & Hm).
    destruct (Hload m Hm) as [x Hx]. congruence. }
  split; [|split].
  - unfold store_new_event. cbn [index]. simpl. by apply NoDup_cons.
  - intros m Hm. rewrite loadEvent_store_new_event.
    unfold store_new_event in Hm. cbn [index] in Hm.
    apply elem_of_cons in Hm as [-> | Hm].
    + simpl. rewrite decide_True by done.
      destruct (JSON_stringify st); [done|]. simpl. eauto.
    + rewrite decide_False; [by apply Hload|].
      intros Heq. apply Hnew. apply list_elem_of_fmap. eauto.
  - rewrite store_new_event_storage. by rewrite decide_True.
Qed.

(** The actions keep the store in order: if the index lists no event
    twice, every listed event has a snapshot that loads and the saved
    index is the index of the component, then the same holds after
    [createEvent], [deleteEvent], an autosave, [openEvent] and
    [addOrForkEvent] (snapshots that reload, and a new identifier that
    is not in use). *)
Theorem store_ok_preserved a :
  store_ok (world a) ->
  (forall given,
     reloads (new_event_state given) ->
     loadEvent (randomUUID (drawn (world a))) (storage (world a)) = None ->
     store_ok (world (createEvent randomUUID now given a)))
  /\ (forall confirmed eid,
        store_ok (world (App_deleteEvent confirmed eid a)))
  /\ ((forall st, currentState a = Some st -> reloads st) ->
      store_ok (world (autosave now a)))
  /\ (forall eid, store_ok (world (openEvent eid a)))
  /\ (forall payload_eid st,
        reloads st ->
        loadEvent (randomUUID (drawn (world a))) (storage (world a)) = None ->
        store_ok (addOrForkEvent randomUUID now payload_eid st (world a)).2).
Proof.
  intros Hok.
  assert (forall x w, store_ok w ->
            store_ok {| storage := setLastOpen x (storage w);
                        index := index w; drawn := drawn w |}) as Hopen.
  { intros x w (Hnd & Hload & Hidx). split; [done|]. split.
    - intros m Hm. cbn [storage index] in *. rewrite loadEvent_setLastOpen.
      by apply Hload.
    - cbn [storage index]. unfold setLastOpen.
      destruct x as [x|]; [destruct (is_empty x)|];
        by rewrite ?lookup_insert_ne, ?lookup_delete_ne
          by (vm_compute; discriminate). }
  split; [|split; [|split; [|split]]].
  - intros given Hre Hfresh. unfold createEvent, newEid. cbv zeta.
    unfold openEvent, set_world. cbn [world].
    apply (Hopen _ (store_new_event now _ _ _)).
    apply store_ok_new_event; [|done|done].
    destruct Hok as (Hnd & Hload & Hidx). by split.
  - intros confirmed eid. unfold App_deleteEvent.
    destruct (list_find _ _) as [p|]; [|done].
    destruct confirmed; [|done].
    destruct Hok as (Hnd & Hload & Hidx).
    assert (store_ok
              {| storage := saveIndex
                              (filter (fun m => meta_eid m <> eid) (index (world a)))
                              (deleteEvent eid (storage (world a)));
                 index := filter (fun m => meta_eid m <> eid) (index (world a));
                 drawn := drawn (world a) |}) as Hdel.
    { split; [|split].
      - cbn [index]. apply NoDup_fmap_2_strong; [|by apply NoDup_filter, (NoDup_fmap_1 meta_eid)].
        intros x y Hx Hy Heq. apply list_elem_of_filter in Hx as [_ Hx].
        apply list_elem_of_filter in Hy as [_ Hy].
        apply list_elem_of_lookup in Hx as [i Hi].
        apply list_elem_of_lookup in Hy as [j Hj].
        assert (i = j) as ->; [|congruence].
        eapply NoDup_lookup; [exact Hnd| |].
        + by rewrite list_lookup_fmap, Hi.
        + rewrite list_lookup_fmap, Hj. simpl. by rewrite Heq.
      - intros m Hm. cbn [index storage] in *.
        apply list_elem_of_filter in Hm as [Hne Hm].
        rewrite loadEvent_saveIndex, loadEvent_deleteEvent, decide_False by done.
        by apply Hload.
      - cbn [storage index]. unfold saveIndex. by rewrite lookup_insert_eq. }
    destruct (decide (currentEid a = Some eid)); unfold set_world; cbn [world].
    + by apply (Hopen None) in Hdel.
    + done.
  - intros Hre. unfold autosave.
    destruct (currentEid a) as [eid|] eqn:Heid; [|done].
    destruct (currentState a) as [st|] eqn:Hst; [|done].
    destruct (is_empty eid); [done|].
    destruct (Hre st eq_refl) as (Hne & s0 & Hparse & _).
    destruct Hok as (Hnd & Hload & Hidx).
    unfold set_world. cbn [world].
    set (next := match list_find _ (index (world a)) with
                 | Some (i, m) => <[i := touched now m st]> (index (world a))
                 | None => _
                 end).
    assert (map meta_eid next = map meta_eid (index (world a))
            \/ ((eid ∉ map meta_eid (index (world a)))
                /\ map meta_eid next = map meta_eid (index (world a)) ++ [eid]))
      as Hids.
    { unfold next.
      destruct (list_find _ (index (world a))) as [[i m]|] eqn:Hf.
      - left. apply list_find_eid_Some in Hf as (Hi & Hm & _).
        rewrite list_fmap_insert. simpl.
        apply list_insert_id. by rewrite list_lookup_fmap, Hi.
      - right. apply list_find_eid_None in Hf. split; [done|].
        by rewrite fmap_app. }
    split; [|split].
    + cbn [index]. destruct Hids as [-> | [Hno ->]]; [done|].
      apply NoDup_app. split; [done|]. split; [|apply NoDup_singleton].
      intros x Hx Hx'. apply list_elem_of_singleton in Hx'. congruence.
    + intros m Hm. cbn [index storage] in *.
      rewrite loadEvent_saveIndex, loadEvent_saveEvent.
      destruct (decide (meta_eid m = eid)) as [_|Hne'].
      * destruct (JSON_stringify st); [done|]. simpl. eauto.
      * assert (meta_eid m ∈ map meta_eid next) as Hin
          by (apply list_elem_of_fmap; eauto).
        assert (meta_eid m ∈ map meta_eid (index (world a))) as Hin'.
        { destruct Hids as [Hids | [_ Hids]]; rewrite Hids in Hin; [done|].
          apply elem_of_app in Hin as [Hin|Hin]; [done|].
          by apply list_elem_of_singleton in Hin. }
        apply list_elem_of_fmap in Hin' as (m' & Heq & Hm'). rewrite Heq.
        by apply Hload.
    + cbn [storage index]. unfold saveIndex. by rewrite lookup_insert_eq.
  - intros eid. unfold openEvent. cbn [world]. by apply Hopen.
  - intros pid st Hre Hfresh. unfold addOrForkEvent.
    assert (store_ok {| storage := storage (world a); index := index (world a);
                        drawn := S (drawn (world a)) |}) as Hok'.
    { destruct Hok as (Hnd & Hload & Hidx). by split. }
    destruct pid as [eid|].
    + destruct (loadEvent eid (storage (world a))) as [existing|] eqn:Hex.
      * destruct (decide (_ = _)); [done|]. unfold newEid. cbn [snd].
        by apply store_ok_new_event.
      * cbn [snd]. by apply store_ok_new_event.
    + unfold newEid. cbn [fst snd storage drawn index]. rewrite Hfresh.
      cbn [snd]. by apply store_ok_new_event.
Qed.

End AppFacts.

(** ** The fragment at boot *)

Lemma is_id_char_plain id :
  Forall (fun c => is_id_char c = true) id -> plain_param id.
Proof.
  intros Hid. eapply Forall_impl; [exact Hid|].
  intros c Hc. unfold is_id_char in Hc. simpl in Hc. lia.
Qed.

(** A fragment [#event=<id>] has no [k] parameter. *)
Lemma match_k_param_legacy id :
  Forall (fun c => is_id_char c = true) id ->
  match_k_param (js "#event=" ++ id) = None.
Proof.
  intros Hid.
  change (js "#event=" ++ id) with (35%Z :: (js "event=" ++ id)).
  rewrite (match_k_param_at 35 _ (or_introl eq_refl)).
  change (js "event=" ++ id) with (101 :: 118 :: 101 :: (js "nt=" ++ id))%Z.
  cbv beta iota. change (101 =? 107)%Z with false. cbv beta iota.
  change (101 :: 118 :: 101 :: (js "nt=" ++ id))%Z with (js "event=" ++ id).
  rewrite <- (app_nil_r (js "event=" ++ id)).
  rewrite match_k_param_skip; [reflexivity|].
  apply Forall_app. split; [|by apply is_id_char_plain].
  vm_compute. repeat constructor; discriminate.
Qed.

Lemma after_prefix_Some p s r : after_prefix p s = Some r -> s = p ++ r.
Proof.
  revert s. induction p as [|a p IH]; intros s; simpl.
  - by intros [= ->].
  - destruct s as [|b s]; [discriminate|].
    destruct (Z.eqb_spec a b) as [->|Hne]; [|discriminate].
    intros Hr. by rewrite (IH s Hr).
Qed.

(** A text without [=] has no [event] parameter. *)
Lemma match_event_param_none s :
  Forall (fun c => c <> 61%Z) s -> match_event_param s = None.
Proof.
  induction 1 as [|c s Hc Hs IH]; [reflexivity|].
  cbn [match_event_param].
  destruct (after_prefix (js "event=") (c :: s)) as [r|] eqn:Hr; [|exact IH].
  exfalso. apply after_prefix_Some in Hr.
  assert (61%Z ∈ c :: s) as Hin.
  { rewrite Hr. apply elem_of_app. left. vm_compute. repeat constructor. }
  apply elem_of_cons in Hin as [Hin|Hin]; [congruence|].
  by apply (proj1 (Forall_forall _ _) Hs) in Hin.
Qed.

Section FragmentAtBoot.
Context `{JSON State} `{JSON (list EventMeta)} `{JSON Payload}.
Variable randomUUID : nat -> EID.
Variable now : number.

(** [importFromHash] reads nothing of the fragment but the capture of
    the match. *)
Lemma importFromHash_token a tok :
  match_k_param (location_hash a) = Some tok ->
  importFromHash randomUUID now a
  = match decodeURIComponent tok with
    | None => None
    | Some key =>
        match readEventKey key with
        | Some payload =>
            match payload_state payload with
            | Some st =>
                let '((eid, _), w) :=
                  addOrForkEvent randomUUID now (payload_eid payload) st
                    (world a) in
                Some (true, openEvent eid (set_location_hash [] (set_world w a)))
            | None => Some (false, a)
            end
        | None => Some (false, a)
        end
    end.
Proof. intros Hm. unfold importFromHash. by rewrite Hm. Qed.

Lemma importFromHash_same_token ls used h1 h2 tok :
  match_k_param h1 = Some tok -> match_k_param h2 = Some tok ->
  importFromHash randomUUID now (initial_app ls used h1)
  = match importFromHash randomUUID now (initial_app ls used h2) with
    | Some (true, a) => Some (true, a)
    | Some (false, _) => Some (false, initial_app ls used h1)
    | None => None
    end.
Proof.
  intros Hm1 Hm2.
  rewrite (importFromHash_token (initial_app ls used h1) tok) by exact Hm1.
  rewrite (importFromHash_token (initial_app ls used h2) tok) by exact Hm2.
  destruct (decodeURIComponent tok) as [key|]; [|reflexivity].
  destruct (readEventKey key) as [payload|]; [|reflexivity].
  destruct (payload_state payload) as [st|]; [|reflexivity].
  cbn [world initial_app].
  destruct (addOrForkEvent _ _ _ _ _) as [[eid st'] w]. reflexivity.
Qed.

(** What follows an import that did not happen does not read the
    fragment. *)
Lemma boot_same_import ls used h1 h2 :
  importFromHash randomUUID now (initial_app ls used h1)
  = match importFromHash randomUUID now (initial_app ls used h2) with
    | Some (true, a) => Some (true, a)
    | Some (false, _) => Some (false, initial_app ls used h1)
    | None => None
    end ->
  set_location_hash [] <$> boot randomUUID now ls used h1
  = set_location_hash [] <$> boot randomUUID now ls used h2.
Proof.
  intros Himp. unfold boot. rewrite Himp.
  destruct (importFromHash randomUUID now (initial_app ls used h2))
    as [[[|] a]|]; [reflexivity| |reflexivity].
  destruct (getLastOpen ls) as [last|]; [|reflexivity].
  destruct (negb (is_empty last) && bool_decide (is_Some (loadEvent last ls)));
    reflexivity.
Qed.

(** C9, amended. The boot of App.tsx takes the token from the leftmost
    [k] parameter of the fragment, whatever plain parameters stand
    before it and whatever follows it after an [&]: [importFromHash]
    and the whole boot do with such a fragment what they do with
    [#k=<token>] alone (the address apart, which keeps its fragment
    when nothing is imported), and [extractKeyFromUrl] gives the
    percent-decoded token. A fragment [#event=<id>] has no [k]
    parameter: App.tsx imports nothing and boots as it does without a
    fragment. It is the older single-file App that reads the identifier
    of [#event=<id>], and that App ignores a [k] parameter. *)
Theorem fragment_token :
  (forall params tok after ls used,
     Forall (fun p => plain_param p /\ is_k_param p = false) params ->
     tok <> [] -> Forall (fun c => c <> 38%Z) tok ->
     after = [] \/ (exists r, after = 38%Z :: r) ->
     let hash := fragment_start params ++ js "k=" ++ tok ++ after in
     match_k_param hash = Some tok
     /\ extractKeyFromUrl hash = decodeURIComponent tok
     /\ importFromHash randomUUID now (initial_app ls used hash)
        = match importFromHash randomUUID now
                  (initial_app ls used (js "#k=" ++ tok)) with
          | Some (true, a) => Some (true, a)
          | Some (false, _) => Some (false, initial_app ls used hash)
          | None => None
          end
     /\ set_location_hash [] <$> boot randomUUID now ls used hash
        = set_location_hash [] <$> boot randomUUID now ls used (js "#k=" ++ tok))
  /\ (forall id ls used,
        Forall (fun c => is_id_char c = true) id ->
        let hash := js "#event=" ++ id in
        extractKeyFromUrl hash = None
        /\ importFromHash randomUUID now (initial_app ls used hash)
           = Some (false, initial_app ls used hash)
        /\ set_location_hash [] <$> boot randomUUID now ls used hash
           = boot randomUUID now ls used [])
  /\ (forall id rest uuid,
        id <> [] -> Forall (fun c => is_id_char c = true) id ->
        match rest with c :: _ => is_id_char c = false | [] => True end ->
        initialEventId (js "#event=" ++ id ++ rest) uuid = id)
  /\ (forall tok uuid,
        Forall (fun c => c <> 61%Z) tok ->
        initialEventId (js "#k=" ++ tok) uuid = uuid).
Proof.
  split; [|split; [|split]].
  - intros params tok after ls used Hparams Hne Htok Hafter hash.
    assert (Hm : match_k_param hash = Some tok).
    { subst hash. unfold fragment_start. rewrite <- app_assoc. cbn [app].
      apply match_k_param_fragment; auto. }
    assert (Hm' : match_k_param (js "#k=" ++ tok) = Some tok).
    { rewrite <- (app_nil_r tok) at 1.
      apply (match_k_param_fragment 35 [] tok []); auto. }
    assert (Himp : importFromHash randomUUID now (initial_app ls used hash)
                   = match importFromHash randomUUID now
                             (initial_app ls used (js "#k=" ++ tok)) with
                     | Some (true, a) => Some (true, a)
                     | Some (false, _) => Some (false, initial_app ls used hash)
                     | None => None
                     end)
      by (by apply (importFromHash_same_token ls used _ _ tok)).
    split; [exact Hm|]. split; [|split; [exact Himp|]].
    + unfold extractKeyFromUrl, k_param_key. rewrite Hm. simpl.
      by destruct (decodeURIComponent tok).
    + by apply boot_same_import.
  - intros id ls used Hid hash.
    pose proof (match_k_param_legacy id Hid) as Hm. fold hash in Hm.
    assert (Himp : forall h, match_k_param h = None ->
              importFromHash randomUUID now (initial_app ls used h)
              = Some (false, initial_app ls used h)).
    { intros h Hh. unfold importFromHash. cbn [location_hash initial_app].
      by rewrite Hh. }
    split; [|split; [by apply Himp|]].
    + unfold extractKeyFromUrl, k_param_key. by rewrite Hm.
    + transitivity (set_location_hash [] <$> boot randomUUID now ls used []).
      * apply boot_same_import. rewrite (Himp hash Hm), (Himp [] eq_refl).
        reflexivity.
      * unfold boot. rewrite (Himp [] eq_refl).
        destruct (getLastOpen ls) as [last|]; [|reflexivity].
        destruct (negb (is_empty last)
                  && bool_decide (is_Some (loadEvent last ls))); reflexivity.
  - intros id rest uuid Hne Hid Hrest. unfold initialEventId.
    change (js "#event=" ++ id ++ rest) with (35%Z :: (js "event=" ++ id ++ rest)).
    destruct id as [|v t]; [congruence|].
    inversion_clear Hid as [|? ? Hv Ht].
    change (js "event=" ++ (v :: t) ++ rest)
      with (101 :: 118 :: 101 :: 110 :: 116 :: 61 :: v :: (t ++ rest))%Z.
    unfold match_event_param.
    change (js "event=") with [101; 118; 101; 110; 116; 61]%Z.
    cbn [after_prefix Z.eqb Pos.eqb]. rewrite Hv. by rewrite id_chars_token.
  - intros tok uuid Htok.
    change (initialEventId (js "#k=" ++ tok) uuid)
      with (match match_event_param (107 :: 61 :: tok)%Z with
            | Some id => id
            | None => uuid
            end).
    assert (match_event_param (107 :: 61 :: tok)%Z = match_event_param tok)
      as -> by reflexivity.
    by rewrite match_event_param_none.
Qed.

End FragmentAtBoot.

Lemma fragment_token_witness :
  extractKeyFromUrl (js "#tab=2&k=a%2Bb%2Fc&theme=dark") = Some (js "a+b/c")
  /\ @importFromHash sample_JSON_State sample_JSON_index sample_JSON_Payload
       sample_uuid sample_now
       (initial_app ∅ 0 (js "#tab=2&k=" ++ sample_k_param ++ js "&theme=dark"))
     = @importFromHash sample_JSON_State sample_JSON_index sample_JSON_Payload
         sample_uuid sample_now (initial_app ∅ 0 sample_link).
Proof.
  split.
  - change (Some (js "a+b/c")) with (decodeURIComponent (js "a%2Bb%2Fc")).
    apply (proj1 (@fragment_token sample_JSON_State sample_JSON_index
                    sample_JSON_Payload sample_uuid sample_now)
             [js "tab=2"] (js "a%2Bb%2Fc") (js "&theme=dark") ∅ 0).
    + constructor; [|constructor]. split; [|reflexivity].
      vm_compute. repeat constructor; discriminate.
    + discriminate.
    + vm_compute. repeat constructor; discriminate.
    + right. eexists. reflexivity.
  - destruct (proj1 (@fragment_token sample_JSON_State sample_JSON_index
                       sample_JSON_Payload sample_uuid sample_now)
                [js "tab=2"] sample_k_param (js "&theme=dark") ∅ 0)
      as (_ & _ & Himp & _).
    + constructor; [|constructor]. split; [|reflexivity].
      vm_compute. repeat constructor; discriminate.
    + discriminate.
    + vm_compute. repeat constructor; discriminate.
    + right. eexists. reflexivity.
    + cbv zeta in Himp.
      change (fragment_start [js "tab=2"] ++ js "k=" ++ sample_k_param
              ++ js "&theme=dark")
        with (js "#tab=2&k=" ++ sample_k_param ++ js "&theme=dark") in Himp.
      change (js "#k=" ++ sample_k_param) with sample_link in Himp.
      rewrite Himp.
      assert (exists a,
                @importFromHash sample_JSON_State sample_JSON_index
                  sample_JSON_Payload sample_uuid sample_now
                  (initial_app ∅ 0 sample_link) = Some (true, a)) as [a ->];
        [|reflexivity].
      eexists. vm_compute. reflexivity.
Defined.

(** C9 as the specification states it fails: App.tsx does not
    recognize a legacy fragment. Booted with [#event=3f2a-77] on a
    store that holds the event 3f2a-77, it opens no event and shows the
    manager; and the older App, booted with a share link, takes a new
    identifier. *)
Lemma boot_ignores_legacy_fragment :
  @loadEvent sample_JSON_State (js "3f2a-77") (storage sample_world)
  = Some (titled (js "Spring Meet"))
  /\ (exists a,
        @boot sample_JSON_State sample_JSON_index sample_JSON_Payload
          sample_uuid sample_now (storage sample_world) 0 (js "#event=3f2a-77")
        = Some a
        /\ mode a = manager /\ currentEid a = None /\ currentState a = None
        /\ storage (world a) = storage sample_world)
  /\ initialEventId sample_link (js "new-uuid") = js "new-uuid".
Proof.
  split; [vm_compute; reflexivity|]. split; [|vm_compute; reflexivity].
  eexists. split; [vm_compute; reflexivity|]. repeat split.
Qed.

(** ** Share keys and links, for every text *)

Section KeyFacts.
Local Open Scope Z_scope.

Lemma scalar_values_scalar_bounded (n : nat) s :
  (length s <= n)%nat -> code_units s -> Forall is_scalar (scalar_values s).
Proof.
  unfold code_units. revert s. induction n as [|n IH]; intros s Hlen Hs.
  - destruct s; [constructor | simpl in Hlen; lia].
  - destruct s as [|c r]; [constructor|].
    apply Forall_cons_1 in Hs as [Hc Hr]. simpl in Hlen. cbn [scalar_values].
    assert (is_scalar REPLACEMENT) as Hrep by (unfold is_scalar, REPLACEMENT; lia).
    destruct (is_high_surrogate c) eqn:Hhigh.
    + destruct r as [|d r']; [by repeat constructor|].
      destruct (is_low_surrogate d) eqn:Hlow.
      * apply Forall_cons_1 in Hr as [Hd Hr']. constructor.
        -- unfold is_high_surrogate, is_low_surrogate, is_scalar in *. lia.
        -- apply IH; [simpl in Hlen; lia | done].
      * constructor; [done|]. apply IH; [lia | done].
    + destruct (is_low_surrogate c) eqn:Hlow.
      * constructor; [done|]. apply IH; [lia | done].
      * constructor; [|apply IH; [lia | done]].
        unfold is_high_surrogate, is_low_surrogate, is_scalar in *. lia.
Qed.

Lemma TextEncoder_encode_code_units s :
  code_units s -> Forall is_byte (TextEncoder_encode s).
Proof.
  intros Hs. unfold TextEncoder_encode.
  pose proof (scalar_values_scalar_bounded (length s) s ltac:(lia) Hs) as Hsc.
  induction Hsc as [|c cps Hc Hcps IH]; [constructor|].
  cbn [flat_map]. apply Forall_app. split; [by apply utf8_bytes_range | exact IH].
Qed.

Lemma base64_length bs : (length (base64 bs) mod 4 = 0)%nat.
Proof.
  unfold base64. rewrite length_app, length_map.
  destruct (sextets_shape bs) as [q [[-> ->] | [[-> ->] | [-> ->]]]]; simpl length.
  - replace (4 * q + 0)%nat with (q * 4)%nat by lia. apply Nat.Div0.mod_mul.
  - replace (4 * q + 3 + 1)%nat with ((q + 1) * 4)%nat by lia. apply Nat.Div0.mod_mul.
  - replace (4 * q + 2 + 2)%nat with ((q + 1) * 4)%nat by lia. apply Nat.Div0.mod_mul.
Qed.

Lemma base64_alphabet bs :
  Forall is_byte bs ->
  Forall (fun c => is_Some (b64_index c) \/ c = 61) (base64 bs).
Proof.
  intros Hb. unfold base64. apply Forall_app. split.
  - apply Forall_map. eapply Forall_impl; [apply sextets_range, Hb|].
    intros i Hi. left. simpl. rewrite b64_index_char by done. eauto.
  - unfold b64_padding.
    destruct (length bs mod 3)%nat as [|[|[|n]]];
      repeat (apply Forall_cons_2; [by right|]); constructor.
Qed.

Lemma b64_alphabet_cases c :
  is_Some (b64_index c) \/ c = 61 ->
  65 <= c <= 90 \/ 97 <= c <= 122 \/ 48 <= c <= 57
  \/ c = 43 \/ c = 47 \/ c = 61.
Proof.
  intros [[i Hi] | ->]; [|lia]. unfold b64_index in Hi.
  repeat case_match; try discriminate; lia.
Qed.

Lemma escape_ascii_link_chars s :
  Forall (fun c => is_Some (b64_index c) \/ c = 61) s ->
  Forall link_char (flat_map escape_ascii s).
Proof.
  induction 1 as [|c s Hc Hs IH]; [constructor|].
  cbn [flat_map]. apply Forall_app. split; [|exact IH].
  apply b64_alphabet_cases in Hc.
  assert (65 <= c <= 90 \/ 97 <= c <= 122 \/ 48 <= c <= 57 ->
          is_uri_unreserved c = true) as Hun.
  { intros Hr. unfold is_uri_unreserved.
    destruct (Z.leb_spec 65 c), (Z.leb_spec c 90), (Z.leb_spec 97 c),
      (Z.leb_spec c 122), (Z.leb_spec 48 c), (Z.leb_spec c 57);
      try reflexivity; lia. }
  destruct Hc as [Hc | [Hc | [Hc | [-> | [-> | ->]]]]].
  - unfold escape_ascii. rewrite Hun by lia.
    apply Forall_cons_2; [unfold link_char; lia | constructor].
  - unfold escape_ascii. rewrite Hun by lia.
    apply Forall_cons_2; [unfold link_char; lia | constructor].
  - unfold escape_ascii. rewrite Hun by lia.
    apply Forall_cons_2; [unfold link_char; lia | constructor].
  - change (escape_ascii 43) with [37; 50; 66].
    repeat (apply Forall_cons_2; [unfold link_char; lia|]). constructor.
  - change (escape_ascii 47) with [37; 50; 70].
    repeat (apply Forall_cons_2; [unfold link_char; lia|]). constructor.
  - change (escape_ascii 61) with [37; 51; 68].
    repeat (apply Forall_cons_2; [unfold link_char; lia|]). constructor.
Qed.

End KeyFacts.

(** [makeEventKey] never fails on a string: the bytes that btoa gets are
    those of the UTF-8 encoding, never above 255. The key is Base64
    text, a multiple of 4 characters long, that atob reads back as
    those bytes. *)
Theorem makeEventKey_total {P} `{JSON P} (payload : P) :
  code_units (JSON_stringify payload) ->
  exists key,
    makeEventKey payload = Some key
    /\ key = base64 (TextEncoder_encode (JSON_stringify payload))
    /\ Forall (fun c => is_Some (b64_index c) \/ c = 61%Z) key
    /\ (length key mod 4 = 0)%nat
    /\ atob (trim key) = Some (TextEncoder_encode (JSON_stringify payload)).
Proof.
  intros Hs. pose proof (TextEncoder_encode_code_units _ Hs) as Hb.
  eexists. split; [|split; [reflexivity|split; [|split]]].
  - unfold makeEventKey. rewrite append_each, app_nil_l. by apply btoa_bytes.
  - by apply base64_alphabet.
  - apply base64_length.
  - by apply atob_base64.
Qed.

Section LinkFacts.
Context `{JSON State} `{JSON (list EventMeta)} `{JSON Payload}.
Variable randomUUID : nat -> EID.
Variable now : number.

(** The fragment [copyShareLink] builds and how the boot reads it. *)
Lemma copyShareLink_fragment eid st ls :
  loadEvent eid ls = Some st ->
  code_units (JSON_stringify
                {| payload_eid := Some eid; payload_state := Some st |}) ->
  JSON_stringify {| payload_eid := Some eid; payload_state := Some st |} <> [] ->
  exists escaped,
    copyShareLink eid ls = Some (js "#k=" ++ escaped)
    /\ Forall link_char escaped
    /\ match_k_param (js "#k=" ++ escaped) = Some escaped
    /\ decodeURIComponent escaped
       = Some (base64 (TextEncoder_encode
                         (JSON_stringify {| payload_eid := Some eid;
                                            payload_state := Some st |}))).
Proof.
  intros Hload Hs Hne.
  set (payload := {| payload_eid := Some eid; payload_state := Some st |}) in *.
  pose proof (TextEncoder_encode_code_units _ Hs) as Hb.
  set (key := base64 (TextEncoder_encode (JSON_stringify payload))).
  destruct (decodeURIComponent_encodeURIComponent key)
    as (escaped & Henc & Hdec & Hamp & Hnonempty);
    [by apply base64_ascii|].
  exists escaped. split; [|split; [|split; [|done]]].
  - unfold copyShareLink. rewrite Hload. fold payload.
    unfold makeEventKey. rewrite append_each, app_nil_l.
    rewrite btoa_bytes by done. fold key. by rewrite Henc.
  - rewrite encodeURIComponent_ascii in Henc by (by apply base64_ascii).
    injection Henc as <-. apply escape_ascii_link_chars.
    by apply base64_alphabet.
  - pose proof (match_k_param_fragment 35%Z [] escaped []) as Hfrag.
    cbn [flat_map app] in Hfrag. rewrite app_nil_r in Hfrag.
    apply Hfrag; auto.
    apply Hnonempty. apply base64_nonempty.
    by apply TextEncoder_encode_nonempty.
Qed.

(** [copyShareLink] builds a link for every event that loads from
    storage, and for no other; after [#k=] the link holds letters,
    digits and percent signs only, so that no [&] or [#] of the key cuts
    the parameter short. *)
Theorem copyShareLink_total eid ls :
  (loadEvent eid ls = None -> copyShareLink eid ls = None)
  /\ (forall st,
        loadEvent eid ls = Some st ->
        code_units (JSON_stringify
                      {| payload_eid := Some eid; payload_state := Some st |}) ->
        JSON_stringify {| payload_eid := Some eid; payload_state := Some st |}
        <> [] ->
        exists escaped,
          copyShareLink eid ls = Some (js "#k=" ++ escaped)
          /\ escaped <> []
          /\ Forall link_char escaped
          /\ k_param_key (js "#k=" ++ escaped) = Some (makeEventKey
               {| payload_eid := Some eid; payload_state := Some st |})).
Proof.
  split.
  - intros Hnone. unfold copyShareLink. by rewrite Hnone.
  - intros st Hload Hs Hne.
    destruct (copyShareLink_fragment eid st ls Hload Hs Hne)
      as (escaped & Hlink & Hchars & Hm & Hdec).
    exists escaped. split; [done|]. split; [|split; [done|]].
    + intros ->. discriminate.
    + unfold k_param_key. rewrite Hm. simpl. rewrite Hdec. f_equal.
      unfold makeEventKey. rewrite append_each, app_nil_l. symmetry.
      apply btoa_bytes. by apply TextEncoder_encode_code_units.
Qed.

(** A link from one device opened on another. The link
    [copyShareLink] builds for a stored event, opened at boot on a store
    that has no snapshot under the event's identifier, brings the event
    over: it is stored under the same identifier with the same JSON
    text, it is the current and the only event of the index, and the
    fragment is gone from the address. *)
Theorem share_link_boot eid st lsA lsB used :
  loadEvent eid lsA = Some st ->
  let payload := {| payload_eid := Some eid; payload_state := Some st |} in
  JSON_stringify payload <> [] ->
  json_text (JSON_stringify payload) ->
  JSON_parse (JSON_stringify payload) = Some payload ->
  reloads st ->
  loadEvent eid lsB = None ->
  exists link a,
    copyShareLink eid lsA = Some link
    /\ boot randomUUID now lsB used link = Some a
    /\ storage (world a) !! eventKey eid = Some (JSON_stringify st)
    /\ (exists s0, currentState a = Some s0
                   /\ loadEvent eid (storage (world a)) = Some s0
                   /\ JSON_stringify s0 = JSON_stringify st)
    /\ currentEid a = Some eid /\ mode a = event
    /\ index (world a) = [new_meta now eid st]
    /\ location_hash a = [].
Proof.
  intros Hload payload Hne Htext Hjson (Hne' & s0 & Hparse & Hsame) HnoneB.
  assert (code_units (JSON_stringify payload)) as Hcu.
  { destruct Htext as [Hwf _]. clear -Hwf.
    set (t := JSON_stringify payload) in *. clearbody t.
    assert (forall n (s : jsstring), length s <= n -> well_formed s = true ->
              code_units s) as Hgen; [|by apply (Hgen (length t))].
    clear. unfold code_units.
    induction n as [|n IH]; intros s Hlen Hwf.
    - destruct s; [constructor | simpl in Hlen; lia].
    - destruct s as [|c r]; [constructor|]. simpl in Hwf, Hlen.
      destruct (is_high_surrogate c) eqn:Hhigh.
      + destruct r as [|d r']; [discriminate|].
        apply andb_true_iff in Hwf as [Hlow Hwf].
        unfold is_high_surrogate, is_low_surrogate in *.
        constructor; [lia|]. constructor; [lia|].
        apply IH; [simpl in Hlen; lia | done].
      + apply andb_true_iff in Hwf as [Hwf Hr].
        apply andb_true_iff in Hwf as [Hwf Hhi].
        apply andb_true_iff in Hwf as [_ Hlo].
        constructor; [lia|]. apply IH; [lia | done]. }
  destruct (copyShareLink_fragment eid st lsA Hload Hcu Hne)
    as (escaped & Hlink & _ & Hm & Hdec).
  fold payload in Hdec.
  assert (readEventKey (base64 (TextEncoder_encode (JSON_stringify payload)))
          = Some payload) as Hread.
  { rewrite readEventKey_base64 by done. exact Hjson. }
  exists (js "#k=" ++ escaped).
  unfold boot, importFromHash, initial_app. cbn [location_hash].
  rewrite Hm, Hdec, Hread. cbn [payload payload_state payload_eid].
  unfold addOrForkEvent. cbn [world storage]. rewrite HnoneB.
  eexists. split; [done|]. split; [reflexivity|].
  unfold openEvent, set_world, set_location_hash, store_new_event.
  cbn [world storage index drawn currentEid currentState mode location_hash].
  assert (loadEvent eid (saveIndex [new_meta now eid st] (saveEvent eid st lsB))
          = Some s0) as Hl.
  { rewrite loadEvent_saveIndex, loadEvent_saveEvent, decide_True by done.
    by destruct (JSON_stringify st). }
  change ({| meta_eid := eid; meta_title := title st; createdAt := now;
             updatedAt := now |}) with (new_meta now eid st).
  rewrite Hl. split; [|split; [|done]].
  - unfold setLastOpen, saveIndex, saveEvent.
    assert (KEY_LAST_OPEN <> eventKey eid) as Hk
      by (apply not_eq_sym, eventKey_not_lastOpen).
    assert (KEY_INDEX <> eventKey eid) as Hi
      by (apply not_eq_sym, eventKey_not_index).
    destruct (is_empty eid);
      rewrite ?(lookup_insert_ne _ KEY_LAST_OPEN),
        ?(lookup_delete_ne _ KEY_LAST_OPEN) by done;
      rewrite lookup_insert_ne by done; by rewrite lookup_insert_eq.
  - exists s0. split; [done|]. split; [|done].
    by rewrite loadEvent_setLastOpen.
Qed.

End LinkFacts.

(** ** The list of events *)

Lemma starts_with_prefix q s :
  starts_with q s = true <-> exists post, s = q ++ post.
Proof.
  revert s. induction q as [|c q IH]; intros s; simpl.
  - split; eauto.
  - destruct s as [|d s]; [split; [discriminate | intros [? ?]; discriminate]|].
    rewrite andb_true_iff, Z.eqb_eq, IH. split.
    + intros [-> [post ->]]. eauto.
    + intros [post [= -> ->]]. eauto.
Qed.

Lemma includes_substring s q :
  includes s q = true <-> exists pre post, s = pre ++ q ++ post.
Proof.
  induction s as [|d s IH]; simpl; rewrite orb_true_iff, starts_with_prefix.
  - split.
    + intros [[post ->] | ?]; [|discriminate]. by exists [], post.
    + intros (pre & post & Heq). left.
      destruct pre; [|discriminate]. simpl in Heq. eauto.
  - rewrite IH. split.
    + intros [[post ->] | (pre & post & ->)]; [by exists [], post|].
      by exists (d :: pre), post.
    + intros ([|x pre] & post & Heq); [left; eauto|].
      right. injection Heq as -> ->. eauto.
Qed.

(** The manager lists the events whose title, in lower case, contains
    the trimmed query in lower case, and all events when the query is
    blank; they are taken from the events sorted by the time of their
    last update, the most recent first. *)
Theorem filtered_spec toLowerCase events query :
  let q := toLowerCase (trim query) in
  let recent := sort (fun a b => (updatedAt b - updatedAt a)%float) events in
  let shown := filtered toLowerCase events query in
  recent ≡ₚ events
  /\ (forall i a b, recent !! i = Some a -> recent !! S i = Some b ->
        (0 <? updatedAt b - updatedAt a)%float = false)
  /\ shown `sublist_of` recent
  /\ (forall e, e ∈ shown <->
        e ∈ events
        /\ (q = [] \/ exists pre post,
                        toLowerCase (meta_title e) = pre ++ q ++ post))
  /\ (q = [] -> shown = recent).
Proof.
  cbv zeta. unfold filtered.
  split; [apply sort_perm|]. split; [|split; [apply sublist_filter|split]].
  - intros i a b Ha Hb.
    apply (sort_in_order (fun a b => (updatedAt b - updatedAt a)%float) events)
      with (i := i); [|done|done].
    intros x y. unfold sorts_after. apply sub_antisym.
  - intros e. rewrite list_elem_of_filter, sort_perm.
    rewrite orb_true_iff, includes_substring.
    destruct (toLowerCase (trim query)); simpl; intuition congruence.
  - intros Hq. rewrite Hq. simpl. apply filter_keep.
    apply Forall_forall. done.
Qed.

(** ** Scores are numbers

    Rounding gives NaN for no product and no quotient of finite numbers
    with a divisor other than 0. *)

Lemma shr_1_nonneg mrs : (0 <= shr_m mrs)%Z -> (0 <= shr_m (shr_1 mrs))%Z.
Proof.
  destruct mrs as [m r s]. simpl.
  destruct m as [|[p|p|]|[p|p|]]; simpl; lia.
Qed.

Lemma iter_pos_shr_1_nonneg p mrs :
  (0 <= shr_m mrs)%Z -> (0 <= shr_m (SpecFloat.iter_pos shr_1 p mrs))%Z.
Proof.
  revert mrs. induction p as [p IH|p IH|]; intros mrs Hm; simpl.
  - apply IH, IH. by apply shr_1_nonneg.
  - by apply IH, IH.
  - by apply shr_1_nonneg.
Qed.

Lemma shr_fexp_nonneg m e l :
  (0 <= m)%Z -> (0 <= shr_m (shr_fexp prec emax m e l).1)%Z.
Proof.
  intros Hm. unfold shr_fexp, shr.
  assert (0 <= shr_m (shr_record_of_loc m l))%Z as H0.
  { unfold shr_record_of_loc. by destruct l as [|[| |]]. }
  destruct (fexp prec emax (Zdigits2 m + e) - e)%Z; simpl; [done| |done].
  by apply iter_pos_shr_1_nonneg.
Qed.

Lemma binary_round_aux_not_nan sx mx ex lx :
  (0 <= mx)%Z -> binary_round_aux prec emax sx mx ex lx <> S754_nan.
Proof.
  intros Hm. unfold binary_round_aux.
  pose proof (shr_fexp_nonneg mx ex lx Hm) as H1.
  destruct (shr_fexp prec emax mx ex lx) as [mrs' e']. simpl in H1.
  assert (0 <= round_nearest_even (shr_m mrs') (loc_of_shr_record mrs'))%Z as H2.
  { unfold round_nearest_even.
    destruct (loc_of_shr_record mrs') as [|[| |]]; try lia.
    destruct (Z.even (shr_m mrs')); lia. }
  pose proof (shr_fexp_nonneg _ e' loc_Exact H2) as H3.
  destruct (shr_fexp prec emax _ e' loc_Exact) as [mrs'' e'']. simpl in H3.
  destruct (shr_m mrs'') as [|p|p]; [done| |lia].
  by destruct (_ <=? _)%Z.
Qed.

Lemma SF64mul_not_nan x y :
  x <> S754_nan -> y <> S754_nan ->
  (forall s s', ~ (x = S754_zero s /\ y = S754_infinity s')) ->
  (forall s s', ~ (x = S754_infinity s /\ y = S754_zero s')) ->
  SF64mul x y <> S754_nan.
Proof.
  intros Hx Hy H0 H1. unfold SF64mul.
  destruct x as [sx|sx| |sx mx ex], y as [sy|sy| |sy my ey];
    simpl; try done.
  - exfalso. by apply (H0 sx sy).
  - exfalso. by apply (H1 sx sy).
  - by apply binary_round_aux_not_nan.
Qed.

Lemma SF64div_not_nan x sy my ey :
  x <> S754_nan -> SF64div x (S754_finite sy my ey) <> S754_nan.
Proof.
  intros Hx. unfold SF64div.
  destruct x as [sx|sx| |sx mx ex]; simpl; try done.
  destruct (SFdiv_core_binary prec emax (Z.pos mx) ex (Z.pos my) ey)
      as [[mz ez] lz] eqn:Hcore.
  apply binary_round_aux_not_nan.
  unfold SFdiv_core_binary in Hcore.
  set (m' := match _ with 0%Z => _ | Z.pos _ => _ | Z.neg _ => _ end) in Hcore.
  assert (0 <= m')%Z as Hm'.
  { unfold m'. destruct (_ - _ - _)%Z; [lia| |lia].
    apply Z.shiftl_nonneg. lia. }
  pose proof (Z.div_pos m' (Z.pos my) Hm' ltac:(lia)) as Hq.
  unfold Z.div in Hq.
  destruct (Z.div_eucl m' (Z.pos my)) as [q r]. by injection Hcore as <- _ _.
Qed.

Lemma isNaN_spec (x : number) : isNaN x = true <-> Prim2SF x = S754_nan.
Proof.
  unfold isNaN, is_nan. rewrite FloatAxioms.eqb_spec.
  destruct (Prim2SF x) as [s|s| |s m e]; simpl; split; try done.
  - by destruct s.
  - unfold SFeqb, SFcompare.
    destruct s; rewrite Z.compare_refl, Pos.compare_cont_refl; done.
Qed.

Lemma isNaN_false (x : number) : isNaN x = false <-> Prim2SF x <> S754_nan.
Proof.
  rewrite <- isNaN_spec. destruct (isNaN x); split; congruence.
Qed.

Lemma truthy_spec (x : number) :
  truthy x = true ->
  exists s, Prim2SF x = S754_infinity s \/ exists m e, Prim2SF x = S754_finite s m e.
Proof.
  unfold truthy. intros H. apply andb_true_iff in H as [Hz Hn].
  apply negb_true_iff in Hz, Hn. fold (isNaN x) in Hn.
  apply isNaN_false in Hn. rewrite FloatAxioms.eqb_spec in Hz.
  change (Prim2SF 0) with (S754_zero false) in Hz.
  destruct (Prim2SF x) as [s|s| |s m e]; try done; eauto.
Qed.

Lemma isFinite_spec (x : number) :
  isFinite x = true ->
  (exists s, Prim2SF x = S754_zero s) \/ exists s m e, Prim2SF x = S754_finite s m e.
Proof.
  unfold isFinite. intros H. apply andb_true_iff in H as [Hn Hi].
  apply negb_true_iff in Hn, Hi. fold (isNaN x) in Hn.
  apply isNaN_false in Hn. unfold is_infinity in Hi.
  rewrite FloatAxioms.eqb_spec, abs_spec in Hi.
  change (Prim2SF infinity) with (S754_infinity false) in Hi.
  destruct (Prim2SF x) as [s|s| |s m e]; try done; eauto.
Qed.

(** The score functions give null or a number, never NaN: the run index
    for every time, the DOTS score for every finite total. *)
Theorem scores_are_numbers :
  (forall seconds v, runPerformanceIndex seconds = Some v -> isNaN v = false)
  /\ (forall total bw sex v,
        isFinite total = true ->
        dotsPoints (Some total) bw sex = Some v -> isNaN v = false)
  /\ (forall a v, runScore a = Some v -> isNaN v = false)
  /\ (forall a v,
        isFinite (athlete_total a) = true -> plScore a = Some v ->
        isNaN v = false).
Proof.
  assert (forall seconds v,
            runPerformanceIndex seconds = Some v -> isNaN v = false) as Hrun.
  { intros [s|] v; [|discriminate]. unfold runPerformanceIndex, falsy.
    destruct (truthy s) eqn:Ht; [|discriminate]. simpl.
    destruct (s <=? 0)%float; [discriminate|]. intros [= <-].
    apply isNaN_false. rewrite div_spec.
    let c := eval vm_compute in (Prim2SF 780) in change (Prim2SF 780) with c.
    apply truthy_spec in Ht as [sg [Hs | (m & e & Hs)]]; rewrite Hs.
    - done.
    - by apply SF64div_not_nan. }
  assert (forall total bw sex v,
            isFinite total = true ->
            dotsPoints (Some total) bw sex = Some v -> isNaN v = false) as Hdots.
  { intros total [x|] sex v Hfin; [|by destruct sex]. unfold dotsPoints.
    destruct (falsy (Some total)) eqn:Hft; [simpl; discriminate|].
    destruct (falsy (Some x)) eqn:Hfx; [simpl; discriminate|].
    destruct (x <=? 0)%float eqn:Hx; [simpl; discriminate|].
    cbn [orb].
    destruct (match sex with F => _ | M => _ | X => _ end) as [k|];
      [|discriminate].
    cbv zeta.
    remember (dots_denominator (DOTS_COEFF k) x) as denom eqn:Hden.
    destruct (isFinite denom) eqn:Hd; [|simpl; discriminate].
    destruct (denom =? 0)%float eqn:Hz; [simpl; discriminate|]. simpl.
    intros [= <-]. apply isNaN_false. rewrite mul_spec, div_spec.
    let c := eval vm_compute in (Prim2SF 600) in change (Prim2SF 600) with c.
    assert (exists s m e, Prim2SF denom = S754_finite s m e)
      as (sd & md & ed & Hdenom).
    { apply isFinite_spec in Hd as [[s Hs] | H]; [|done].
      rewrite FloatAxioms.eqb_spec, Hs in Hz. discriminate. }
    assert (exists s m e, Prim2SF total = S754_finite s m e)
      as (st & mt & et & Htotal).
    { apply isFinite_spec in Hfin as [[s Hs] | H]; [|done].
      unfold falsy, truthy in Hft. rewrite FloatAxioms.eqb_spec, Hs in Hft.
      discriminate. }
    rewrite Hdenom, Htotal.
    apply SF64mul_not_nan;
      [by apply SF64div_not_nan | done
      | intros s s' [_ ?]; discriminate | intros s s' [_ ?]; discriminate]. }
  split; [exact Hrun|]. split; [exact Hdots|]. split.
  - intros a v. apply Hrun.
  - intros a v. apply Hdots.
Qed.

(** ** The properties on the sample data *)

Lemma ranking_rows_sorted_witness :
  exists a b x y,
    rank_rows plScore (athletes sample_state) !! 0 = Some a
    /\ rank_rows plScore (athletes sample_state) !! 1 = Some b
    /\ rank_id a = js "7" /\ rank_id b = js "a1"
    /\ rank_score a = Some x /\ rank_score b = Some y
    /\ (0 <? y - x)%float = false.
Proof.
  do 4 eexists.
  split; [vm_compute; reflexivity|]. split; [vm_compute; reflexivity|].
  split; [reflexivity|]. split; [reflexivity|].
  split; [reflexivity|]. split; [reflexivity|].
  eapply (proj2 (proj2 (proj2 (proj2
            (ranking_rows_sorted plScore (athletes sample_state))))) 0);
    vm_compute; reflexivity.
Defined.

Lemma ranking_points_roster_witness :
  ranking_points (plScores sample_state) !! js "c3" = Some 0%float.
Proof.
  apply (proj1 (proj2 (ranking_points_roster plScore sample_state))
           {| id := js "c3"; name := js "Cy"; sex := X; age := None;
              bodyweight := Some 60%float; squat := Some 100%float;
              bench := None; deadlift := None; runTime := js "19:00" |}).
  - apply list_elem_of_In. simpl. auto.
  - reflexivity.
  - intros H. vm_compute in H. discriminate.
Defined.

Lemma unscored_athletes_get_zero_witness :
  ranking_points (runScores sample_state) !! js "7" = Some 0%float
  /\ ranking_points (runScores sample_imported) !! PROTO = None.
Proof.
  split.
  - apply (proj1 (proj2 (unscored_athletes_get_zero sample_state
             {| id := js "7"; name := js "Bo"; sex := F; age := Some 28%float;
                bodyweight := Some 60%float; squat := Some 100%float;
                bench := None; deadlift := None; runTime := [] |}
             ltac:(apply list_elem_of_In; simpl; auto)))).
    + left. reflexivity.
    + intros H. vm_compute in H. discriminate.
  - apply (proj2 (proj2 (unscored_athletes_get_zero sample_imported
             {| id := PROTO; name := js "Eve"; sex := M; age := None;
                bodyweight := Some 80%float; squat := Some 100%float;
                bench := None; deadlift := None; runTime := [] |}
             ltac:(apply list_elem_of_In; simpl; auto)))).
    reflexivity.
Defined.

Lemma sample_state_ids : NoDup (map id (athletes sample_state)).
Proof.
  change (map id (athletes sample_state)) with [js "a1"; js "7"; js "c3"].
  repeat (apply NoDup_cons_2;
          [rewrite ?elem_of_cons, elem_of_nil; intuition discriminate|]).
  apply NoDup_nil_2.
Qed.

Lemma leaderboard_spec_witness :
  (exists rows st,
     leaderboard sample_state = Some rows
     /\ (js "a1", st) ∈ rows /\ standing_name st = js "Al")
  /\ (exists rows,
        leaderboard sample_imported = Some rows
        /\ js "b" ∈ rows.*1 /\ PROTO ∉ rows.*1).
Proof.
  split; [|destruct (leaderboard_spec sample_imported)
             as (rows & Hrows & _ & Hkeys & _);
           exists rows; split; [exact Hrows|]; split;
           [apply Hkeys; split;
              [apply list_elem_of_In; simpl; auto
              | intros H; vm_compute in H; discriminate]
           | intros Hin; apply Hkeys in Hin as [_ Hin]; by apply Hin]].
  destruct (leaderboard_spec sample_state)
    as (rows & Hrows & _ & _ & _ & Hname & _).
  assert ({| id := js "a1"; name := js "Al"; sex := M; age := None;
             bodyweight := Some 80%float; squat := Some 100%float;
             bench := None; deadlift := None; runTime := js "20:00" |}
          ∈ athletes sample_state) as Hin0.
  { apply list_elem_of_In. simpl. auto. }
  destruct (Hname sample_state_ids _ Hin0) as (st & Hin & Hst).
  { intros H. vm_compute in H. discriminate. }
  exists rows, st. split; [exact Hrows|]. split; [exact Hin | exact Hst].
Defined.

Lemma addAthlete_spec_witness :
  ranking_points (plScores (addAthlete (js "q8") sample_state))
  = <[js "q8" := 0%float]> (ranking_points (plScores sample_state)).
Proof.
  apply (proj2 (proj2 (proj2 (proj2 (proj2
           (addAthlete_spec (js "q8") sample_state)))))).
  intros H. vm_compute in H. discriminate.
Defined.

Lemma removeAthlete_spec_witness :
  removeAthlete (js "zz") sample_state = sample_state.
Proof.
  apply (proj2 (proj2 (proj2 (proj2 (removeAthlete_spec (js "zz") sample_state))))).
  vm_compute. intros H. repeat (apply elem_of_cons in H as [H|H]; [discriminate|]).
  by apply elem_of_nil in H.
Defined.

Lemma clearNumbers_spec_witness :
  ranking_points (plScores (clearNumbers true sample_state)) !! js "a1"
  = Some 0%float.
Proof.
  apply (proj1 (proj2 (proj2 (proj2 (proj2 (proj2 (proj2
           (clearNumbers_spec sample_state)))))))
           (js "a1")).
  - apply list_elem_of_In. simpl. auto.
  - intros H. vm_compute in H. discriminate.
Defined.

Lemma updateAthlete_spec_witness :
  plScores (updateAthlete (js "a1") sample_patch sample_state)
  = plScores sample_state.
Proof.
  apply (proj1 (proj2 (proj2 (proj2 (proj2
           (updateAthlete_spec (js "a1") sample_patch sample_state))))));
    reflexivity.
Defined.

Lemma storage_round_trips_witness :
  @loadEvent sample_JSON_State (js "x1")
    (@saveEvent sample_JSON_State (js "x1") (titled (js "Meet")) ∅)
  = Some (titled (js "Meet"))
  /\ @getLastOpen (setLastOpen (Some (js "x1")) ∅) = Some (js "x1").
Proof.
  split.
  - rewrite (proj1 (@storage_round_trips sample_JSON_State sample_JSON_index)
               (js "x1") (titled (js "Meet")) ∅); [reflexivity|].
    vm_compute. discriminate.
  - apply (proj1 (proj2 (proj2 (proj2 (proj2 (proj2 (proj2
             (@storage_round_trips sample_JSON_State sample_JSON_index)))))))
             (js "x1") ∅).
    discriminate.
Defined.

Lemma createEvent_spec_witness :
  title (new_event_state (Some (js "  Autumn "))) = js "Autumn"
  /\ getLastOpen
       (storage (world (@createEvent sample_JSON_State sample_JSON_index
                          sample_uuid sample_now (Some (js "  Autumn "))
                          sample_app)))
     = Some (js "fresh-0").
Proof.
  destruct (@createEvent_spec sample_JSON_State sample_JSON_index sample_uuid
              sample_now (Some (js "  Autumn ")) sample_app)
    as (_ & _ & _ & Htitle & _ & _ & _ & _ & _ & _ & Hlast & _).
  - split; [vm_compute; discriminate|].
    exists (titled (js "Autumn")). split; vm_compute; reflexivity.
  - vm_compute. discriminate.
  - split; [|exact Hlast].
    apply (Htitle (js "  Autumn ")); [reflexivity | vm_compute; discriminate].
Defined.

Lemma App_deleteEvent_spec_witness :
  @loadEvent sample_JSON_State (js "3f2a-77")
    (storage (world (@App_deleteEvent sample_JSON_index true (js "3f2a-77")
                       sample_editing)))
  = None.
Proof.
  apply (proj2 (proj2 (@App_deleteEvent_spec sample_JSON_State sample_JSON_index
                         (js "3f2a-77") sample_editing))).
  - vm_compute. apply list_elem_of_here.
  - reflexivity.
Defined.

Lemma autosave_spec_witness :
  storage (world (@autosave sample_JSON_State sample_JSON_index sample_now
                    sample_editing))
  !! eventKey (js "3f2a-77")
  = Some (sample_stringify_state (titled (js "Spring Meet 2"))).
Proof.
  destruct (proj2 (@autosave_spec sample_JSON_State sample_JSON_index
                     sample_now sample_editing)
              (js "3f2a-77") (titled (js "Spring Meet 2"))
              eq_refl ltac:(discriminate) eq_refl _ eq_refl)
    as (Hsaved & _).
  exact Hsaved.
Defined.

Lemma boot_without_link_witness :
  exists a,
    @boot sample_JSON_State sample_JSON_index sample_JSON_Payload
      sample_uuid sample_now (storage sample_store) 0 (js "#event=3f2a-77")
    = Some a
    /\ storage (world a) = storage sample_store.
Proof.
  destruct (@boot_without_link sample_JSON_State sample_JSON_index
              sample_JSON_Payload sample_uuid sample_now
              (storage sample_store) 0 (js "#event=3f2a-77"))
    as (a & Hboot & Hstorage & _).
  - left. vm_compute. reflexivity.
  - exists a. auto.
Defined.

Lemma boot_bad_escape_witness :
  @boot sample_JSON_State sample_JSON_index sample_JSON_Payload
    sample_uuid sample_now (storage sample_store) 0 (js "#k=%zz")
  = None.
Proof.
  apply (@boot_bad_escape sample_JSON_State sample_JSON_index
           sample_JSON_Payload sample_uuid sample_now
           (storage sample_store) 0 (js "#k=%zz") (js "%zz"));
    vm_compute; reflexivity.
Defined.

Lemma boot_import_witness :
  exists a,
    @boot sample_JSON_State sample_JSON_index sample_JSON_Payload
      sample_uuid sample_now sample_other_storage 0 sample_link
    = Some a
    /\ index (world a)
       = [new_meta sample_now (js "fresh-0") (titled (js "Spring Meet"))].
Proof.
  destruct (proj2 (proj2
              (@boot_import sample_JSON_State sample_JSON_index
                 sample_JSON_Payload sample_uuid sample_now
                 sample_other_storage 0 sample_link sample_k_param sample_key
                 (js "3f2a-77") (titled (js "Spring Meet"))
                 ltac:(vm_compute; reflexivity) ltac:(vm_compute; reflexivity)
                 ltac:(vm_compute; reflexivity)
                 ltac:(split; [vm_compute; discriminate|];
                       exists (titled (js "Spring Meet"));
                       split; vm_compute; reflexivity)))
              (titled (js "Autumn Meet")))
    as (a & Hboot & Hindex & _).
  - vm_compute. reflexivity.
  - vm_compute. discriminate.
  - vm_compute. reflexivity.
  - exists a. auto.
Defined.

Lemma store_ok_preserved_witness :
  @store_ok sample_JSON_State sample_JSON_index
    (world (@autosave sample_JSON_State sample_JSON_index sample_now
              sample_editing)).
Proof.
  apply (proj1 (proj2 (proj2
           (@store_ok_preserved sample_JSON_State sample_JSON_index
              sample_uuid sample_now sample_editing
              ltac:(split; [vm_compute; repeat constructor; set_solver|];
                    split; [|vm_compute; reflexivity];
                    intros m Hm; vm_compute in Hm;
                    apply list_elem_of_singleton in Hm as ->;
                    vm_compute; eauto))))).
  intros st [= <-]. split; [vm_compute; discriminate|].
  exists (titled (js "Spring Meet 2")). split; vm_compute; reflexivity.
Defined.

Ltac concrete_code_units :=
  unfold code_units;
  match goal with
  | |- Forall _ ?l => let v := eval vm_compute in l in change l with v
  end;
  repeat (apply Forall_cons_2; [lia|]); constructor.

Lemma makeEventKey_total_witness :
  exists key,
    @makeEventKey Payload sample_JSON_Payload sample_payload = Some key
    /\ (length key mod 4 = 0)%nat.
Proof.
  destruct (@makeEventKey_total Payload sample_JSON_Payload sample_payload)
    as (key & Hkey & _ & _ & Hlen & _).
  - concrete_code_units.
  - exists key. split; [exact Hkey | exact Hlen].
Defined.

Lemma copyShareLink_total_witness :
  exists escaped,
    @copyShareLink sample_JSON_State sample_JSON_Payload (js "3f2a-77")
      (storage sample_world) = Some (js "#k=" ++ escaped)
    /\ Forall link_char escaped.
Proof.
  destruct (proj2 (@copyShareLink_total sample_JSON_State sample_JSON_Payload
                     (js "3f2a-77") (storage sample_world))
              (titled (js "Spring Meet")))
    as (escaped & Hlink & _ & Hchars & _).
  - vm_compute. reflexivity.
  - concrete_code_units.
  - vm_compute. discriminate.
  - exists escaped. split; [exact Hlink | exact Hchars].
Defined.

Lemma share_link_boot_witness :
  exists link a,
    @copyShareLink sample_JSON_State sample_JSON_Payload (js "3f2a-77")
      (storage sample_world) = Some link
    /\ @boot sample_JSON_State sample_JSON_index sample_JSON_Payload
         sample_uuid sample_now ∅ 0 link = Some a
    /\ currentEid a = Some (js "3f2a-77").
Proof.
  destruct (@share_link_boot sample_JSON_State sample_JSON_index
              sample_JSON_Payload sample_uuid sample_now (js "3f2a-77")
              (titled (js "Spring Meet")) (storage sample_world) ∅ 0)
    as (link & a & Hlink & Hboot & _ & _ & Hcur & _).
  - vm_compute. reflexivity.
  - vm_compute. discriminate.
  - split; [vm_compute; reflexivity | vm_compute; discriminate].
  - vm_compute. reflexivity.
  - split; [vm_compute; discriminate|].
    exists (titled (js "Spring Meet")). split; vm_compute; reflexivity.
  - reflexivity.
  - exists link, a. auto.
Defined.

Lemma filtered_spec_witness :
  filtered (fun s => s) (index sample_world) (js "  ")
  = sort (fun a b => (updatedAt b - updatedAt a)%float) (index sample_world).
Proof.
  apply (proj2 (proj2 (proj2 (proj2
           (filtered_spec (fun s => s) (index sample_world) (js "  ")))))).
  reflexivity.
Defined.

Lemma scores_are_numbers_witness :
  exists v, runPerformanceIndex (Some 1200%float) = Some v /\ isNaN v = false.
Proof.
  eexists. split; [reflexivity|].
  apply (proj1 scores_are_numbers (Some 1200%float)). reflexivity.
Defined.
